(** * RoadSense: risk scoring and classification engine

    A shallow embedding of the analytics module of the RoadSense client
    (the [safety-utils] module with [calculateSeverityScore],
    [calculatePercentile], [calculateSafetyLevelFromAccidents],
    [calculateAreaScores], [getTopCauses], [getDominantCause],
    [getCivilianSuggestions], [getGovernmentSuggestions],
    [getHourlyDistribution], [predictSafetyForHour]) and of the
    [areaAnalytics] memo of [pages/dashboard.tsx].

    Conventions of the embedding.
    - A JavaScript number that only ever holds an integer (a fatality count,
      a severity score, a tally, an hour) is a [Z]; [parseInt]'s [NaN] is
      [None].
    - A JavaScript number that may hold a fraction (a percentile, a
      comparison score) is a rational [Q]: the arithmetic of
      [calculatePercentile] is carried out exactly.  For the two percentiles
      the classifier asks for (25 and 75) over integer scores below 2^51 the
      IEEE double computation is exact as well.  At other percentiles the
      code rounds: [Double.calculatePercentile] is the function over IEEE
      binary64 numbers, with every operation rounded as the code rounds it.
    - A string is a [string] of 8-bit code units; [toLowerCase] maps the
      letters A-Z and leaves every other code unit alone, which is all a
      comparison with an ASCII keyword needs; [toLowerCaseFull] also maps
      the capital letters of Latin-1.
    - A plain object literal used as a dictionary is [JsObject.obj]: its own
      properties in creation order, looked up through [Object.prototype],
      enumerated the way [Object.entries] does. *)

From Stdlib Require Import ZArith QArith Qround Lqa Lia Bool List.
From Stdlib Require Import Ascii String Permutation Sorted Floats.
Import ListNotations.

Open Scope string_scope.
Open Scope Z_scope.

(** ** Strings *)

Module JsString.

Definition lowerChar (c : ascii) : ascii :=
  let n := nat_of_ascii c in
  if (65 <=? n)%nat && (n <=? 90)%nat then ascii_of_nat (n + 32) else c.

(** [s.toLowerCase()] *)
Fixpoint toLowerCase (s : string) : string :=
  match s with
  | EmptyString => EmptyString
  | String c s' => String (lowerChar c) (toLowerCase s')
  end.

(** [s.includes(sub)]: [sub] occurs in [s] at some position. *)
Fixpoint includes (s sub : string) : bool :=
  match s with
  | EmptyString => prefix sub EmptyString
  | String _ s' => prefix sub s || includes s' sub
  end.

(** [s.split(sep)] for a separator of one code unit. *)
Fixpoint split (sep : ascii) (s : string) : list string :=
  match s with
  | EmptyString => [EmptyString]
  | String c s' =>
      if Ascii.eqb c sep then EmptyString :: split sep s'
      else match split sep s' with
           | [] => [String c EmptyString]
           | p :: ps => String c p :: ps
           end
  end.

(** White space skipped by [parseInt] (code units below 256). *)
Definition isWhiteSpace (c : ascii) : bool :=
  let n := nat_of_ascii c in
  ((9 <=? n)%nat && (n <=? 13)%nat) || (n =? 32)%nat || (n =? 160)%nat.

Fixpoint trimStart (s : string) : string :=
  match s with
  | EmptyString => EmptyString
  | String c s' => if isWhiteSpace c then trimStart s' else s
  end.

(** Value of a digit in radix up to 36. *)
Definition digitValue (c : ascii) : option Z :=
  let n := nat_of_ascii c in
  if (48 <=? n)%nat && (n <=? 57)%nat then Some (Z.of_nat (n - 48))
  else if (97 <=? n)%nat && (n <=? 122)%nat then Some (Z.of_nat (n - 87))
  else if (65 <=? n)%nat && (n <=? 90)%nat then Some (Z.of_nat (n - 55))
  else None.

(** Longest prefix of radix-[radix] digits; [acc] is [None] until the
    first digit has been read. *)
Fixpoint parseDigits (radix : Z) (s : string) (acc : option Z) : option Z :=
  match s with
  | EmptyString => acc
  | String c s' =>
      match digitValue c with
      | Some d =>
          if d <? radix
          then parseDigits radix s'
                 (Some (radix * match acc with Some a => a | None => 0 end + d))
          else acc
      | None => acc
      end
  end.

(** [parseInt(s)] with no radix argument: leading white space, a sign,
    a [0x] or [0X] prefix selecting radix 16, then digits; [None] is
    [NaN]. *)
Definition parseInt (s : string) : option Z :=
  let s1 := trimStart s in
  let '(sign, s2) :=
    match s1 with
    | String "-"%char r => (-1, r)
    | String "+"%char r => (1, r)
    | _ => (1, s1)
    end in
  let '(radix, s3) :=
    match s2 with
    | String "0"%char (String x r) =>
        if Ascii.eqb x "x"%char || Ascii.eqb x "X"%char then (16, r) else (10, s2)
    | _ => (10, s2)
    end in
  option_map (Z.mul sign) (parseDigits radix s3 None).

End JsString.

Import JsString.

(** ** Record model ([shared/schema.ts]) *)

(** The columns of the [accidents] table the engine reads.  [area] and
    [time] are [notNull]; the others are nullable. *)
Record Accident : Type := mkAccident {
  area : string;
  time : string;
  fatalities : option Z;
  severity : option string;
  causePrimary : option string
}.

Inductive SafetyLevel : Type := safe | moderate | high_risk.

(** [x || 0] on a nullable integer column. *)
Definition orZero (x : option Z) : Z :=
  match x with
  | Some n => n
  | None => 0
  end.

(** [x || d] on a nullable text column: [null] and the empty string are
    falsy. *)
Definition orString (x : option string) (d : string) : string :=
  match x with
  | Some EmptyString => d
  | Some s => s
  | None => d
  end.

(** ** Severity scorer *)

(** Body of the [forEach] callback of [calculateSeverityScore]. *)
Definition scoreStep (score : Z) (accident : Accident) : Z :=
  let fatalities := orZero (fatalities accident) in
  let severity := toLowerCase (orString (severity accident) "") in
  let score := score + fatalities * 10 in
  let score :=
    if String.eqb severity "severe" || String.eqb severity "fatal"
    then score + 5 else score in
  let score :=
    if String.eqb severity "moderate" then score + 2 else score in
  score.

Definition calculateSeverityScore (accidents : list Accident) : Z :=
  fold_left scoreStep accidents 0.

(** ** Numbers, sorting and percentiles *)

(** What an arithmetic expression over array reads can evaluate to:
    a number, [undefined] (a read past the ends of an array) or [NaN]
    (arithmetic on [undefined]). *)
Inductive jsnum : Type :=
| Num (q : Q)
| Undefined
| NaN.

Definition jsMul (a b : jsnum) : jsnum :=
  match a, b with
  | Num x, Num y => Num (x * y)%Q
  | _, _ => NaN
  end.

Definition jsAdd (a b : jsnum) : jsnum :=
  match a, b with
  | Num x, Num y => Num (x + y)%Q
  | _, _ => NaN
  end.

(** [score >= v]: every comparison with [undefined] or [NaN] is false. *)
Definition jsGe (score : Q) (v : jsnum) : bool :=
  match v with
  | Num q => Qle_bool q score
  | _ => false
  end.

(** Numbers are compared up to the value they denote. *)
Definition jsEq (a b : jsnum) : Prop :=
  match a, b with
  | Num x, Num y => (x == y)%Q
  | Undefined, Undefined => True
  | NaN, NaN => True
  | _, _ => False
  end.

(** [arr[i]] *)
Definition at_ (arr : list Q) (i : Z) : jsnum :=
  if i <? 0 then Undefined
  else match nth_error arr (Z.to_nat i) with
       | Some q => Num q
       | None => Undefined
       end.

Section Sorting.
Context {A : Type}.
(** [before a b] holds when the comparator does not put [b] before [a],
    that is [cmp(a, b) <= 0]. *)
Variable before : A -> A -> bool.

Fixpoint insertBy (x : A) (l : list A) : list A :=
  match l with
  | [] => [x]
  | y :: l' => if before x y then x :: l else y :: insertBy x l'
  end.

(** [Array.prototype.sort(cmp)]: the sort is stable, so for a consistent
    comparator its result is the one an insertion sort computes. *)
Definition sortBy (l : list A) : list A := fold_right insertBy [] l.
End Sorting.

(** The arithmetic is carried out exactly, which is what the code's
    doubles do wherever no operation rounds, as at the percentiles 25 and
    75 of integer scores, the calls the classifier makes;
    [Double.calculatePercentile] is the function with every operation
    rounded. *)
Definition calculatePercentile (scores : list Q) (percentile : Q) : jsnum :=
  if (List.length scores =? 0)%nat then Num 0
  else
    let sorted := sortBy Qle_bool scores in
    let index := ((percentile / 100) * (inject_Z (Z.of_nat (List.length sorted)) - 1))%Q in
    let lower := Qfloor index in
    let upper := Qceiling index in
    let weight := (index - inject_Z lower)%Q in
    if lower =? upper then at_ sorted lower
    else jsAdd (jsMul (at_ sorted lower) (Num (1 - weight)%Q))
               (jsMul (at_ sorted upper) (Num weight)).

(** ** Classifier *)

Definition calculateSafetyLevelFromAccidents
    (accidents : list Accident) (allScores : option (list Q)) : SafetyLevel :=
  if (List.length accidents =? 0)%nat then safe
  else
    let score := calculateSeverityScore accidents in
    match allScores with
    | None | Some [] =>
        if 50 <=? score then high_risk
        else if 20 <=? score then moderate
        else safe
    | Some allScores =>
        let percentile75 := calculatePercentile allScores 75%Q in
        let percentile25 := calculatePercentile allScores 25%Q in
        if jsGe (inject_Z score) percentile75 then high_risk
        else if jsGe (inject_Z score) percentile25 then moderate
        else safe
    end.

(** ** Objects used as dictionaries *)

(** How a call that may throw completes. *)
Inductive completion (A : Type) : Type :=
| Normal (a : A)
| TypeError.
Arguments Normal {A} a.
Arguments TypeError {A}.

(** [Map.prototype.set]: a [Map] keeps its keys in insertion order and
    overwrites in place. *)
Fixpoint assocSet {V : Type} (k : string) (v : V) (m : list (string * V))
  : list (string * V) :=
  match m with
  | [] => [(k, v)]
  | (k', v') :: m' =>
      if String.eqb k k' then (k, v) :: m' else (k', v') :: assocSet k v m'
  end.

Module JsObject.

(** The members every object literal inherits from [Object.prototype].
    All of them are truthy: eleven functions and the [__proto__]
    accessor, which reads as [Object.prototype] itself. *)
Definition prototypeNames : list string :=
  [ "constructor"; "__defineGetter__"; "__defineSetter__";
    "hasOwnProperty"; "__lookupGetter__"; "__lookupSetter__";
    "isPrototypeOf"; "propertyIsEnumerable"; "toString"; "valueOf";
    "__proto__"; "toLocaleString" ].

Definition inherited (k : string) : bool :=
  existsb (String.eqb k) prototypeNames.

(** The own properties of an object created by [{}], in creation order. *)
Definition obj (V : Type) : Type := list (string * V).

Inductive lookup (V : Type) : Type :=
| Own (v : V)
| Inherited
| Absent.
Arguments Own {V} v.
Arguments Inherited {V}.
Arguments Absent {V}.

Fixpoint getOwn {V : Type} (k : string) (o : obj V) : option V :=
  match o with
  | [] => None
  | (k', v) :: o' => if String.eqb k k' then Some v else getOwn k o'
  end.

(** [o[k]] *)
Definition get {V : Type} (k : string) (o : obj V) : lookup V :=
  match getOwn k o with
  | Some v => Own v
  | None => if inherited k then Inherited else Absent
  end.

(** [o[k] = v], for a key other than [__proto__]. *)
Definition set {V : Type} (k : string) (v : V) (o : obj V) : obj V :=
  assocSet k v o.

Definition isDigit (c : ascii) : bool :=
  let n := nat_of_ascii c in (48 <=? n)%nat && (n <=? 57)%nat.

Fixpoint allDigits (s : string) : bool :=
  match s with
  | EmptyString => true
  | String c s' => isDigit c && allDigits s'
  end.

Fixpoint decimalValue (s : string) (acc : Z) : Z :=
  match s with
  | EmptyString => acc
  | String c s' => decimalValue s' (10 * acc + Z.of_nat (nat_of_ascii c - 48))
  end.

(** An array index: the canonical decimal form of an integer in
    [0, 2^32 - 2]. *)
Definition isArrayIndex (k : string) : bool :=
  match k with
  | EmptyString => false
  | String c r =>
      allDigits k
      && (negb (Ascii.eqb c "0"%char) || String.eqb r "")
      && (decimalValue k 0 <=? 4294967294)
  end.

Definition indexBefore {V : Type} (a b : string * V) : bool :=
  decimalValue (fst a) 0 <=? decimalValue (fst b) 0.

(** [Object.entries(o)]: the array-index keys in ascending numeric
    order, then the other keys in creation order. *)
Definition entries {V : Type} (o : obj V) : list (string * V) :=
  sortBy indexBefore (filter (fun e => isArrayIndex (fst e)) o)
  ++ filter (fun e => negb (isArrayIndex (fst e))) o.

End JsObject.

(** ** Grouping by area *)

(** Callback of the [reduce] that builds [areaGroups], in
    [calculateAreaScores] and in the dashboard's [areaAnalytics] alike.
    When [acc[accident.area]] reads an inherited member, the member is
    truthy, no array is stored, and [.push] is not a function. *)
Definition groupStep (acc : completion (JsObject.obj (list Accident)))
    (accident : Accident) : completion (JsObject.obj (list Accident)) :=
  match acc with
  | TypeError => TypeError
  | Normal acc =>
      let acc :=
        match JsObject.get (area accident) acc with
        | JsObject.Absent => JsObject.set (area accident) [] acc
        | _ => acc
        end in
      match JsObject.get (area accident) acc with
      | JsObject.Own g => Normal (JsObject.set (area accident) (g ++ [accident])%list acc)
      | _ => TypeError
      end
  end.

Definition areaGroups (accidents : list Accident)
  : completion (JsObject.obj (list Accident)) :=
  fold_left groupStep accidents (Normal []).

(** [Object.entries(areaGroups)], the grouping both callers iterate. *)
Definition groupByArea (accidents : list Accident)
  : completion (list (string * list Accident)) :=
  match areaGroups accidents with
  | Normal g => Normal (JsObject.entries g)
  | TypeError => TypeError
  end.

Record AreaScores : Type := mkAreaScores {
  areaScores : list (string * Z);
  allScores : list Q
}.

Definition calculateAreaScores (accidents : list Accident) : completion AreaScores :=
  match groupByArea accidents with
  | TypeError => TypeError
  | Normal groups =>
      Normal
        (fold_left
           (fun st '(area, areaAccidents) =>
              let score := calculateSeverityScore areaAccidents in
              {| areaScores := assocSet area score (areaScores st);
                 allScores := (allScores st ++ [inject_Z score])%list |})
           groups {| areaScores := []; allScores := [] |})
  end.

(** [areaAnalytics] of [pages/dashboard.tsx]: a [Map] from area to the
    number of records and the safety level. *)
Definition areaAnalytics (accidents : list Accident)
  : completion (list (string * (Z * SafetyLevel))) :=
  match groupByArea accidents with
  | TypeError => TypeError
  | Normal groups =>
      Normal
        (fold_left
           (fun analytics '(area, areaAccidents) =>
              let safetyLevel := calculateSafetyLevelFromAccidents areaAccidents None in
              assocSet area (Z.of_nat (List.length areaAccidents), safetyLevel) analytics)
           groups [])
  end.

(** ** Cause analytics *)

(** Callback of the [reduce] of [getTopCauses].  [None]: the cause names a
    member of [Object.prototype]; the inherited member is then read as the
    previous count and the entry becomes a string, which a tally of
    integers does not represent. *)
Definition causeStep (acc : option (JsObject.obj Z)) (accident : Accident)
  : option (JsObject.obj Z) :=
  match acc with
  | None => None
  | Some acc =>
      let cause := orString (causePrimary accident) "Unknown" in
      match JsObject.get cause acc with
      | JsObject.Inherited => None
      | _ => Some (JsObject.set cause (orZero (JsObject.getOwn cause acc) + 1) acc)
      end
  end.

Definition causeCounts (accidents : list Accident) : option (JsObject.obj Z) :=
  fold_left causeStep accidents (Some []).

(** The comparator [(a, b) => b.count - a.count]. *)
Definition countBefore (a b : string * Z) : bool := snd b - snd a <=? 0.

Definition getTopCauses (accidents : list Accident) : option (list (string * Z)) :=
  match causeCounts accidents with
  | None => None
  | Some causeCounts =>
      Some (firstn 5 (sortBy countBefore (JsObject.entries causeCounts)))
  end.

Definition getDominantCause (accidents : list Accident) : option string :=
  match getTopCauses accidents with
  | None => None
  | Some causes =>
      Some (match causes with
            | c :: _ => fst c
            | [] => "Unknown"
            end)
  end.

(** ** Recommendation lookup *)

(** The advisory lists returned by the two lookups, named after the
    branch that returns them. *)
Definition civilianWeather : list string :=
  [ "Check tire tread and wiper blades before driving in rain";
    "Reduce speed by at least 30% and increase following distance";
    "Use fog lights in low visibility, not high beams";
    "Avoid sudden braking or sharp turns on wet roads" ].

Definition civilianSpeed : list string :=
  [ "Be aware that this is a high-speed accident zone; adhere strictly to the posted speed limit";
    "Allow extra time for your journey to avoid the temptation to speed";
    "Be cautious of other vehicles making sudden maneuvers";
    "Maintain safe following distance to allow for sudden stops" ].

Definition civilianAttention : list string :=
  [ "Avoid all mobile phone use when approaching this area";
    "Be prepared for sudden stops and lane changes";
    "Before proceeding on a green light, quickly check for cross-traffic that may have run the red light";
    "Stay alert and avoid distractions like eating or adjusting radio" ].

Definition civilianAlcohol : list string :=
  [ "Never drive under the influence of alcohol or drugs";
    "Watch for erratic driving behavior from other vehicles";
    "Consider alternative transportation if you plan to consume alcohol";
    "Report suspected drunk drivers to authorities" ].

Definition civilianPedestrian : list string :=
  [ "Be extra vigilant for pedestrians, especially near crosswalks";
    "Slow down in areas with high foot traffic";
    "Never assume pedestrians will wait for you to pass";
    "Be especially careful during evening hours when visibility is reduced" ].

Definition civilianOvertaking : list string :=
  [ "Be cautious when overtaking; ensure clear visibility and safe distance";
    "Watch for aggressive drivers attempting risky overtaking maneuvers";
    "Use defensive driving techniques and maintain your lane";
    "Never engage with aggressive or reckless drivers" ].

Definition civilianDefault : list string :=
  [ "Drive defensively and stay alert at all times";
    "Maintain safe following distance from other vehicles";
    "Obey all traffic signals and road signs";
    "Be prepared for unexpected situations" ].

Definition governmentWeather : list string :=
  [ "Improve road infrastructure by clearing drainage systems to prevent waterlogging";
    "Repair potholes that become hazardous in rain";
    "Install high-visibility, reflective road markings and signage that perform well in fog and rain";
    "Consider installing weather-responsive traffic management systems" ].

Definition governmentSpeed : list string :=
  [ "Install automated speed-enforcement cameras on this stretch";
    "Implement traffic calming measures like speed bumps near intersections or pedestrian zones";
    "Increase the frequency of traffic police patrols with speed guns";
    "Improve signage warning drivers of speed limits and accident history" ].

Definition governmentAttention : list string :=
  [ "Improve traffic signal visibility and timing at this intersection";
    "Install rumble strips on the approach to the intersection to alert drivers";
    "Consider creating a 'no-right-on-red' policy here if not already in place";
    "Deploy red light cameras to enforce traffic signal compliance" ].

Definition governmentAlcohol : list string :=
  [ "Increase sobriety checkpoints and breathalyzer testing in this area";
    "Launch targeted awareness campaigns about drunk driving consequences";
    "Improve public transportation options during peak nightlife hours";
    "Implement stricter penalties for DUI offenses in high-risk zones" ].

Definition governmentPedestrian : list string :=
  [ "Install or improve pedestrian crosswalks with clear markings";
    "Add pedestrian crossing signals with countdown timers";
    "Implement speed reduction zones near high pedestrian traffic areas";
    "Consider installing pedestrian barriers to prevent jaywalking" ].

Definition governmentOvertaking : list string :=
  [ "Install clear lane markings and no-overtaking zone signage";
    "Increase traffic police presence to deter reckless driving";
    "Consider median barriers to prevent dangerous overtaking";
    "Implement stricter penalties for reckless driving in this zone" ].

Definition governmentDefault : list string :=
  [ "Conduct comprehensive traffic safety audit of this area";
    "Improve road lighting and visibility";
    "Increase traffic police presence during peak hours";
    "Install warning signs about accident-prone zone" ].

Definition getCivilianSuggestions (dominantCause : string) : list string :=
  let cause := toLowerCase dominantCause in
  if includes cause "weather" || includes cause "rain" || includes cause "fog" then
    civilianWeather
  else if includes cause "speed" || includes cause "overspeeding" then
    civilianSpeed
  else if includes cause "inattention" || includes cause "distract"
          || includes cause "red light" || includes cause "signal" then
    civilianAttention
  else if includes cause "alcohol" || includes cause "drunk" then
    civilianAlcohol
  else if includes cause "pedestrian" || includes cause "jaywalking" then
    civilianPedestrian
  else if includes cause "overtaking" || includes cause "reckless" then
    civilianOvertaking
  else
    civilianDefault.

Definition getGovernmentSuggestions (dominantCause : string) : list string :=
  let cause := toLowerCase dominantCause in
  if includes cause "weather" || includes cause "rain" || includes cause "fog" then
    governmentWeather
  else if includes cause "speed" || includes cause "overspeeding" then
    governmentSpeed
  else if includes cause "inattention" || includes cause "distract"
          || includes cause "red light" || includes cause "signal" then
    governmentAttention
  else if includes cause "alcohol" || includes cause "drunk" then
    governmentAlcohol
  else if includes cause "pedestrian" || includes cause "jaywalking" then
    governmentPedestrian
  else if includes cause "overtaking" || includes cause "reckless" then
    governmentOvertaking
  else
    governmentDefault.

(** ** Temporal analytics *)

(** [hour !== 12] and [hour === 12] on a value that may be [NaN]. *)
Definition isTwelve (hour : option Z) : bool :=
  match hour with
  | Some h => h =? 12
  | None => false
  end.

(** The hour computation written inline, identically, in the callbacks of
    [getHourlyDistribution] and of [predictSafetyForHour]; [None] is
    [NaN]. *)
Definition extractHour (time : string) : option Z :=
  if includes time ":" then
    let parts := split ":"%char time in
    let hour := match parts with
                | p :: _ => parseInt p
                | [] => None
                end in
    if includes (toLowerCase time) "pm" && negb (isTwelve hour)
    then option_map (fun h => h + 12) hour
    else if includes (toLowerCase time) "am" && isTwelve hour
    then Some 0
    else hour
  else Some 0.

(** [hourCounts[hour]++] *)
Fixpoint incrementAt (i : nat) (hourCounts : list Z) : list Z :=
  match hourCounts, i with
  | [], _ => []
  | c :: cs, O => (c + 1) :: cs
  | c :: cs, S i' => c :: incrementAt i' cs
  end.

Definition hourStep (hourCounts : list Z) (accident : Accident) : list Z :=
  match extractHour (time accident) with
  | Some hour =>
      if (0 <=? hour) && (hour <? 24)
      then incrementAt (Z.to_nat hour) hourCounts
      else hourCounts
  | None => hourCounts
  end.

Definition getHourlyDistribution (accidents : list Accident) : list (Z * Z) :=
  let hourCounts := fold_left hourStep accidents (repeat 0 24) in
  combine (map Z.of_nat (seq 0 (List.length hourCounts))) hourCounts.

Definition predictSafetyForHour (hour : Z) (historicalData : list Accident)
    (allScores : option (list Q)) : SafetyLevel :=
  let hourAccidents :=
    filter (fun acc =>
              match extractHour (time acc) with
              | Some accHour => accHour =? hour
              | None => false
              end) historicalData in
  calculateSafetyLevelFromAccidents hourAccidents allScores.

(** * Specification-side notions *)

(** ** Severity score (section 4.3) *)

(** The sum of the fatalities of a group, an absent count being 0. *)
Fixpoint totalFatalities (group : list Accident) : Z :=
  match group with
  | [] => 0
  | r :: group' =>
      match fatalities r with
      | Some f => f + totalFatalities group'
      | None => totalFatalities group'
      end
  end.

(** The severity label of [r] is present and lowercases to [label]. *)
Definition severityIs (label : string) (r : Accident) : bool :=
  match severity r with
  | Some s => String.eqb (toLowerCase s) label
  | None => false
  end.

Definition severeOrFatal (r : Accident) : bool :=
  severityIs "severe" r || severityIs "fatal" r.

(** Number of records of [group] satisfying [p]. *)
Definition countIf (p : Accident -> bool) (group : list Accident) : Z :=
  Z.of_nat (List.length (filter p group)).

(** ** Percentile (section 4.4, Policy A, step 2) *)

(** The element at position [i] of a sequence; 0 where there is none. *)
Definition element (sorted : list Q) (i : Z) : Q :=
  nth (Z.to_nat i) sorted 0%Q.

Definition percentileIndex (n : nat) (p : Q) : Q :=
  (p / 100 * (inject_Z (Z.of_nat n) - 1))%Q.

(** Linear interpolation between order statistics: with
    [index = p/100 * (n - 1)], the element at [index] when it is
    integral, otherwise the point between the elements at [floor index]
    and [ceil index] at the fractional part of [index]. *)
Definition percentileSpec (sorted : list Q) (p : Q) : Q :=
  let index := percentileIndex (List.length sorted) p in
  let frac := (index - inject_Z (Qfloor index))%Q in
  if Qeq_bool frac 0 then element sorted (Qfloor index)
  else (element sorted (Qfloor index)
        + frac * (element sorted (Qceiling index) - element sorted (Qfloor index)))%Q.

(** ** Grouping (section 4.2) *)

Definition addKey (seen : list string) (k : string) : list string :=
  if existsb (String.eqb k) seen then seen else (seen ++ [k])%list.

(** The distinct keys of a sequence, in first-seen order. *)
Definition firstSeen (keys : list string) : list string :=
  fold_left addKey keys [].

(** The records of [records] whose area is [k], in input order. *)
Definition groupOf (records : list Accident) (k : string) : list Accident :=
  filter (fun r => String.eqb (area r) k) records.

(** The mapping from each area to its records, areas in first-seen
    order. *)
Definition groupBySpec (records : list Accident) : list (string * list Accident) :=
  map (fun k => (k, groupOf records k)) (firstSeen (map area records)).

(** No area is the name of a member of [Object.prototype]. *)
Definition ordinaryAreas (records : list Accident) : Prop :=
  forall r, In r records -> JsObject.inherited (area r) = false.

Definition isIndexKey {V : Type} (e : string * V) : bool :=
  JsObject.isArrayIndex (fst e).

(** Two records whose area names are array indices, the larger first. *)
Definition numberedAreas : list Accident :=
  [ mkAccident "2" "08:00" None None None;
    mkAccident "1" "09:00" None None None ].

(** ** Cause ranking (section 4.5) *)

(** The primary cause of a record, Unknown standing in for an empty or
    absent one. *)
Definition causeOf (r : Accident) : string :=
  match causePrimary r with
  | None => "Unknown"
  | Some c => if String.eqb c "" then "Unknown" else c
  end.

(** Number of occurrences of [c] among [causes], compared as written. *)
Definition occurrences (c : string) (causes : list string) : Z :=
  Z.of_nat (count_occ string_dec causes c).

(** The tally: every distinct cause with its number of occurrences,
    causes in first-encountered order. *)
Definition tally (causes : list string) : list (string * Z) :=
  map (fun c => (c, occurrences c causes)) (firstSeen causes).

(** No cause is the name of a member of [Object.prototype]. *)
Definition ordinaryCauses (records : list Accident) : Prop :=
  forall r, In r records -> JsObject.inherited (causeOf r) = false.

Definition hasCount (n : Z) (e : string * Z) : bool := snd e =? n.

(** Two records whose causes are array indices, the larger first. *)
Definition numberedCauses : list Accident :=
  [ mkAccident "Saket" "08:00" None None (Some "2");
    mkAccident "Saket" "09:00" None None (Some "1") ].

Definition withCause (c : string) : Accident :=
  mkAccident "Saket" "08:00" None None (Some c).

(** ** Temporal parser and histogram (sections 4.1 and 4.5) *)

(** The part of a string before its first colon (all of it when there is
    none). *)
Fixpoint beforeColon (s : string) : string :=
  match s with
  | EmptyString => EmptyString
  | String c s' =>
      if Ascii.eqb c ":"%char then EmptyString else String c (beforeColon s')
  end.

(** [sub] occurs in [s]. *)
Definition contains (s sub : string) : Prop :=
  exists pre post, s = pre ++ sub ++ post.

(** Some substring of [s] lowercases to [word]. *)
Definition containsNoCase (s word : string) : Prop :=
  exists pre mid post, s = pre ++ mid ++ post /\ toLowerCase mid = word.

(** The extracted hour of [r] is [h]. *)
Definition hourIs (h : Z) (r : Accident) : bool :=
  match extractHour (time r) with
  | Some x => x =? h
  | None => false
  end.

(** The extracted hour of [r] is no bucket of the histogram. *)
Definition hourOutOfRange (r : Accident) : Prop :=
  forall h, extractHour (time r) = Some h -> h < 0 \/ 24 <= h.

Definition atTime (t : string) : Accident :=
  mkAccident "Saket" t None None None.

(** ** Recommendation lookup (section 4.6) *)

(** A keyword category with its two advisory lists. *)
Record Category : Type := mkCategory {
  keywords : list string;
  forAuthorities : list string;
  forCivilians : list string
}.

(** The categories, in priority order. *)
Definition categories : list Category :=
  [ mkCategory ["weather"; "rain"; "fog"] governmentWeather civilianWeather;
    mkCategory ["speed"; "overspeeding"] governmentSpeed civilianSpeed;
    mkCategory ["inattention"; "distract"; "red light"; "signal"]
      governmentAttention civilianAttention;
    mkCategory ["alcohol"; "drunk"] governmentAlcohol civilianAlcohol;
    mkCategory ["pedestrian"; "jaywalking"] governmentPedestrian civilianPedestrian;
    mkCategory ["overtaking"; "reckless"] governmentOvertaking civilianOvertaking ].

(** A category matches when one of its keywords occurs in the cause. *)
Definition matches (cause : string) (c : Category) : bool :=
  existsb (includes cause) (keywords c).

(** First match wins; the default pair when none matches. *)
Fixpoint firstMatch (cause : string) (cs : list Category)
  : list string * list string :=
  match cs with
  | [] => (governmentDefault, civilianDefault)
  | c :: cs' =>
      if matches cause c then (forAuthorities c, forCivilians c)
      else firstMatch cause cs'
  end.

Definition recommend (dominantCause : string) : list string * list string :=
  firstMatch (toLowerCase dominantCause) categories.

(** ** Dashboard classification (section 4.4) *)

(** Policy A for a dataset: every area classified against the scores of
    all areas. *)
Definition policyA (dataset : list Accident) : completion (list (string * SafetyLevel)) :=
  match groupByArea dataset, calculateAreaScores dataset with
  | Normal groups, Normal scores =>
      Normal (map (fun e => (fst e,
                             calculateSafetyLevelFromAccidents (snd e)
                               (Some (allScores scores))))
                  groups)
  | _, _ => TypeError
  end.

(** The safety levels the dashboard's [areaAnalytics] holds. *)
Definition dashboardLevels (dataset : list Accident) : completion (list (string * SafetyLevel)) :=
  match areaAnalytics dataset with
  | Normal analytics => Normal (map (fun e => (fst e, snd (snd e))) analytics)
  | TypeError => TypeError
  end.

(** Three areas with one record each, scoring 0, 2 and 5. *)
Definition threeAreas : list Accident :=
  [ mkAccident "Saket" "08:00" (Some 0) (Some "Minor") (Some "Overspeeding");
    mkAccident "Rohini" "09:30" (Some 0) (Some "Moderate") (Some "Fog");
    mkAccident "Dwarka" "21:15" (Some 0) (Some "Severe") (Some "Drunk driving") ].

(** * Further code of the repository *)

(** ** Presentation helpers of the analytics module *)

(** The [default] branches of the four [switch] statements are not
    reachable from a [SafetyLevel]. *)
Definition getSafetyColor (level : SafetyLevel) : string :=
  match level with
  | safe => "hsl(var(--map-safe))"
  | moderate => "hsl(var(--map-moderate))"
  | high_risk => "hsl(var(--map-high-risk))"
  end.

Definition getSafetyColorClass (level : SafetyLevel) : string :=
  match level with
  | safe => "bg-map-safe text-white"
  | moderate => "bg-map-moderate text-white"
  | high_risk => "bg-map-high-risk text-white"
  end.

Definition getSafetyScore (level : SafetyLevel) : Z :=
  match level with
  | safe => 85
  | moderate => 55
  | high_risk => 25
  end.

Definition formatSafetyLevel (level : SafetyLevel) : string :=
  match level with
  | safe => "Safe"
  | moderate => "Moderate Risk"
  | high_risk => "High Risk"
  end.

(** The position of a level in the order safe, moderate, high-risk. *)
Definition levelRank (level : SafetyLevel) : Z :=
  match level with
  | safe => 0
  | moderate => 1
  | high_risk => 2
  end.

(** ** The first version of the module ([client/src/lib/safety-utils.ts]) *)

Module Legacy.

(** [s?.toLowerCase() === label] *)
Definition lowerIs (label : string) (s : option string) : bool :=
  match s with
  | Some s => String.eqb (toLowerCase s) label
  | None => false
  end.

Definition calculateSafetyLevel (accidentCount : Z) (severity : list (option string))
  : SafetyLevel :=
  let fatalCount := Z.of_nat (List.length (filter (lowerIs "fatal") severity)) in
  let severeCount := Z.of_nat (List.length (filter (lowerIs "severe") severity)) in
  if (2 <? fatalCount) || (5 <? severeCount) || (50 <? accidentCount) then high_risk
  else if (0 <? fatalCount) || (2 <? severeCount) || (20 <? accidentCount) then moderate
  else safe.

Definition predictSafetyForHour (hour : Z) (historicalData : list Accident)
  : SafetyLevel :=
  let hourAccidents :=
    filter (fun acc =>
              match extractHour (time acc) with
              | Some accHour => accHour =? hour
              | None => false
              end) historicalData in
  let severity := map (fun acc => Some (orString (severity acc) "")) hourAccidents in
  calculateSafetyLevel (Z.of_nat (List.length hourAccidents)) severity.

End Legacy.

(** ** The fatality and injury weighted version of the module *)

Module Weighted.

(** The columns this version of the scorer reads. *)
Record Accident : Type := mkAccident {
  fatalities : option Z;
  injuries : option Z
}.

Definition scoreStep (score : Z) (accident : Accident) : Z :=
  let fatalities := orZero (fatalities accident) in
  let injuries := orZero (injuries accident) in
  let score := score + fatalities * 100 in
  let score := score + injuries * 20 in
  if (fatalities =? 0) && (injuries =? 0) then score + 1 else score.

Definition calculateSeverityScore (accidents : list Accident) : Z :=
  fold_left scoreStep accidents 0.

Definition calculateSafetyLevelFromAccidents (accidents : list Accident)
  : SafetyLevel :=
  let severityScore := calculateSeverityScore accidents in
  if 150 <=? severityScore then high_risk
  else if 50 <=? severityScore then moderate
  else safe.

End Weighted.

(** ** The dashboard page and its components *)

(** [Map.prototype.get] *)
Fixpoint assocGet {V : Type} (k : string) (m : list (string * V)) : option V :=
  match m with
  | [] => None
  | (k', v) :: m' => if String.eqb k k' then Some v else assocGet k m'
  end.

(** [areaData?.safetyLevel || 'safe'] *)
Definition levelOr (areaData : option (Z * SafetyLevel)) : SafetyLevel :=
  match areaData with
  | Some d => snd d
  | None => safe
  end.

(** [areaData?.count || 0] *)
Definition countOr (areaData : option (Z * SafetyLevel)) : Z :=
  match areaData with
  | Some d => fst d
  | None => 0
  end.

(** [relatedAccidents] of [pages/dashboard.tsx]. *)
Definition relatedAccidents (accidents : list Accident)
    (selectedAccident : option Accident) : list Accident :=
  match selectedAccident with
  | None => []
  | Some selected => filter (fun a => String.eqb (area a) (area selected)) accidents
  end.

(** [selectedSafetyLevel] of [pages/dashboard.tsx], over the memoised
    [areaAnalytics]. *)
Definition selectedSafetyLevel (analytics : list (string * (Z * SafetyLevel)))
    (selectedAccident : option Accident) : SafetyLevel :=
  match selectedAccident with
  | None => safe
  | Some selected => levelOr (assocGet (area selected) analytics)
  end.

(** [accidentMarkers] of [components/safety-map.tsx]: the level and the
    colour of each accident's marker. *)
Definition accidentMarkers (accidents : list Accident)
    (analytics : list (string * (Z * SafetyLevel)))
  : list (Accident * SafetyLevel * string) :=
  map (fun accident =>
         let areaData := assocGet (area accident) analytics in
         let safetyLevel := levelOr areaData in
         (accident, safetyLevel, getSafetyColor safetyLevel))
      accidents.

(** [s.toLowerCase()] on every code unit below 256: the letters A-Z and
    the capital letters 192-214 and 216-222 of Latin-1 move up by 32, the
    other code units stay. *)
Definition lowerCodeUnit (c : ascii) : ascii :=
  let n := nat_of_ascii c in
  if ((65 <=? n)%nat && (n <=? 90)%nat)
     || ((192 <=? n)%nat && (n <=? 222)%nat && negb (n =? 215)%nat)
  then ascii_of_nat (n + 32) else c.

Fixpoint toLowerCaseFull (s : string) : string :=
  match s with
  | EmptyString => EmptyString
  | String c s' => String (lowerCodeUnit c) (toLowerCaseFull s')
  end.

Module AreaSearch.

Record AreaEntry : Type := mkAreaEntry {
  name : string;
  count : Z;
  safetyLevel : SafetyLevel
}.

(** The comparator [(a, b) => b.count - a.count]. *)
Definition countBefore (a b : AreaEntry) : bool := count b - count a <=? 0.

(** [areas]: a [Set] iterates its distinct members in insertion order. *)
Definition areas (accidents : list Accident)
    (analytics : list (string * (Z * SafetyLevel))) : list AreaEntry :=
  sortBy countBefore
    (map (fun a =>
            let areaData := assocGet a analytics in
            {| name := a; count := countOr areaData; safetyLevel := levelOr areaData |})
         (firstSeen (map area accidents))).

(** [filteredAreas]: [!searchQuery.trim()] holds when the query is white
    space only. *)
Definition filteredAreas (areas : list AreaEntry) (searchQuery : string)
  : list AreaEntry :=
  if String.eqb (trimStart searchQuery) "" then firstn 8 areas
  else firstn 8
         (filter (fun a => includes (toLowerCaseFull (name a))
                                    (toLowerCaseFull searchQuery))
                 areas).

(** [handleSelectArea]: the accidents handed to [onSelectArea], if any. *)
Definition handleSelectArea (accidents : list Accident) (areaName : string)
  : option (list Accident) :=
  let areaAccidents := filter (fun a => String.eqb (area a) areaName) accidents in
  if (0 <? List.length areaAccidents)%nat then Some areaAccidents else None.

End AreaSearch.

Module LocationDetailPanel.

(** The comparator [(a, b) => b.count - a.count] on histogram entries. *)
Definition countBefore (a b : Z * Z) : bool := snd b - snd a <=? 0.

(** [hourlyData] as the chart receives it: [sort] works in place, so the
    array [getHourlyDistribution] returned is reordered when [peakHours]
    is computed. *)
Definition hourlyData (relatedAccidents : list Accident) : list (Z * Z) :=
  sortBy countBefore (getHourlyDistribution relatedAccidents).

Definition peakHours (relatedAccidents : list Accident) : list (Z * Z) :=
  filter (fun h => 0 <? snd h) (firstn 3 (hourlyData relatedAccidents)).

End LocationDetailPanel.

(** ** Storage and import *)

Section BulkCreate.
Context {Row Stored : Type}.
(** [db.insert(accidents).values(batch).returning()], the database call. *)
Variable insertReturning : list Row -> list Stored.

(** [accidentsList.slice(i, i + batchSize)] *)
Definition slice (i j : nat) (l : list Row) : list Row :=
  firstn (j - i) (skipn i l).

(** The [for] loop of [bulkCreateAccidents], [fuel] bounding the number of
    rounds. *)
Fixpoint bulkLoop (fuel : nat) (accidentsList : list Row) (i : nat)
    (results : list Stored) : option (list Stored) :=
  match fuel with
  | O => None
  | S fuel' =>
      if (i <? List.length accidentsList)%nat
      then
        let batch := slice i (i + 100) accidentsList in
        let batchResults := insertReturning batch in
        bulkLoop fuel' accidentsList (i + 100) (results ++ batchResults)
      else Some results
  end.

Definition bulkCreateAccidents (fuel : nat) (accidentsList : list Row)
  : option (list Stored) :=
  if (List.length accidentsList =? 0)%nat then Some []
  else bulkLoop fuel accidentsList 0 [].
End BulkCreate.

Module ImportAccidents.

(** The local [parseInt] of [scripts/import-accidents.ts]: [null] for a
    missing or empty field and for a field that does not parse. *)
Definition parseInt (val : option string) : option Z :=
  match val with
  | None => None
  | Some val => if String.eqb val "" then None else JsString.parseInt val
  end.

(** [record.area || 'Unknown'] *)
Definition importArea (val : option string) : string := orString val "Unknown".

End ImportAccidents.

(** ** Notions used by the further properties *)

(** No record has a negative fatality count. *)
Definition nonNegativeFatalities (l : list Accident) : Prop :=
  forall r f, In r l -> fatalities r = Some f -> 0 <= f.

(** The extracted hour of [r] is one of the 24 buckets. *)
Definition validHour (r : Accident) : bool :=
  match extractHour (time r) with
  | Some h => (0 <=? h) && (h <? 24)
  | None => false
  end.

Definition sumZ (l : list Z) : Z := fold_right Z.add 0 l.

(** The total of a nullable column of the weighted version's records. *)
Definition weightedTotal (column : Weighted.Accident -> option Z)
    (l : list Weighted.Accident) : Z :=
  sumZ (map (fun r => orZero (column r)) l).

(** No fatality or injury count of the weighted version's records is
    negative. *)
Definition nonNegativeCounts (l : list Weighted.Accident) : Prop :=
  forall r, In r l ->
            0 <= orZero (Weighted.fatalities r) /\ 0 <= orZero (Weighted.injuries r).

(** Consecutive pieces of at most 100 elements. *)
Fixpoint chunks {A : Type} (fuel : nat) (l : list A) : list (list A) :=
  match fuel with
  | O => []
  | S fuel' =>
      match l with
      | [] => []
      | _ :: _ => firstn 100 l :: chunks fuel' (skipn 100 l)
      end
  end.

(** ** The percentile function in double precision *)

(** [calculatePercentile] with the numbers of JavaScript, IEEE binary64
    values, and their operations.  The classifier above reads the
    percentiles 25 and 75 of integer scores, for which the division, the
    index, the weights and the interpolation are exact. *)
Module Double.

(** A number, or [undefined] for a read past the ends of an array. *)
Inductive value : Type :=
| Number (x : float)
| Undefined.

(** The double of an integer between 0 and 2^53. *)
Definition ofZ (z : Z) : float := PrimFloat.of_uint63 (Uint63.of_Z z).

(** The integer part of the magnitude of the finite double [m * 2^e]. *)
Definition integerPart (m : positive) (e : Z) : Z := Z.shiftr (Z.pos m) (- e).

(** Whether a double is a whole number: a zero, or a finite double
    [m * 2^e] with no bit of [m] below the unit. *)
Definition whole (x : float) : bool :=
  match Prim2SF x with
  | S754_zero _ => true
  | S754_finite _ m e =>
      (0 <=? e) || (Z.shiftl (integerPart m e) (- e) =? Z.pos m)
  | _ => false
  end.

(** [Math.floor]: whole numbers, infinities and [NaN] are returned as
    they are. *)
Definition floor (x : float) : float :=
  match Prim2SF x with
  | S754_finite s m e =>
      if whole x then x
      else if s then PrimFloat.opp (ofZ (integerPart m e + 1))
           else ofZ (integerPart m e)
  | _ => x
  end.

(** [Math.ceil] *)
Definition ceil (x : float) : float :=
  match Prim2SF x with
  | S754_finite s m e =>
      if whole x then x
      else if s then PrimFloat.opp (ofZ (integerPart m e))
           else ofZ (integerPart m e + 1)
  | _ => x
  end.

(** The array position a number names as a property key: a whole number
    that is not negative, [-0] naming position 0. *)
Definition toIndex (x : float) : option Z :=
  match Prim2SF x with
  | S754_zero _ => Some 0
  | S754_finite false m e => if whole x then Some (integerPart m e) else None
  | _ => None
  end.

(** [arr[i]] *)
Definition get (arr : list float) (i : float) : value :=
  match toIndex i with
  | Some i =>
      if i <? Z.of_nat (List.length arr)
      then match nth_error arr (Z.to_nat i) with
           | Some x => Number x
           | None => Undefined
           end
      else Undefined
  | None => Undefined
  end.

(** [a * w], where [a] was read from an array: [undefined * w] is [NaN]. *)
Definition times (a : value) (w : float) : float :=
  match a with
  | Number x => (x * w)%float
  | Undefined => PrimFloat.nan
  end.

(** The comparator [(a, b) => a - b] does not put [b] before [a]: its
    result is at most 0, or [NaN], which [sort] reads as 0. *)
Definition before (a b : float) : bool :=
  let v := (a - b)%float in
  PrimFloat.leb v 0%float || PrimFloat.is_nan v.

(** The comparator is consistent on [scores], which is what [sort] asks
    for: any two of them are comparable, and the comparison is
    transitive. *)
Definition consistentComparator (scores : list float) : bool :=
  forallb (fun a =>
    forallb (fun b =>
      (before a b || before b a)
      && forallb (fun c => implb (before a b && before b c) (before a c)) scores)
      scores)
    scores.

(** [(percentile / 100) * (n - 1)] *)
Definition percentileIndex (n : nat) (percentile : float) : float :=
  (percentile / 100 * (ofZ (Z.of_nat n) - 1))%float.

Definition calculatePercentile (scores : list float) (percentile : float) : value :=
  if (List.length scores =? 0)%nat then Number 0%float
  else
    let sorted := sortBy before scores in
    let index := percentileIndex (List.length sorted) percentile in
    let lower := floor index in
    let upper := ceil index in
    let weight := (index - lower)%float in
    if PrimFloat.eqb lower upper then get sorted lower
    else Number (times (get sorted lower) (1 - weight)
                 + times (get sorted upper) weight)%float.

End Double.

(** Twenty-six scores: eight of 0, then eighteen of 10^15. *)
Definition manyScores : list float :=
  (repeat 0%float 8 ++ repeat 1e15%float 18)%list.

(** The element of an array at a position that is not negative,
    [undefined] past the end. *)
Definition elementAt (arr : list float) (k : Z) : Double.value :=
  match nth_error arr (Z.to_nat k) with
  | Some x => Double.Number x
  | None => Double.Undefined
  end.

(** The place of a number in the order of the doubles: the double
    [m * 2^e] has the rank [m * 2^(e + 1074)], an integer, the zeros have
    the rank 0 and the infinities lie beyond every finite double. *)
Definition rank (x : spec_float) : Z :=
  match x with
  | S754_zero _ => 0
  | S754_infinity s => if s then - 2 ^ 2200 else 2 ^ 2200
  | S754_nan => 0
  | S754_finite s m e =>
      if s then - (Z.pos m * 2 ^ (e + 1074)) else Z.pos m * 2 ^ (e + 1074)
  end.

(** What the comparator reads from a difference: at most 0, or [NaN]. *)
Definition notAbove (r : spec_float) : bool :=
  SFleb r (S754_zero false) || negb (SFeqb r r).

(** ** The categories as the claim lists them *)

(** The third category with the keywords inattention, distraction and
    signal. *)
Definition claimedCategories : list Category :=
  [ mkCategory ["weather"; "rain"; "fog"] governmentWeather civilianWeather;
    mkCategory ["speed"; "overspeeding"] governmentSpeed civilianSpeed;
    mkCategory ["inattention"; "distraction"; "signal"]
      governmentAttention civilianAttention;
    mkCategory ["alcohol"; "drunk"] governmentAlcohol civilianAlcohol;
    mkCategory ["pedestrian"; "jaywalking"] governmentPedestrian civilianPedestrian;
    mkCategory ["overtaking"; "reckless"] governmentOvertaking civilianOvertaking ].

(** * Properties *)

(** ** Severity scorer *)

Lemma severityIs_orString (label : string) (r : Accident) :
  label <> "" ->
  String.eqb (toLowerCase (orString (severity r) "")) label = severityIs label r.
Proof.
  intros Hl. unfold severityIs.
  destruct (severity r) as [[|c s]|]; simpl; try reflexivity;
    destruct label; congruence.
Qed.

Lemma scoreStep_eq (score : Z) (r : Accident) :
  scoreStep score r =
  score + 10 * orZero (fatalities r)
  + (if severeOrFatal r then 5 else 0)
  + (if severityIs "moderate" r then 2 else 0).
Proof.
  unfold scoreStep, severeOrFatal.
  rewrite !severityIs_orString by discriminate.
  destruct (severityIs "severe" r), (severityIs "fatal" r),
    (severityIs "moderate" r); cbv zeta; cbn [orb]; lia.
Qed.

Lemma countIf_cons (p : Accident -> bool) (r : Accident) (l : list Accident) :
  countIf p (r :: l) = (if p r then 1 else 0) + countIf p l.
Proof.
  unfold countIf. cbn [filter]. destruct (p r); cbn [List.length]; lia.
Qed.

Lemma countIf_app (p : Accident -> bool) (l1 l2 : list Accident) :
  countIf p (l1 ++ l2) = countIf p l1 + countIf p l2.
Proof.
  unfold countIf. rewrite filter_app, length_app. lia.
Qed.

Lemma totalFatalities_cons (r : Accident) (l : list Accident) :
  totalFatalities (r :: l) = orZero (fatalities r) + totalFatalities l.
Proof. cbn [totalFatalities]. destruct (fatalities r); cbn [orZero]; lia. Qed.

Lemma totalFatalities_app (l1 l2 : list Accident) :
  totalFatalities (l1 ++ l2) = totalFatalities l1 + totalFatalities l2.
Proof.
  induction l1 as [|r l1 IH]; [reflexivity|].
  rewrite <- app_comm_cons, !totalFatalities_cons, IH. lia.
Qed.

Lemma fold_scoreStep (l : list Accident) (score : Z) :
  fold_left scoreStep l score =
  score + 10 * totalFatalities l + 5 * countIf severeOrFatal l
  + 2 * countIf (severityIs "moderate") l.
Proof.
  revert score. induction l as [|r l IH]; intros score.
  - unfold countIf. cbn. lia.
  - cbn [fold_left]. rewrite IH, scoreStep_eq, totalFatalities_cons, !countIf_cons.
    destruct (severeOrFatal r), (severityIs "moderate" r); lia.
Qed.

Lemma calculateSeverityScore_formula (group : list Accident) :
  calculateSeverityScore group =
  10 * totalFatalities group + 5 * countIf severeOrFatal group
  + 2 * countIf (severityIs "moderate") group.
Proof. unfold calculateSeverityScore. rewrite fold_scoreStep. lia. Qed.

Lemma calculateSeverityScore_insert (l1 l2 : list Accident) (r : Accident) :
  calculateSeverityScore (l1 ++ r :: l2) =
  calculateSeverityScore (l1 ++ l2) + 10 * orZero (fatalities r)
  + (if severeOrFatal r then 5 else 0)
  + (if severityIs "moderate" r then 2 else 0).
Proof.
  rewrite !calculateSeverityScore_formula, !totalFatalities_app, !countIf_app,
    totalFatalities_cons, !countIf_cons.
  destruct (severeOrFatal r), (severityIs "moderate" r); lia.
Qed.

(** C1. For every list of records the severity score is 10 times the sum of
    the fatalities (an absent count is 0), plus 5 for every record whose
    severity lowercases to severe or fatal, plus 2 for every record whose
    severity lowercases to moderate.  A record with positive fatalities
    and a fatal label adds both its fatality term and 5; a record whose
    label is absent or is none of the three adds its fatality term only;
    the empty list scores 0. *)
Theorem C1_severity_score_formula :
  (forall group,
      calculateSeverityScore group =
      10 * totalFatalities group + 5 * countIf severeOrFatal group
      + 2 * countIf (severityIs "moderate") group)
  /\ (forall l1 l2 r f,
         fatalities r = Some f -> 0 < f -> severityIs "fatal" r = true ->
         calculateSeverityScore (l1 ++ r :: l2) =
         calculateSeverityScore (l1 ++ l2) + 10 * f + 5)
  /\ (forall l1 l2 r,
         severeOrFatal r = false -> severityIs "moderate" r = false ->
         calculateSeverityScore (l1 ++ r :: l2) =
         calculateSeverityScore (l1 ++ l2) + 10 * orZero (fatalities r))
  /\ calculateSeverityScore [] = 0.
Proof.
  split; [exact calculateSeverityScore_formula|].
  split; [|split; [|reflexivity]].
  - intros l1 l2 r f Hf _ Hs. rewrite calculateSeverityScore_insert.
    unfold severeOrFatal. rewrite Hs, orb_true_r, Hf.
    assert (severityIs "moderate" r = false) as ->.
    { unfold severityIs in *. destruct (severity r) as [s|]; [|reflexivity].
      apply String.eqb_eq in Hs. rewrite Hs. reflexivity. }
    cbn [orZero]. lia.
  - intros l1 l2 r H1 H2. rewrite calculateSeverityScore_insert, H1, H2. lia.
Qed.

Lemma C1_severity_score_formula_witness :
  let r := mkAccident "Rohini" "10:15" (Some 2) (Some "Fatal") None in
  let q := mkAccident "Rohini" "11:40" (Some 1) None None in
  calculateSeverityScore [q; r; q] = calculateSeverityScore [q; q] + 10 * 2 + 5
  /\ calculateSeverityScore [r; q] = calculateSeverityScore [r] + 10 * 1.
Proof.
  intros r q. split.
  - apply (proj1 (proj2 C1_severity_score_formula) [q] [q] r 2);
      [reflexivity | lia | reflexivity].
  - apply (proj1 (proj2 (proj2 C1_severity_score_formula)) [r] [] q);
      reflexivity.
Defined.

(** ** Classifier: absolute thresholds and empty groups *)

Lemma classify_thresholds (group : list Accident) (population : option (list Q)) :
  group <> [] ->
  population = None \/ population = Some [] ->
  calculateSafetyLevelFromAccidents group population =
  if 50 <=? calculateSeverityScore group then high_risk
  else if 20 <=? calculateSeverityScore group then moderate
  else safe.
Proof.
  intros Hne Hp. unfold calculateSafetyLevelFromAccidents.
  destruct group as [|r group]; [contradiction|].
  cbn [List.length Nat.eqb].
  destruct Hp as [-> | ->]; reflexivity.
Qed.

Lemma classify_empty (population : option (list Q)) :
  calculateSafetyLevelFromAccidents [] population = safe.
Proof. reflexivity. Qed.

(** C4. Given a non-empty group and no comparison scores (omitted, or an
    empty array), the classifier answers high-risk exactly when the score
    is at least 50, moderate exactly when it is at least 20 and below 50,
    safe otherwise.  Groups scoring 49, 20 and 19 are classified moderate,
    moderate and safe, and the three-record scenario scores 17 and is
    safe. *)
Theorem C4_policy_B_thresholds :
  (forall group population,
      group <> [] ->
      population = None \/ population = Some [] ->
      let score := calculateSeverityScore group in
      let level := calculateSafetyLevelFromAccidents group population in
      (level = high_risk <-> 50 <= score)
      /\ (level = moderate <-> 20 <= score < 50)
      /\ (level = safe <-> score < 20))
  /\ (let g49 := [ mkAccident "Saket" "08:00" (Some 4) (Some "fatal") None;
                   mkAccident "Saket" "09:00" (Some 0) (Some "moderate") None;
                   mkAccident "Saket" "10:00" None (Some "Moderate") None ] in
      calculateSeverityScore g49 = 49
      /\ calculateSafetyLevelFromAccidents g49 None = moderate)
  /\ (let g20 := [ mkAccident "Saket" "08:00" (Some 2) (Some "minor") None ] in
      calculateSeverityScore g20 = 20
      /\ calculateSafetyLevelFromAccidents g20 None = moderate)
  /\ (let g19 := [ mkAccident "Saket" "08:00" (Some 1) (Some "severe") None;
                   mkAccident "Saket" "09:00" None (Some "moderate") None;
                   mkAccident "Saket" "09:30" None (Some "moderate") None ] in
      calculateSeverityScore g19 = 19
      /\ calculateSafetyLevelFromAccidents g19 None = safe)
  /\ (let g17 := [ mkAccident "Saket" "08:00" (Some 1) (Some "fatal") None;
                   mkAccident "Saket" "09:00" (Some 0) (Some "moderate") None;
                   mkAccident "Saket" "10:00" (Some 0) (Some "minor") None ] in
      calculateSeverityScore g17 = 17
      /\ calculateSafetyLevelFromAccidents g17 None = safe).
Proof.
  split; [|repeat split; reflexivity].
  intros group population Hne Hp score level.
  subst level. rewrite (classify_thresholds _ _ Hne Hp). fold score.
  destruct (Z.leb_spec 50 score); [|destruct (Z.leb_spec 20 score)];
    repeat split; intros; try discriminate; try lia.
Qed.

Lemma C4_policy_B_thresholds_witness :
  let g := [ mkAccident "Dwarka" "7:45 PM" (Some 5) (Some "Fatal") (Some "Overspeeding") ] in
  g <> []
  /\ (calculateSafetyLevelFromAccidents g (Some []) = high_risk
      <-> 50 <= calculateSeverityScore g).
Proof.
  intros g. split; [discriminate|].
  apply (proj1 C4_policy_B_thresholds g (Some [])); [discriminate | right; reflexivity].
Defined.

Lemma filter_none {A : Type} (p : A -> bool) (l : list A) :
  (forall x, In x l -> p x = false) -> filter p l = [].
Proof.
  induction l as [|x l IH]; intros H; [reflexivity|].
  cbn [filter]. rewrite (H x (or_introl eq_refl)).
  apply IH. intros y Hy. apply H. right. exact Hy.
Qed.

(** C5. Empty collections get the documented defaults: the classifier
    answers safe whatever comparison scores it is given, also through the
    hour-filtered prediction when no record's hour is the target hour; the
    severity score is 0; the dominant cause is Unknown. *)
Theorem C5_empty_defaults :
  (forall population, calculateSafetyLevelFromAccidents [] population = safe)
  /\ (forall hour historicalData population,
         (forall r, In r historicalData -> extractHour (time r) <> Some hour) ->
         predictSafetyForHour hour historicalData population = safe)
  /\ calculateSeverityScore [] = 0
  /\ getTopCauses [] = Some []
  /\ getDominantCause [] = Some "Unknown".
Proof.
  split; [exact classify_empty|].
  split; [|repeat split; reflexivity].
  intros hour data population H. unfold predictSafetyForHour.
  rewrite filter_none; [reflexivity|].
  intros r Hr. specialize (H r Hr).
  destruct (extractHour (time r)) as [h|]; [|reflexivity].
  apply Z.eqb_neq. intros ->. apply H. reflexivity.
Qed.

Lemma C5_empty_defaults_witness :
  let data := [ mkAccident "Okhla" "9:10 AM" (Some 7) (Some "fatal") None;
                mkAccident "Okhla" "noon" (Some 9) (Some "fatal") None ] in
  (forall r, In r data -> extractHour (time r) <> Some 17)
  /\ predictSafetyForHour 17 data (Some [1%Q; 2%Q]) = safe.
Proof.
  intros data.
  assert (H : forall r, In r data -> extractHour (time r) <> Some 17).
  { intros r [<- | [<- | []]]; vm_compute; discriminate. }
  split; [exact H|].
  apply (proj1 (proj2 C5_empty_defaults) 17 data (Some [1%Q; 2%Q]) H).
Defined.

(** ** Sorting *)

Section SortingFacts.
Context {A : Type}.
Variable before : A -> A -> bool.

Lemma insertBy_perm (x : A) (l : list A) :
  Permutation (x :: l) (insertBy before x l).
Proof.
  induction l as [|y l IH]; cbn [insertBy]; [reflexivity|].
  destruct (before x y); [reflexivity|].
  rewrite perm_swap. constructor. exact IH.
Qed.

Lemma sortBy_perm (l : list A) : Permutation l (sortBy before l).
Proof.
  induction l as [|x l IH]; cbn [sortBy fold_right]; [constructor|].
  fold (sortBy before l). rewrite <- insertBy_perm. constructor. exact IH.
Qed.

Lemma sortBy_length (l : list A) : List.length (sortBy before l) = List.length l.
Proof. symmetry. apply Permutation_length, sortBy_perm. Qed.

Lemma sortBy_In (x : A) (l : list A) : In x (sortBy before l) <-> In x l.
Proof.
  split; apply Permutation_in; [symmetry|]; apply sortBy_perm.
Qed.

(** Stability: an element only moves past elements it is strictly after,
    so a class [p] of elements none of which is strictly after another
    keeps its order. *)
Lemma insertBy_filter (p : A -> bool) (x : A) (l : list A) :
  (forall y, In y l -> p x = true -> p y = true -> before x y = true) ->
  filter p (insertBy before x l) = filter p (x :: l).
Proof.
  induction l as [|y l IH]; intros H; cbn [insertBy]; [reflexivity|].
  destruct (before x y) eqn:Hxy; [reflexivity|].
  cbn [filter]. rewrite IH by (intros z Hz; apply H; right; exact Hz).
  cbn [filter]. destruct (p x) eqn:Hpx; [|reflexivity].
  destruct (p y) eqn:Hpy; [|reflexivity].
  rewrite (H y (or_introl eq_refl) eq_refl Hpy) in Hxy. discriminate.
Qed.

Lemma sortBy_stable (p : A -> bool) (l : list A) :
  (forall x y, p x = true -> p y = true -> before x y = true) ->
  filter p (sortBy before l) = filter p l.
Proof.
  intros H. induction l as [|x l IH]; [reflexivity|].
  cbn [sortBy fold_right]. fold (sortBy before l).
  rewrite insertBy_filter by (intros; apply H; assumption).
  cbn [filter]. rewrite IH. reflexivity.
Qed.

Hypothesis before_total : forall a b, before a b = false -> before b a = true.
Hypothesis before_trans :
  forall a b c, before a b = true -> before b c = true -> before a c = true.

Lemma insertBy_sorted (x : A) (l : list A) :
  StronglySorted (fun a b => before a b = true) l ->
  StronglySorted (fun a b => before a b = true) (insertBy before x l).
Proof.
  induction 1 as [|y l Hs IH Hy]; cbn [insertBy].
  - repeat constructor.
  - destruct (before x y) eqn:Hxy.
    + constructor; [constructor; assumption|].
      constructor; [exact Hxy|].
      rewrite Forall_forall in *. intros z Hz.
      apply (before_trans _ _ _ Hxy), Hy, Hz.
    + constructor; [exact IH|].
      rewrite Forall_forall in *. intros z Hz.
      apply (Permutation_in _ (Permutation_sym (insertBy_perm x l))) in Hz.
      destruct Hz as [<- | Hz]; [apply before_total, Hxy | apply Hy, Hz].
Qed.

Lemma sortBy_sorted (l : list A) :
  StronglySorted (fun a b => before a b = true) (sortBy before l).
Proof.
  induction l as [|x l IH]; cbn [sortBy fold_right]; [constructor|].
  apply insertBy_sorted, IH.
Qed.

End SortingFacts.

Lemma sortBy_Qle_sorted (scores : list Q) :
  StronglySorted Qle (sortBy Qle_bool scores).
Proof.
  assert (H : StronglySorted (fun a b => Qle_bool a b = true) (sortBy Qle_bool scores)).
  { apply sortBy_sorted.
    - intros a b Hab. apply Qle_bool_iff.
      destruct (Qlt_le_dec b a) as [Hlt | Hle].
      + apply Qlt_le_weak, Hlt.
      + apply Qle_bool_iff in Hle. congruence.
    - intros a b c Hab Hbc. apply Qle_bool_iff.
      apply Qle_trans with b; apply Qle_bool_iff; assumption. }
  induction H as [|x l Hs IH Hx]; constructor; [exact IH|].
  rewrite Forall_forall in *. intros y Hy. apply Qle_bool_iff, Hx, Hy.
Qed.

(** ** Percentiles *)

Lemma floor_eq_ceiling (x : Q) :
  Qfloor x = Qceiling x <-> (inject_Z (Qfloor x) == x)%Q.
Proof.
  split; intros H.
  - apply Qle_antisym; [apply Qfloor_le|].
    rewrite H. apply Qle_ceiling.
  - rewrite <- H at 2. rewrite Qceiling_Z. reflexivity.
Qed.

Lemma at_in_range (arr : list Q) (i : Z) :
  0 <= i < Z.of_nat (List.length arr) ->
  at_ arr i = Num (element arr i) /\ In (element arr i) arr.
Proof.
  intros Hi. unfold at_, element.
  destruct (Z.ltb_spec i 0); [lia|].
  assert (Hn : (Z.to_nat i < List.length arr)%nat) by lia.
  split; [|apply nth_In, Hn].
  rewrite (nth_error_nth' arr 0%Q Hn). reflexivity.
Qed.

Lemma at_out_of_range (arr : list Q) (i : Z) :
  i < 0 \/ Z.of_nat (List.length arr) <= i -> at_ arr i = Undefined.
Proof.
  intros Hi. unfold at_.
  destruct (Z.ltb_spec i 0); [reflexivity|].
  assert (Hn : (List.length arr <= Z.to_nat i)%nat) by lia.
  apply nth_error_None in Hn. rewrite Hn. reflexivity.
Qed.

Lemma percentileIndex_range (n : nat) (p : Q) :
  (0 < n)%nat -> (0 <= p)%Q -> (p <= 100)%Q ->
  let index := percentileIndex n p in
  (0 <= index)%Q /\ (index <= inject_Z (Z.of_nat n - 1))%Q.
Proof.
  intros Hn Hp0 Hp1 index. subst index. unfold percentileIndex.
  assert (Hm : (inject_Z (Z.of_nat n) - 1 == inject_Z (Z.of_nat n - 1))%Q).
  { unfold Z.sub. rewrite inject_Z_plus, inject_Z_opp. reflexivity. }
  assert (H0 : (0 <= inject_Z (Z.of_nat n - 1))%Q).
  { change 0%Q with (inject_Z 0). rewrite <- Zle_Qle. lia. }
  rewrite Hm. set (m := inject_Z (Z.of_nat n - 1)) in *.
  assert (Hq0 : (0 <= p / 100)%Q) by (apply Qle_shift_div_l; [reflexivity | lra]).
  assert (Hq1 : (p / 100 <= 1)%Q) by (apply Qle_shift_div_r; [reflexivity | lra]).
  split; [apply Qmult_le_0_compat; assumption|].
  rewrite <- (Qmult_1_l m) at 2. apply Qmult_le_compat_r; assumption.
Qed.

Lemma floor_ceiling_range (n : nat) (p : Q) :
  (0 < n)%nat -> (0 <= p)%Q -> (p <= 100)%Q ->
  let index := percentileIndex n p in
  0 <= Qfloor index /\ Qfloor index <= Qceiling index
  /\ Qceiling index < Z.of_nat n.
Proof.
  intros Hn Hp0 Hp1 index.
  destruct (percentileIndex_range n p Hn Hp0 Hp1) as [H0 H1]. fold index in H0, H1.
  split; [|split].
  - rewrite <- (Qfloor_Z 0). apply Qfloor_resp_le, H0.
  - rewrite Zle_Qle. apply Qle_floor_ceiling.
  - apply Qceiling_resp_le in H1. rewrite Qceiling_Z in H1. lia.
Qed.

(** The code's result, unfolded for a non-empty array. *)
Lemma calculatePercentile_nonempty (scores : list Q) (p : Q) :
  scores <> [] ->
  let sorted := sortBy Qle_bool scores in
  let index := percentileIndex (List.length sorted) p in
  calculatePercentile scores p =
  if Qfloor index =? Qceiling index then at_ sorted (Qfloor index)
  else jsAdd (jsMul (at_ sorted (Qfloor index))
                    (Num (1 - (index - inject_Z (Qfloor index)))%Q))
             (jsMul (at_ sorted (Qceiling index))
                    (Num (index - inject_Z (Qfloor index))%Q)).
Proof.
  intros Hne. destruct scores as [|s scores]; [contradiction|]. reflexivity.
Qed.

(** In range, the result is a number lying between two elements of the
    array. *)
Lemma calculatePercentile_in_range (scores : list Q) (p : Q) :
  scores <> [] -> (0 <= p)%Q -> (p <= 100)%Q ->
  exists q a b w,
    calculatePercentile scores p = Num q
    /\ In a scores /\ In b scores /\ (0 <= w)%Q /\ (w <= 1)%Q
    /\ (q == a * (1 - w) + b * w)%Q
    /\ (q == percentileSpec (sortBy Qle_bool scores) p)%Q.
Proof.
  intros Hne Hp0 Hp1.
  rewrite (calculatePercentile_nonempty scores p Hne). cbv zeta.
  unfold percentileSpec.
  set (sorted := sortBy Qle_bool scores).
  set (index := percentileIndex (List.length sorted) p).
  assert (Hn : (0 < List.length sorted)%nat).
  { unfold sorted. rewrite sortBy_length. destruct scores; [contradiction|cbn; lia]. }
  destruct (floor_ceiling_range _ p Hn Hp0 Hp1) as (Hf0 & Hfc & Hcn).
  fold index in Hf0, Hfc, Hcn.
  destruct (at_in_range sorted (Qfloor index)) as [Ea Ia]; [lia|].
  destruct (at_in_range sorted (Qceiling index)) as [Eb Ib]; [lia|].
  apply sortBy_In in Ia, Ib.
  set (w := (index - inject_Z (Qfloor index))%Q).
  assert (Hw0 : (0 <= w)%Q) by (unfold w; pose proof (Qfloor_le index); lra).
  assert (Hw1 : (w <= 1)%Q).
  { unfold w. pose proof (Qlt_floor index) as H.
    rewrite inject_Z_plus in H. change (inject_Z 1) with 1%Q in H. lra. }
  destruct (Z.eqb_spec (Qfloor index) (Qceiling index)) as [Heq | Hneq].
  - pose proof (proj1 (floor_eq_ceiling index) Heq) as Hint.
    assert (Hz : Qeq_bool w 0 = true) by (apply Qeq_bool_iff; unfold w; lra).
    rewrite Hz.
    exists (element sorted (Qfloor index)), (element sorted (Qfloor index)),
      (element sorted (Qfloor index)), 0%Q.
    repeat split; try assumption; lra.
  - assert (Hz : Qeq_bool w 0 = false).
    { apply not_true_iff_false. intros H. apply Qeq_bool_iff in H.
      apply Hneq, floor_eq_ceiling. unfold w in H. lra. }
    rewrite Hz, Ea, Eb. cbn [jsMul jsAdd].
    eexists _, (element sorted (Qfloor index)), (element sorted (Qceiling index)), w.
    repeat split; try assumption; try reflexivity; ring.
Qed.

(** The percentile of a non-empty array never exceeds a bound on its
    elements. *)
Lemma calculatePercentile_le_bound (scores : list Q) (p bound : Q) :
  scores <> [] -> (0 <= p)%Q -> (p <= 100)%Q ->
  (forall s, In s scores -> (s <= bound)%Q) ->
  exists q, calculatePercentile scores p = Num q /\ (q <= bound)%Q.
Proof.
  intros Hne Hp0 Hp1 Hb.
  destruct (calculatePercentile_in_range scores p Hne Hp0 Hp1)
    as (q & a & b & w & E & Ia & Ib & Hw0 & Hw1 & Hq & _).
  exists q. split; [exact E|].
  pose proof (Hb a Ia) as Ha. pose proof (Hb b Ib) as Hb'.
  rewrite Hq.
  assert (H1 : (a * (1 - w) <= bound * (1 - w))%Q)
    by (apply Qmult_le_compat_r; [exact Ha | lra]).
  assert (H2 : (b * w <= bound * w)%Q)
    by (apply Qmult_le_compat_r; assumption).
  lra.
Qed.


(** ** The percentile function in double precision *)

Section SortingOn.
Context {A : Type}.
Variable before : A -> A -> bool.

(** The sort leaves the elements in order as soon as the comparator is
    consistent on the elements that are sorted. *)
Lemma insertBy_sorted_on (x : A) (l : list A) :
  (forall a b, In a (x :: l) -> In b (x :: l) ->
               before a b = false -> before b a = true) ->
  (forall a b c, In a (x :: l) -> In b (x :: l) -> In c (x :: l) ->
                 before a b = true -> before b c = true -> before a c = true) ->
  StronglySorted (fun a b => before a b = true) l ->
  StronglySorted (fun a b => before a b = true) (insertBy before x l).
Proof.
  intros Htotal Htrans Hs. revert Htotal Htrans.
  induction Hs as [|y l Hs IH Hy]; intros Htotal Htrans; cbn [insertBy].
  - repeat constructor.
  - destruct (before x y) eqn:Hxy.
    + constructor; [constructor; assumption|].
      constructor; [exact Hxy|].
      rewrite Forall_forall in *. intros z Hz.
      apply (Htrans x y z); cbn; auto.
    + constructor.
      * apply IH.
        -- intros a b Ha Hb. apply Htotal; cbn in *; tauto.
        -- intros a b c Ha Hb Hc. apply Htrans; cbn in *; tauto.
      * rewrite Forall_forall in *. intros z Hz.
        apply (Permutation_in _ (Permutation_sym (insertBy_perm before x l))) in Hz.
        destruct Hz as [<- | Hz]; [|apply Hy, Hz].
        apply Htotal; cbn; auto.
Qed.

Lemma sortBy_sorted_on (l : list A) :
  (forall a b, In a l -> In b l -> before a b = false -> before b a = true) ->
  (forall a b c, In a l -> In b l -> In c l ->
                 before a b = true -> before b c = true -> before a c = true) ->
  StronglySorted (fun a b => before a b = true) (sortBy before l).
Proof.
  induction l as [|x l IH]; intros Htotal Htrans;
    cbn [sortBy fold_right]; [constructor|].
  fold (sortBy before l).
  assert (Hin : forall a, In a (x :: sortBy before l) -> In a (x :: l)).
  { intros a [<- | Ha]; [left; reflexivity | right; apply sortBy_In in Ha; exact Ha]. }
  apply insertBy_sorted_on.
  - intros a b Ha Hb. apply Htotal; apply Hin; assumption.
  - intros a b c Ha Hb Hc. apply Htrans; apply Hin; assumption.
  - apply IH.
    + intros a b Ha Hb. apply Htotal; right; assumption.
    + intros a b c Ha Hb Hc. apply Htrans; right; assumption.
Qed.

End SortingOn.

Lemma double_calculatePercentile_nonempty (scores : list float) (percentile : float) :
  scores <> [] ->
  let sorted := sortBy Double.before scores in
  let index := Double.percentileIndex (List.length scores) percentile in
  let lower := Double.floor index in
  let upper := Double.ceil index in
  let weight := (index - lower)%float in
  Double.calculatePercentile scores percentile =
  if PrimFloat.eqb lower upper then Double.get sorted lower
  else Double.Number (Double.times (Double.get sorted lower) (1 - weight)
                      + Double.times (Double.get sorted upper) weight)%float.
Proof.
  intros Hne. cbv zeta. unfold Double.calculatePercentile.
  destruct scores as [|s scores]; [contradiction|].
  cbn [List.length Nat.eqb]. rewrite sortBy_length. reflexivity.
Qed.

(** *** Doubles of small integers *)

Lemma digits2_pos_lower (p : positive) :
  2 ^ (Z.pos (digits2_pos p) - 1) <= Z.pos p.
Proof.
  induction p as [p IH|p IH|]; cbn [digits2_pos];
    [| |cbn; lia];
    rewrite Pos2Z.inj_succ;
    replace (Z.succ (Z.pos (digits2_pos p)) - 1)
      with (Z.succ (Z.pos (digits2_pos p) - 1)) by lia;
    rewrite Z.pow_succ_r by lia; lia.
Qed.

Lemma digits2_pos_upper (p : positive) :
  Z.pos p < 2 ^ Z.pos (digits2_pos p).
Proof.
  induction p as [p IH|p IH|]; cbn [digits2_pos];
    [| |cbn; lia];
    rewrite Pos2Z.inj_succ, Z.pow_succ_r by lia; lia.
Qed.

Lemma iter_xO_value (p k : positive) :
  Z.pos (Pos.iter xO p k) = Z.pos p * 2 ^ Z.pos k.
Proof.
  induction k as [|k IH] using Pos.peano_ind.
  - cbn. lia.
  - rewrite Pos.iter_succ, Pos2Z.inj_succ, Z.pow_succ_r by lia. lia.
Qed.

Lemma digits2_pos_iter_xO (p k : positive) :
  digits2_pos (Pos.iter xO p k) = (digits2_pos p + k)%positive.
Proof.
  induction k as [|k IH] using Pos.peano_ind.
  - cbn. lia.
  - rewrite Pos.iter_succ. cbn [digits2_pos]. rewrite IH. lia.
Qed.

(** A mantissa of 53 bits is not rounded. *)
Lemma binary_round_aux_exact (m : positive) (e : Z) :
  Z.pos (digits2_pos m) = 53 -> -1074 <= e <= 971 ->
  binary_round_aux prec emax false (Z.pos m) e loc_Exact = S754_finite false m e.
Proof.
  intros Hd He.
  assert (Hshift : fexp prec emax (Zdigits2 (Z.pos m) + e) - e = 0).
  { cbn [Zdigits2]. rewrite Hd. unfold fexp, emin, prec, emax. lia. }
  unfold binary_round_aux, shr_fexp. rewrite Hshift.
  cbn [shr_record_of_loc shr shr_m loc_of_shr_record round_nearest_even].
  rewrite Hshift. cbn [shr_record_of_loc shr shr_m].
  unfold emax, prec.
  destruct (Z.leb_spec e (1024 - 53)); [reflexivity | lia].
Qed.

(** An integer below 2^53 is a double: normalising shifts it left, to a
    mantissa of 53 bits, and loses nothing. *)
Lemma binary_normalize_small (p : positive) :
  Z.pos p < 2 ^ 53 ->
  exists m e,
    binary_normalize prec emax (Z.pos p) 0 false = S754_finite false m e
    /\ e <= 0 /\ Z.pos m = Z.pos p * 2 ^ (- e).
Proof.
  intros Hp.
  pose proof (digits2_pos_lower p) as Hlow.
  assert (Hd : Z.pos (digits2_pos p) <= 53).
  { destruct (Z.le_gt_cases (Z.pos (digits2_pos p)) 53) as [H | H]; [exact H|].
    assert (2 ^ 53 <= 2 ^ (Z.pos (digits2_pos p) - 1))
      by (apply Z.pow_le_mono_r; lia).
    lia. }
  unfold binary_normalize, binary_round, shl_align.
  assert (Hf : fexp prec emax (Z.pos (digits2_pos p) + 0) = Z.pos (digits2_pos p) - 53).
  { unfold fexp, emin, prec, emax. lia. }
  rewrite Hf.
  destruct (Z.pos (digits2_pos p) - 53 - 0) as [|k|k] eqn:Hk; try lia.
  - exists p, 0. split; [|split; [lia|cbn; lia]].
    apply binary_round_aux_exact; lia.
  - exists (Pos.iter xO p k), (Z.pos (digits2_pos p) - 53).
    split; [|split; [lia|]].
    + apply binary_round_aux_exact; [|lia].
      rewrite digits2_pos_iter_xO. lia.
    + rewrite iter_xO_value. f_equal. f_equal. lia.
Qed.

(** The double of an integer below 2^53 denotes that integer. *)
Lemma ofZ_form (q : Z) :
  0 <= q < 2 ^ 53 ->
  (q = 0 /\ Prim2SF (Double.ofZ q) = S754_zero false)
  \/ (exists m e,
         Prim2SF (Double.ofZ q) = S754_finite false m e
         /\ e <= 0 /\ Z.pos m = q * 2 ^ (- e)).
Proof.
  intros Hq. unfold Double.ofZ.
  rewrite of_uint63_spec, Uint63.of_Z_spec.
  rewrite Z.mod_small by (change Uint63.wB with (2 ^ 63); lia).
  destruct q as [|p|p]; [left; split; reflexivity | right | lia].
  apply binary_normalize_small. lia.
Qed.

(** The mantissa of a double has at most 53 bits. *)
Lemma finite_bounds (x : float) (s : bool) (m : positive) (e : Z) :
  Prim2SF x = S754_finite s m e -> Z.pos m < 2 ^ 53.
Proof.
  intros H. pose proof (Prim2SF_valid x) as Hv. rewrite H in Hv.
  cbn [valid_binary] in Hv. unfold bounded, canonical_mantissa in Hv.
  apply andb_true_iff in Hv. destruct Hv as [Hc _].
  apply Z.eqb_eq in Hc. unfold fexp, emin, prec, emax in Hc.
  pose proof (digits2_pos_upper m) as Hup.
  assert (2 ^ Z.pos (digits2_pos m) <= 2 ^ 53) by (apply Z.pow_le_mono_r; lia).
  lia.
Qed.

Lemma integerPart_fraction (m : positive) (e : Z) :
  e < 0 -> Z.pos m < 2 ^ 53 -> 0 <= Double.integerPart m e < 2 ^ 52.
Proof.
  intros He Hm. unfold Double.integerPart.
  rewrite Z.shiftr_div_pow2 by lia.
  assert (H2 : 2 ^ 1 <= 2 ^ (- e)) by (apply Z.pow_le_mono_r; lia).
  assert (Hpos : 0 < 2 ^ (- e)) by lia.
  split; [apply Z.div_pos; lia|].
  apply Z.div_lt_upper_bound; [lia|].
  change (2 ^ 53) with (2 * 2 ^ 52) in Hm. change (2 ^ 1) with 2 in H2. nia.
Qed.

(** [x === x] for every number but [NaN]. *)
Lemma eqb_same (x : float) :
  Prim2SF x <> S754_nan -> PrimFloat.eqb x x = true.
Proof.
  intros H. rewrite FloatAxioms.eqb_spec. unfold SFeqb, SFcompare.
  destruct (Prim2SF x) as [s|s| |s m e]; [reflexivity|destruct s; reflexivity|contradiction|].
  assert (Hm : Pos.compare_cont Eq m m = Eq) by apply Pos.compare_refl.
  rewrite Z.compare_refl, Hm. destruct s; reflexivity.
Qed.

(** [===] tells the doubles of different integers below 2^53 apart. *)
Lemma ofZ_distinct (a b : Z) :
  0 <= a < 2 ^ 53 -> 0 <= b < 2 ^ 53 -> a <> b ->
  PrimFloat.eqb (Double.ofZ a) (Double.ofZ b) = false
  /\ PrimFloat.eqb (- Double.ofZ a) (- Double.ofZ b) = false.
Proof.
  intros Ha Hb Hab. rewrite !FloatAxioms.eqb_spec, !FloatAxioms.opp_spec.
  destruct (ofZ_form a Ha) as [[Ea ->] | (ma & ea & -> & Hea & Hma)];
    destruct (ofZ_form b Hb) as [[Eb ->] | (mb & eb & -> & Heb & Hmb)].
  - lia.
  - split; reflexivity.
  - split; reflexivity.
  - unfold SFeqb, SFopp, SFcompare. cbn [negb].
    destruct (Z.compare_spec ea eb) as [He | He | He]; [|split; reflexivity..].
    subst eb.
    destruct (Pos.compare_cont Eq ma mb) eqn:Hc; [|split; reflexivity..].
    apply Pos.compare_eq in Hc. subst mb.
    assert (0 < 2 ^ (- ea)) by (apply Z.pow_pos_nonneg; lia).
    nia.
Qed.

(** The double of an integer below 2^53 names that array position. *)
Lemma toIndex_ofZ (q : Z) :
  0 <= q < 2 ^ 53 -> Double.toIndex (Double.ofZ q) = Some q.
Proof.
  intros Hq. unfold Double.toIndex, Double.whole.
  destruct (ofZ_form q Hq) as [[-> ->] | (m & e & -> & He & Hm)]; [reflexivity|].
  assert (Hpos : 0 < 2 ^ (- e)) by (apply Z.pow_pos_nonneg; lia).
  assert (Hq' : Double.integerPart m e = q).
  { unfold Double.integerPart. rewrite Z.shiftr_div_pow2, Hm by lia.
    apply Z.div_mul. lia. }
  rewrite Hq', Z.shiftl_mul_pow2, <- Hm, Z.eqb_refl, orb_true_r by lia.
  reflexivity.
Qed.

Lemma toIndex_nonneg (x : float) (k : Z) :
  Double.toIndex x = Some k -> 0 <= k.
Proof.
  unfold Double.toIndex.
  destruct (Prim2SF x) as [s|s| |[] m e]; try discriminate.
  - intros [= <-]. lia.
  - destruct (Double.whole x); [|discriminate]. intros [= <-].
    unfold Double.integerPart. apply Z.shiftr_nonneg. lia.
Qed.

Lemma get_elementAt (arr : list float) (i : float) (k : Z) :
  Double.toIndex i = Some k -> Double.get arr i = elementAt arr k.
Proof.
  intros H. pose proof (toIndex_nonneg i k H) as Hk.
  unfold Double.get, elementAt. rewrite H.
  destruct (Z.ltb_spec k (Z.of_nat (List.length arr))) as [Hlt | Hge]; [reflexivity|].
  assert (Hnone : nth_error arr (Z.to_nat k) = None) by (apply nth_error_None; lia).
  rewrite Hnone. reflexivity.
Qed.

(** A number that names an array position is its own floor and ceiling. *)
Lemma toIndex_whole (x : float) (k : Z) :
  Double.toIndex x = Some k ->
  Double.floor x = x /\ Double.ceil x = x /\ PrimFloat.eqb x x = true.
Proof.
  unfold Double.toIndex, Double.floor, Double.ceil. intros H.
  assert (Hnan : Prim2SF x <> S754_nan).
  { intros E. rewrite E in H. discriminate. }
  split; [|split; [|apply eqb_same, Hnan]].
  - destruct (Prim2SF x) as [s|s| |[] m e]; try reflexivity; try discriminate.
    destruct (Double.whole x); [reflexivity | discriminate].
  - destruct (Prim2SF x) as [s|s| |[] m e]; try reflexivity; try discriminate.
    destruct (Double.whole x); [reflexivity | discriminate].
Qed.

(** A finite double with a fractional part lies below 2^52 in magnitude;
    its floor and its ceiling are the doubles of neighbouring integers,
    and they differ. *)
Lemma fraction_floor_ceil (x : float) (s : bool) (m : positive) (e : Z) :
  Prim2SF x = S754_finite s m e -> Double.whole x = false ->
  let k := Double.integerPart m e in
  0 <= k < 2 ^ 52
  /\ Double.floor x = (if s then (- Double.ofZ (k + 1))%float else Double.ofZ k)
  /\ Double.ceil x = (if s then (- Double.ofZ k)%float else Double.ofZ (k + 1))
  /\ PrimFloat.eqb (Double.floor x) (Double.ceil x) = false.
Proof.
  intros H Hw k.
  assert (He : e < 0).
  { unfold Double.whole in Hw. rewrite H in Hw.
    apply orb_false_iff in Hw. destruct Hw as [Hw _].
    apply Z.leb_gt in Hw. exact Hw. }
  pose proof (integerPart_fraction m e He (finite_bounds x s m e H)) as Hk.
  fold k in Hk. change (2 ^ 52) with 4503599627370496 in *.
  assert (Hfloor : Double.floor x
                   = (if s then (- Double.ofZ (k + 1))%float else Double.ofZ k)).
  { unfold Double.floor. rewrite H, Hw. reflexivity. }
  assert (Hceil : Double.ceil x
                  = (if s then (- Double.ofZ k)%float else Double.ofZ (k + 1))).
  { unfold Double.ceil. rewrite H, Hw. reflexivity. }
  split; [exact Hk|]. split; [exact Hfloor|]. split; [exact Hceil|].
  rewrite Hfloor, Hceil.
  destruct s.
  - apply (ofZ_distinct (k + 1) k); change (2 ^ 53) with 9007199254740992; lia.
  - apply (ofZ_distinct k (k + 1)); change (2 ^ 53) with 9007199254740992; lia.
Qed.

(** *** The order of the doubles *)

Local Ltac pow2 :=
  solve [ lia | apply Z.pow_pos_nonneg; lia | apply Z.pow_nonzero; lia
        | apply Z.lt_le_incl, Z.pow_pos_nonneg; lia ].

Lemma shr_1_half (r : shr_record) :
  0 <= shr_m r -> shr_m (shr_1 r) = shr_m r / 2.
Proof.
  destruct r as [m rr ss]. cbn [shr_m shr_1].
  destruct m as [|[p|p|]|p]; cbn [shr_m]; intros H.
  - reflexivity.
  - apply (Z.div_unique _ _ _ 1); lia.
  - apply (Z.div_unique _ _ _ 0); lia.
  - reflexivity.
  - lia.
Qed.

Lemma iter_shr_1 (n : positive) (r : shr_record) :
  0 <= shr_m r ->
  shr_m (iter_pos shr_1 n r) = shr_m r / 2 ^ Z.pos n.
Proof.
  revert r. induction n as [n IH|n IH|]; intros r Hr; cbn [iter_pos].
  - assert (H1 : 0 <= shr_m (shr_1 r)).
    { rewrite shr_1_half by exact Hr. apply Z.div_pos; lia. }
    assert (H2 : 0 <= shr_m (iter_pos shr_1 n (shr_1 r))).
    { rewrite IH by exact H1. apply Z.div_pos; [exact H1|]. apply Z.pow_pos_nonneg; lia. }
    rewrite IH by exact H2. rewrite IH by exact H1. rewrite shr_1_half by exact Hr.
    rewrite !Z.div_div by pow2.
    f_equal. replace (Z.pos n~1) with (1 + Z.pos n + Z.pos n) by lia.
    rewrite !Z.pow_add_r by lia. change (2 ^ 1) with 2. lia.
  - assert (H2 : 0 <= shr_m (iter_pos shr_1 n r)).
    { rewrite IH by exact Hr. apply Z.div_pos; [exact Hr|]. apply Z.pow_pos_nonneg; lia. }
    rewrite IH by exact H2. rewrite IH by exact Hr.
    rewrite Z.div_div by pow2.
    f_equal. replace (Z.pos n~0) with (Z.pos n + Z.pos n) by lia.
    rewrite Z.pow_add_r by lia. reflexivity.
  - rewrite shr_1_half by exact Hr. reflexivity.
Qed.

(** Shifting a mantissa to its place leaves it positive. *)
Lemma shr_fexp_positive (m : positive) (e : Z) :
  -1074 <= e ->
  exists m' r s e',
    shr_fexp prec emax (Z.pos m) e loc_Exact
    = ({| shr_m := Z.pos m'; shr_r := r; shr_s := s |}, e')
    /\ -1074 <= e'.
Proof.
  intros He. unfold shr_fexp. cbn [Zdigits2 shr_record_of_loc].
  set (d := Z.pos (digits2_pos m)).
  assert (Hf : fexp prec emax (d + e) - e = Z.max (d - 53) (-1074 - e)).
  { unfold fexp, emin, prec, emax. lia. }
  rewrite Hf. unfold shr.
  destruct (Z.max (d - 53) (-1074 - e)) as [|n|n] eqn:Hn.
  - exists m, false, false, e. split; [reflexivity | exact He].
  - set (r0 := {| shr_m := Z.pos m; shr_r := false; shr_s := false |}).
    assert (Hm : shr_m (iter_pos shr_1 n r0) = Z.pos m / 2 ^ Z.pos n)
      by (apply (iter_shr_1 n r0); cbn; lia).
    assert (Hpos : 1 <= Z.pos m / 2 ^ Z.pos n).
    { apply Z.div_le_lower_bound; [apply Z.pow_pos_nonneg; lia|].
      pose proof (digits2_pos_lower m) as Hlow. fold d in Hlow.
      assert (2 ^ Z.pos n <= 2 ^ (d - 1)) by (apply Z.pow_le_mono_r; lia).
      lia. }
    destruct (iter_pos shr_1 n r0) as [m1 r1 s1]. cbn [shr_m] in Hm.
    destruct m1 as [|m1|m1]; try lia.
    exists m1, r1, s1, (e + Z.pos n). split; [reflexivity | lia].
  - exists m, false, false, e. split; [reflexivity | exact He].
Qed.

(** Rounding an integer that is not 0 gives a number of its sign, finite
    or infinite. *)
Lemma binary_round_aux_sign (sx : bool) (m : positive) (e : Z) :
  -1074 <= e ->
  (exists m' e', binary_round_aux prec emax sx (Z.pos m) e loc_Exact
                 = S754_finite sx m' e')
  \/ binary_round_aux prec emax sx (Z.pos m) e loc_Exact = S754_infinity sx.
Proof.
  intros He. unfold binary_round_aux.
  destruct (shr_fexp_positive m e He) as (m1 & r1 & s1 & e1 & -> & He1).
  cbn [shr_m].
  assert (Hround : exists m2,
             round_nearest_even (Z.pos m1)
               (loc_of_shr_record {| shr_m := Z.pos m1; shr_r := r1; shr_s := s1 |})
             = Z.pos m2).
  { destruct r1, s1; cbn [loc_of_shr_record round_nearest_even].
    - exists (m1 + 1)%positive. lia.
    - destruct (Z.even (Z.pos m1)); [exists m1; reflexivity|].
      exists (m1 + 1)%positive. lia.
    - exists m1. reflexivity.
    - exists m1. reflexivity. }
  destruct Hround as (m2 & ->).
  destruct (shr_fexp_positive m2 e1 He1) as (m3 & r3 & s3 & e3 & -> & He3).
  cbn [shr_m].
  destruct (e3 <=? emax - prec); [left; exists m3, e3; reflexivity | right; reflexivity].
Qed.

Lemma binary_round_sign (sx : bool) (m : positive) (e : Z) :
  -1074 <= e ->
  (exists m' e', binary_round prec emax sx m e = S754_finite sx m' e')
  \/ binary_round prec emax sx m e = S754_infinity sx.
Proof.
  intros He. unfold binary_round, shl_align.
  assert (Hf : -1074 <= fexp prec emax (Z.pos (digits2_pos m) + e))
    by (unfold fexp, emin, prec, emax; lia).
  destruct (fexp prec emax (Z.pos (digits2_pos m) + e) - e);
    apply binary_round_aux_sign; assumption.
Qed.

Lemma valid_finite (s : bool) (m : positive) (e : Z) :
  valid_binary (S754_finite s m e) = true ->
  -1074 <= e <= 971
  /\ Z.pos m < 2 ^ 53
  /\ (-1074 < e -> 2 ^ 52 <= Z.pos m).
Proof.
  cbn [valid_binary]. unfold bounded, canonical_mantissa. intros Hv.
  apply andb_true_iff in Hv. destruct Hv as [Hc Hb].
  apply Z.eqb_eq in Hc. apply Z.leb_le in Hb.
  unfold fexp, emin, prec, emax in Hc, Hb.
  pose proof (digits2_pos_upper m) as Hup.
  pose proof (digits2_pos_lower m) as Hlow.
  split; [lia|]. split.
  - assert (2 ^ Z.pos (digits2_pos m) <= 2 ^ 53) by (apply Z.pow_le_mono_r; lia).
    lia.
  - intros He. replace (Z.pos (digits2_pos m) - 1) with 52 in Hlow by lia.
    exact Hlow.
Qed.

Lemma magnitude_bounds (s : bool) (m : positive) (e : Z) :
  valid_binary (S754_finite s m e) = true ->
  0 < Z.pos m * 2 ^ (e + 1074) < 2 ^ 2200.
Proof.
  intros Hv. destruct (valid_finite s m e Hv) as (He & Hm & _).
  assert (Hp : 0 < 2 ^ (e + 1074)) by (apply Z.pow_pos_nonneg; lia).
  assert (Hq : 2 ^ (e + 1074) <= 2 ^ 2045) by (apply Z.pow_le_mono_r; lia).
  split; [apply Z.mul_pos_pos; lia|].
  apply Z.lt_le_trans with (2 ^ 53 * 2 ^ (e + 1074));
    [apply Z.mul_lt_mono_pos_r; assumption|].
  apply Z.le_trans with (2 ^ 53 * 2 ^ 2045);
    [apply Z.mul_le_mono_nonneg_l; [apply Z.pow_nonneg; lia | exact Hq]|].
  rewrite <- Z.pow_add_r by lia. apply Z.pow_le_mono_r; lia.
Qed.

Lemma SFeqb_same (r : spec_float) : r <> S754_nan -> SFeqb r r = true.
Proof.
  intros H. unfold SFeqb, SFcompare.
  destruct r as [s|s| |s m e]; [reflexivity|destruct s; reflexivity|contradiction|].
  assert (Hm : Pos.compare_cont Eq m m = Eq) by apply Pos.compare_refl.
  rewrite Z.compare_refl, Hm. destruct s; reflexivity.
Qed.

Lemma notAbove_finite (s : bool) (m : positive) (e : Z) :
  notAbove (S754_finite s m e) = s.
Proof.
  unfold notAbove. rewrite SFeqb_same by discriminate.
  destruct s; reflexivity.
Qed.

Lemma notAbove_infinity (s : bool) : notAbove (S754_infinity s) = s.
Proof. destruct s; reflexivity. Qed.

Lemma binary_normalize_sign (D e : Z) :
  -1074 <= e -> notAbove (binary_normalize prec emax D e false) = (D <=? 0).
Proof.
  intros He. destruct D as [|p|p]; cbn [binary_normalize].
  - reflexivity.
  - destruct (binary_round_sign false p e He) as [(m' & e' & ->) | ->];
      [apply notAbove_finite | apply notAbove_infinity].
  - destruct (binary_round_sign true p e He) as [(m' & e' & ->) | ->];
      [apply notAbove_finite | apply notAbove_infinity].
Qed.

Lemma shl_align_value (mx : positive) (ex ez : Z) :
  ez <= ex -> Z.pos (fst (shl_align mx ex ez)) = Z.pos mx * 2 ^ (ex - ez).
Proof.
  intros H. unfold shl_align.
  destruct (ez - ex) as [|d|d] eqn:E; cbn [fst].
  - replace (ex - ez) with 0 by lia. lia.
  - lia.
  - rewrite iter_xO_value. f_equal. f_equal. lia.
Qed.

(** The comparator reads [a - b] as [a] not being above [b]. *)
Lemma SFsub_rank (x y : spec_float) :
  valid_binary x = true -> valid_binary y = true ->
  x <> S754_nan -> y <> S754_nan ->
  notAbove (SFsub prec emax x y) = (rank x <=? rank y).
Proof.
  intros Hx Hy Hnx Hny.
  assert (Hbig : 0 < 2 ^ 2200) by (apply Z.pow_pos_nonneg; lia).
  destruct x as [sx|sx| |sx mx ex]; [| |contradiction|];
    destruct y as [sy|sy| |sy my ey]; try contradiction.
  - destruct sx, sy; reflexivity.
  - cbn [SFsub rank]. rewrite notAbove_infinity.
    destruct sy; cbn [negb]; symmetry; [apply Z.leb_gt | apply Z.leb_le]; lia.
  - cbn [SFsub rank]. rewrite notAbove_finite.
    pose proof (magnitude_bounds sy my ey Hy).
    destruct sy; cbn [negb]; symmetry; [apply Z.leb_gt | apply Z.leb_le]; lia.
  - cbn [SFsub rank]. rewrite notAbove_infinity.
    destruct sx; symmetry; [apply Z.leb_le | apply Z.leb_gt]; lia.
  - assert (Hnan : notAbove S754_nan = true) by reflexivity.
    destruct sx, sy; cbn [SFsub rank]; rewrite ?notAbove_infinity, ?Hnan;
      symmetry; try (apply Z.leb_le; lia); try (apply Z.leb_gt; lia).
  - cbn [SFsub rank]. rewrite notAbove_infinity.
    pose proof (magnitude_bounds sy my ey Hy).
    destruct sx, sy; symmetry;
      try (apply Z.leb_le; lia); try (apply Z.leb_gt; lia).
  - cbn [SFsub rank]. rewrite notAbove_finite.
    pose proof (magnitude_bounds sx mx ex Hx).
    destruct sx; symmetry; [apply Z.leb_le | apply Z.leb_gt]; lia.
  - cbn [SFsub rank]. rewrite notAbove_infinity.
    pose proof (magnitude_bounds sx mx ex Hx).
    destruct sx, sy; cbn [negb]; symmetry;
      try (apply Z.leb_le; lia); try (apply Z.leb_gt; lia).
  - cbn [SFsub rank].
    destruct (valid_finite sx mx ex Hx) as (Hex & _ & _).
    destruct (valid_finite sy my ey Hy) as (Hey & _ & _).
    rewrite binary_normalize_sign by lia.
    rewrite !shl_align_value by lia.
    set (ez := Z.min ex ey).
    assert (Hpx : 2 ^ (ex + 1074) = 2 ^ (ex - ez) * 2 ^ (ez + 1074)).
    { rewrite <- Z.pow_add_r by lia. f_equal. lia. }
    assert (Hpy : 2 ^ (ey + 1074) = 2 ^ (ey - ez) * 2 ^ (ez + 1074)).
    { rewrite <- Z.pow_add_r by lia. f_equal. lia. }
    rewrite Hpx, Hpy.
    assert (HP : 0 < 2 ^ (ez + 1074)) by (apply Z.pow_pos_nonneg; lia).
    set (P := 2 ^ (ez + 1074)) in *.
    set (A := Z.pos mx * 2 ^ (ex - ez)).
    set (B := Z.pos my * 2 ^ (ey - ez)).
    replace (Z.pos mx * (2 ^ (ex - ez) * P)) with (A * P) by (unfold A; ring).
    replace (Z.pos my * (2 ^ (ey - ez) * P)) with (B * P) by (unfold B; ring).
    destruct sx, sy; cbn [cond_Zopp];
      (destruct (Z.leb_spec (rank (S754_zero false)) 0) as [_|_];
       match goal with
       | |- (?d <=? 0) = (?l <=? ?r) =>
           destruct (Z.leb_spec d 0); destruct (Z.leb_spec l r);
           try reflexivity; exfalso; nia
       end).
Qed.

(** Doubles of one sign are ordered as their exponents and then their
    mantissas are. *)
Lemma magnitude_compare (s1 s2 : bool) (m1 m2 : positive) (e1 e2 : Z) :
  valid_binary (S754_finite s1 m1 e1) = true ->
  valid_binary (S754_finite s2 m2 e2) = true ->
  match e1 ?= e2 with
  | Lt => Lt
  | Gt => Gt
  | Eq => Pos.compare_cont Eq m1 m2
  end
  = (Z.pos m1 * 2 ^ (e1 + 1074) ?= Z.pos m2 * 2 ^ (e2 + 1074)).
Proof.
  intros H1 H2.
  destruct (valid_finite s1 m1 e1 H1) as (He1 & Hm1 & Hn1).
  destruct (valid_finite s2 m2 e2 H2) as (He2 & Hm2 & Hn2).
  assert (Hstep : forall m m' e e',
             -1074 <= e -> e < e' -> Z.pos m < 2 ^ 53 -> 2 ^ 52 <= Z.pos m' ->
             Z.pos m * 2 ^ (e + 1074) < Z.pos m' * 2 ^ (e' + 1074)).
  { intros m m' e e' He Hlt Hm Hm'.
    assert (HP : 0 < 2 ^ (e + 1074)) by (apply Z.pow_pos_nonneg; lia).
    assert (HQ : 2 ^ (e + 1 + 1074) <= 2 ^ (e' + 1074))
      by (apply Z.pow_le_mono_r; lia).
    replace (e + 1 + 1074) with (1 + (e + 1074)) in HQ by lia.
    rewrite Z.pow_add_r in HQ by lia. change (2 ^ 1) with 2 in HQ.
    change (2 ^ 53) with (2 * 2 ^ 52) in Hm.
    set (P := 2 ^ (e + 1074)) in *. set (Q := 2 ^ (e' + 1074)) in *.
    set (T := 2 ^ 52) in *.
    assert (Z.pos m * P < 2 * T * P) by (apply Z.mul_lt_mono_pos_r; lia).
    assert (T * (2 * P) <= T * Q) by (apply Z.mul_le_mono_nonneg_l; lia).
    assert (T * Q <= Z.pos m' * Q) by (apply Z.mul_le_mono_nonneg_r; lia).
    lia. }
  destruct (Z.compare_spec e1 e2) as [He | He | He]; symmetry.
  - subst e2.
    assert (HP : 0 < 2 ^ (e1 + 1074)) by (apply Z.pow_pos_nonneg; lia).
    change (Pos.compare_cont Eq m1 m2) with (Z.pos m1 ?= Z.pos m2).
    destruct (Z.compare_spec (Z.pos m1) (Z.pos m2)) as [Hm | Hm | Hm].
    + apply Z.compare_eq_iff. rewrite Hm. reflexivity.
    + apply Z.compare_lt_iff. apply Z.mul_lt_mono_pos_r; assumption.
    + apply Z.compare_gt_iff. apply Z.mul_lt_mono_pos_r; assumption.
  - apply Z.compare_lt_iff. apply Hstep; lia.
  - apply Z.compare_gt_iff. apply Hstep; lia.
Qed.

(** [<=] on numbers is the order of their ranks. *)
Lemma SFleb_rank (x y : spec_float) :
  valid_binary x = true -> valid_binary y = true ->
  x <> S754_nan -> y <> S754_nan ->
  SFleb x y = (rank x <=? rank y).
Proof.
  intros Hx Hy Hnx Hny.
  assert (Hbig : 0 < 2 ^ 2200) by (apply Z.pow_pos_nonneg; lia).
  destruct x as [sx|sx| |sx mx ex]; [| |contradiction|];
    destruct y as [sy|sy| |sy my ey]; try contradiction;
    unfold SFleb; cbn [SFcompare rank].
  - reflexivity.
  - destruct sy; symmetry; [apply Z.leb_gt | apply Z.leb_le]; lia.
  - pose proof (magnitude_bounds sy my ey Hy).
    destruct sy; symmetry; [apply Z.leb_gt | apply Z.leb_le]; lia.
  - destruct sx; symmetry; [apply Z.leb_le | apply Z.leb_gt]; lia.
  - destruct sx, sy; symmetry;
      try (apply Z.leb_le; lia); try (apply Z.leb_gt; lia).
  - pose proof (magnitude_bounds sy my ey Hy).
    destruct sx, sy; symmetry;
      try (apply Z.leb_le; lia); try (apply Z.leb_gt; lia).
  - pose proof (magnitude_bounds sx mx ex Hx).
    destruct sx; symmetry; [apply Z.leb_le | apply Z.leb_gt]; lia.
  - pose proof (magnitude_bounds sx mx ex Hx).
    destruct sx, sy; symmetry;
      try (apply Z.leb_le; lia); try (apply Z.leb_gt; lia).
  - pose proof (magnitude_bounds sx mx ex Hx) as Hbx.
    pose proof (magnitude_bounds sy my ey Hy) as Hby.
    pose proof (magnitude_compare sx sy mx my ex ey Hx Hy) as Hc.
    set (A := Z.pos mx * 2 ^ (ex + 1074)) in *.
    set (B := Z.pos my * 2 ^ (ey + 1074)) in *.
    destruct sx, sy.
    + transitivity (B <=? A).
      * unfold Z.leb. rewrite (Z.compare_antisym A B), <- Hc.
        destruct (ex ?= ey); [destruct (Pos.compare_cont Eq mx my)| |]; reflexivity.
      * destruct (Z.leb_spec B A); symmetry; [apply Z.leb_le | apply Z.leb_gt]; lia.
    + symmetry. apply Z.leb_le. lia.
    + symmetry. apply Z.leb_gt. lia.
    + unfold Z.leb. rewrite <- Hc.
      destruct (ex ?= ey); [destruct (Pos.compare_cont Eq mx my)| |]; reflexivity.
Qed.

Lemma not_nan (a : float) : PrimFloat.is_nan a = false -> Prim2SF a <> S754_nan.
Proof.
  unfold PrimFloat.is_nan. rewrite FloatAxioms.eqb_spec. intros H E.
  rewrite E in H. discriminate H.
Qed.

(** On numbers the comparator [a - b] orders as [<=] does. *)
Lemma before_leb (a b : float) :
  PrimFloat.is_nan a = false -> PrimFloat.is_nan b = false ->
  Double.before a b = PrimFloat.leb a b.
Proof.
  intros Ha Hb. apply not_nan in Ha, Hb.
  rewrite FloatAxioms.leb_spec,
    (SFleb_rank _ _ (Prim2SF_valid a) (Prim2SF_valid b) Ha Hb).
  rewrite <- (SFsub_rank _ _ (Prim2SF_valid a) (Prim2SF_valid b) Ha Hb).
  unfold Double.before, PrimFloat.is_nan, notAbove.
  rewrite FloatAxioms.leb_spec, FloatAxioms.eqb_spec, sub_spec.
  reflexivity.
Qed.

Lemma leb_total (a b : float) :
  PrimFloat.is_nan a = false -> PrimFloat.is_nan b = false ->
  PrimFloat.leb a b = false -> PrimFloat.leb b a = true.
Proof.
  intros Ha Hb. apply not_nan in Ha, Hb.
  rewrite !FloatAxioms.leb_spec,
    (SFleb_rank _ _ (Prim2SF_valid a) (Prim2SF_valid b) Ha Hb),
    (SFleb_rank _ _ (Prim2SF_valid b) (Prim2SF_valid a) Hb Ha).
  intros H. apply Z.leb_gt in H. apply Z.leb_le. lia.
Qed.

Lemma leb_trans (a b c : float) :
  PrimFloat.is_nan a = false -> PrimFloat.is_nan b = false ->
  PrimFloat.is_nan c = false ->
  PrimFloat.leb a b = true -> PrimFloat.leb b c = true -> PrimFloat.leb a c = true.
Proof.
  intros Ha Hb Hc. apply not_nan in Ha, Hb, Hc.
  rewrite !FloatAxioms.leb_spec,
    (SFleb_rank _ _ (Prim2SF_valid a) (Prim2SF_valid b) Ha Hb),
    (SFleb_rank _ _ (Prim2SF_valid b) (Prim2SF_valid c) Hb Hc),
    (SFleb_rank _ _ (Prim2SF_valid a) (Prim2SF_valid c) Ha Hc).
  intros H1 H2. apply Z.leb_le in H1, H2. apply Z.leb_le. lia.
Qed.

(** A list of numbers is sorted in ascending order. *)
Lemma double_sorted_leb (scores : list float) :
  (forall s, In s scores -> PrimFloat.is_nan s = false) ->
  StronglySorted (fun a b => PrimFloat.leb a b = true)
                 (sortBy Double.before scores).
Proof.
  intros Hnum.
  assert (H : StronglySorted (fun a b => Double.before a b = true)
                             (sortBy Double.before scores)).
  { apply sortBy_sorted_on.
    - intros a b Ha Hb. rewrite !before_leb by auto. apply leb_total; auto.
    - intros a b c Ha Hb Hc. rewrite !before_leb by auto. apply leb_trans; auto. }
  assert (Hin : forall s, In s (sortBy Double.before scores) ->
                          PrimFloat.is_nan s = false).
  { intros s Hs. apply Hnum. apply sortBy_In in Hs. exact Hs. }
  induction H as [|x l Hs IH Hx]; constructor.
  - apply IH. intros s Hs'. apply Hin. right. exact Hs'.
  - rewrite Forall_forall in *. intros y Hy.
    rewrite <- before_leb; [apply Hx, Hy | apply Hin; left; reflexivity
                           | apply Hin; right; exact Hy].
Qed.

(** On a list of numbers the comparator is consistent. *)
Lemma numbers_consistent (scores : list float) :
  (forall s, In s scores -> PrimFloat.is_nan s = false) ->
  Double.consistentComparator scores = true.
Proof.
  intros Hnum. unfold Double.consistentComparator.
  apply forallb_forall. intros a Ha. apply forallb_forall. intros b Hb.
  apply andb_true_iff. split.
  - destruct (Double.before a b) eqn:Hab; [reflexivity|]. cbn [orb].
    rewrite before_leb in * by auto. apply leb_total; auto.
  - apply forallb_forall. intros c Hc.
    destruct (Double.before a b) eqn:Hab; [|reflexivity].
    destruct (Double.before b c) eqn:Hbc; [|reflexivity].
    cbn [andb implb]. rewrite before_leb in * by auto.
    apply (leb_trans a b c); auto.
Qed.

(** *** The percentile *)

(** [Math.floor] and [Math.ceil] on sample values, the smallest positive
    double among them. *)
Example double_floor_ceil_samples :
  let tiny := SF2Prim (S754_finite false 1 (-1074)) in
  Double.floor 2.5 = 2%float /\ Double.ceil 2.5 = 3%float
  /\ Double.floor 7 = 7%float /\ Double.ceil 7 = 7%float
  /\ Double.floor (-0.5) = (-1)%float /\ Double.ceil (-0.5) = (-0)%float
  /\ Double.floor 0.75 = 0%float /\ Double.ceil 0.75 = 1%float
  /\ Double.floor (-3.25) = (-4)%float /\ Double.ceil (-3.25) = (-3)%float
  /\ Double.floor 2251799813685248.5 = 2251799813685248%float
  /\ Double.ceil 2251799813685248.5 = 2251799813685249%float
  /\ Double.floor 4503599627370495.5 = 4503599627370495%float
  /\ Double.ceil 4503599627370495.5 = 4503599627370496%float
  /\ Double.floor 1e22 = 1e22%float /\ Double.ceil (-1e22) = (-1e22)%float
  /\ Double.floor tiny = 0%float /\ Double.ceil tiny = 1%float
  /\ Double.floor (- tiny) = (-1)%float /\ Double.ceil (- tiny) = (-0)%float
  /\ Double.floor (-0) = (-0)%float /\ Double.ceil 0 = 0%float
  /\ Double.floor infinity = infinity
  /\ Double.ceil neg_infinity = neg_infinity
  /\ PrimFloat.is_nan (Double.floor nan) = true.
Proof. vm_compute. repeat split; reflexivity. Qed.

(** Array reads by a number: positions, [-0], and what lies outside. *)
Example double_get_samples :
  Double.get [10; 20; 30]%float 1 = Double.Number 20
  /\ Double.get [10; 20; 30]%float (-0) = Double.Number 10
  /\ Double.get [10; 20; 30]%float 3 = Double.Undefined
  /\ Double.get [10; 20; 30]%float (-1) = Double.Undefined
  /\ Double.get [10; 20; 30]%float 1.5 = Double.Undefined
  /\ Double.get [10; 20; 30]%float 1e22 = Double.Undefined
  /\ Double.get [10; 20; 30]%float nan = Double.Undefined.
Proof. vm_compute. repeat split; reflexivity. Qed.

(** On the scores 0, 2 and 5 the percentiles 25 and 75 are the same number
    in double precision and in exact arithmetic. *)
Example double_agrees_at_quartiles :
  Double.calculatePercentile [0; 2; 5]%float 25 = Double.Number 1
  /\ jsEq (calculatePercentile [0%Q; 2%Q; 5%Q] 25%Q) (Num 1%Q)
  /\ Double.calculatePercentile [0; 2; 5]%float 75 = Double.Number 3.5
  /\ jsEq (calculatePercentile [0%Q; 2%Q; 5%Q] 75%Q) (Num (7 # 2)).
Proof. vm_compute. repeat split; reflexivity. Qed.

(** A percentile outside 0..100 reads past the ends of the array: above
    100 the result is [undefined] or [NaN], below 0 it is [NaN]. *)
Example double_out_of_range_samples :
  Double.calculatePercentile [10; 20; 30]%float 150 = Double.Undefined
  /\ (exists x, Double.calculatePercentile [10; 20; 30]%float 125 = Double.Number x
                /\ PrimFloat.is_nan x = true)
  /\ (exists x, Double.calculatePercentile [10; 20; 30]%float (-5) = Double.Number x
                /\ PrimFloat.is_nan x = true).
Proof.
  split; [vm_compute; reflexivity|].
  split; eexists; (split; [vm_compute; reflexivity | vm_compute; reflexivity]).
Qed.

(** C3. In the double-precision arithmetic of the code, for every
    percentile and every non-empty array of numbers, none of them [NaN]:
    the comparator [a - b] is consistent on the scores, so that [sort]
    defines its result; [calculatePercentile] sorts a copy of the scores
    in ascending order and takes [index = p/100 * (n - 1)], the quotient
    and the product each rounded to a double.  When the rounded index is
    a whole number [k] that is not negative, the result is the array
    element at [k].  When the rounded index is positive with a fractional
    part, its floor [k] and its ceiling [k + 1] differ and the result is
    the element at [k] times [1 - weight] plus the element at [k + 1]
    times [weight], where [weight] is the rounded [index - k].  In
    general the element at the floor is returned when floor and ceiling
    are equal and the weighted sum otherwise.  The percentile 25 of 10,
    20, 30, 40 is 17.5, the percentile 50 of the single score 5 is 5, and
    every percentile of the empty array is 0. *)
Theorem C3_percentile_in_doubles :
  (forall (scores : list float) (p : float),
      scores <> [] ->
      (forall s, In s scores -> PrimFloat.is_nan s = false) ->
      let sorted := sortBy Double.before scores in
      let index := Double.percentileIndex (List.length scores) p in
      let lower := Double.floor index in
      let upper := Double.ceil index in
      let weight := (index - lower)%float in
      Double.consistentComparator scores = true
      /\ Permutation scores sorted
      /\ StronglySorted (fun a b => PrimFloat.leb a b = true) sorted
      /\ (forall k,
             Double.toIndex index = Some k ->
             Double.calculatePercentile scores p = elementAt sorted k)
      /\ (forall m e,
             Prim2SF index = S754_finite false m e ->
             Double.whole index = false ->
             let k := Double.integerPart m e in
             lower = Double.ofZ k
             /\ upper = Double.ofZ (k + 1)
             /\ Double.calculatePercentile scores p =
                Double.Number
                  (Double.times (elementAt sorted k) (1 - weight)
                   + Double.times (elementAt sorted (k + 1)) weight)%float)
      /\ (PrimFloat.eqb lower upper = true ->
          Double.calculatePercentile scores p = Double.get sorted lower)
      /\ (PrimFloat.eqb lower upper = false ->
          Double.calculatePercentile scores p =
          Double.Number
            (Double.times (Double.get sorted lower) (1 - weight)
             + Double.times (Double.get sorted upper) weight)%float))
  /\ Double.calculatePercentile [10; 20; 30; 40]%float 25 = Double.Number 17.5
  /\ Double.calculatePercentile [5]%float 50 = Double.Number 5
  /\ (forall p, Double.calculatePercentile [] p = Double.Number 0).
Proof.
  split; [|split; [vm_compute; reflexivity|split; [vm_compute; reflexivity|reflexivity]]].
  intros scores p Hne Hnum sorted index lower upper weight.
  pose proof (double_calculatePercentile_nonempty scores p Hne) as E.
  cbv zeta in E. fold sorted index in E. fold lower upper in E. fold weight in E.
  split; [apply numbers_consistent, Hnum|].
  split; [apply sortBy_perm|].
  split; [apply double_sorted_leb, Hnum|].
  split.
  { intros k Hk.
    destruct (toIndex_whole index k Hk) as (Hfloor & Hceil & Hsame).
    rewrite E. unfold lower, upper. rewrite Hfloor, Hceil, Hsame.
    apply get_elementAt, Hk. }
  split.
  { intros m e Hindex Hwhole k.
    destruct (fraction_floor_ceil index false m e Hindex Hwhole)
      as (Hk & Hfloor & Hceil & Hdiff).
    fold k in Hk, Hfloor, Hceil. fold lower in Hfloor, Hdiff.
    fold upper in Hceil, Hdiff.
    split; [exact Hfloor|]. split; [exact Hceil|].
    rewrite E, Hdiff, Hfloor, Hceil.
    change (2 ^ 52) with 4503599627370496 in Hk.
    rewrite (get_elementAt sorted (Double.ofZ k) k),
            (get_elementAt sorted (Double.ofZ (k + 1)) (k + 1));
      [unfold weight; rewrite Hfloor; reflexivity
      |apply toIndex_ofZ; change (2 ^ 53) with 9007199254740992; lia..]. }
  split; intros Hb; rewrite E, Hb; reflexivity.
Qed.

Lemma C3_percentile_in_doubles_witness :
  let scores := [40; 10; 30; 20; 50]%float in
  let sorted := [10; 20; 30; 40; 50]%float in
  let index := Double.percentileIndex 5 30 in
  scores <> []
  /\ (forall s, In s scores -> PrimFloat.is_nan s = false)
  /\ Double.consistentComparator scores = true
  /\ StronglySorted (fun a b => PrimFloat.leb a b = true) sorted
  /\ Double.toIndex (Double.percentileIndex 5 50) = Some 2
  /\ Double.calculatePercentile scores 50 = Double.Number 30
  /\ Prim2SF index = S754_finite false 5404319552844595 (-52)
  /\ Double.whole index = false
  /\ Double.calculatePercentile scores 30 =
     Double.Number (20 * (1 - (index - 1)) + 30 * (index - 1))%float.
Proof.
  intros scores sorted index.
  assert (Hne : scores <> []) by discriminate.
  assert (Hnum : forall s, In s scores -> PrimFloat.is_nan s = false).
  { intros s [<- | [<- | [<- | [<- | [<- | []]]]]]; reflexivity. }
  assert (Hi : Double.toIndex (Double.percentileIndex 5 50) = Some 2)
    by (vm_compute; reflexivity).
  assert (Hf : Prim2SF index = S754_finite false 5404319552844595 (-52))
    by (vm_compute; reflexivity).
  assert (Hw : Double.whole index = false) by (vm_compute; reflexivity).
  destruct (proj1 C3_percentile_in_doubles scores 50%float Hne Hnum)
    as (Hcons & _ & Hsorted & Hwhole & _).
  destruct (proj1 C3_percentile_in_doubles scores 30%float Hne Hnum)
    as (_ & _ & _ & _ & Hfrac & _).
  split; [exact Hne|]. split; [exact Hnum|]. split; [exact Hcons|].
  split; [exact Hsorted|]. split; [exact Hi|].
  split; [exact (Hwhole 2 Hi)|]. split; [exact Hf|]. split; [exact Hw|].
  exact (proj2 (proj2 (Hfrac 5404319552844595%positive (-52) Hf Hw))).
Defined.

(** For 26 scores the index of the percentile 28 is 28/100 * 25 = 7, a
    whole number, and the element at position 7 of the sorted scores is
    0; the code computes the index in doubles, where 28/100 is rounded up
    and the product is the next double above 7, and returns a number
    above 0, interpolated between the elements at 7 and 8. *)
Lemma C3_rounded_index_counterexample :
  (percentileIndex (List.length manyScores) 28 == 7)%Q
  /\ forallb (fun s => negb (PrimFloat.is_nan s)) manyScores = true
  /\ sortBy Double.before manyScores = manyScores
  /\ elementAt manyScores 7 = Double.Number 0
  /\ PrimFloat.ltb 7 (Double.percentileIndex (List.length manyScores) 28) = true
  /\ Double.whole (Double.percentileIndex (List.length manyScores) 28) = false
  /\ Double.floor (Double.percentileIndex (List.length manyScores) 28) = 7%float
  /\ Double.ceil (Double.percentileIndex (List.length manyScores) 28) = 8%float
  /\ exists x, Double.calculatePercentile manyScores 28 = Double.Number x
               /\ PrimFloat.ltb 0 x = true.
Proof.
  split; [vm_compute; reflexivity|].
  split; [vm_compute; reflexivity|].
  split; [vm_compute; reflexivity|].
  split; [vm_compute; reflexivity|].
  split; [vm_compute; reflexivity|].
  split; [vm_compute; reflexivity|].
  split; [vm_compute; reflexivity|].
  split; [vm_compute; reflexivity|].
  eexists. split; vm_compute; reflexivity.
Qed.

(** ** Keyed association lists *)

Lemma existsb_eqb_In (k : string) (l : list string) :
  existsb (String.eqb k) l = true <-> In k l.
Proof.
  rewrite existsb_exists. split.
  - intros (x & Hx & E). apply String.eqb_eq in E. subst. exact Hx.
  - intros H. exists k. split; [exact H | apply String.eqb_refl].
Qed.

Lemma existsb_eqb_notIn (k : string) (l : list string) :
  existsb (String.eqb k) l = false <-> ~ In k l.
Proof.
  rewrite <- existsb_eqb_In. destruct (existsb (String.eqb k) l); split;
    intros; congruence.
Qed.

Lemma firstSeen_snoc (keys : list string) (k : string) :
  firstSeen (keys ++ [k]) = addKey (firstSeen keys) k.
Proof. unfold firstSeen. rewrite fold_left_app. reflexivity. Qed.

Lemma In_firstSeen (k : string) (keys : list string) :
  In k (firstSeen keys) <-> In k keys.
Proof.
  induction keys as [|k' keys IH] using rev_ind; [reflexivity|].
  rewrite firstSeen_snoc, in_app_iff. unfold addKey.
  destruct (existsb (String.eqb k') (firstSeen keys)) eqn:E.
  - apply existsb_eqb_In in E. rewrite IH. cbn. split; [tauto|].
    intros [H | [<- | []]]; [exact H | apply IH, E].
  - rewrite in_app_iff, IH. reflexivity.
Qed.

Lemma NoDup_firstSeen (keys : list string) : NoDup (firstSeen keys).
Proof.
  induction keys as [|k keys IH] using rev_ind; [constructor|].
  rewrite firstSeen_snoc. unfold addKey.
  destruct (existsb (String.eqb k) (firstSeen keys)) eqn:E; [exact IH|].
  apply existsb_eqb_notIn in E.
  apply NoDup_app; [exact IH | repeat constructor; intros [] |].
  intros x Hx [<- | []]. exact (E Hx).
Qed.

Section Keyed.
Context {V : Type}.
Variable f : string -> V.

Lemma getOwn_keyed (k : string) (keys : list string) :
  JsObject.getOwn k (map (fun k' => (k', f k')) keys) =
  if existsb (String.eqb k) keys then Some (f k) else None.
Proof.
  induction keys as [|k' keys IH]; [reflexivity|].
  cbn [map JsObject.getOwn existsb].
  destruct (String.eqb_spec k k') as [->|_]; [reflexivity | exact IH].
Qed.

Lemma assocSet_fresh (k : string) (v : V) (m : list (string * V)) :
  ~ In k (map fst m) -> assocSet k v m = (m ++ [(k, v)])%list.
Proof.
  induction m as [|[k' v'] m IH]; intros H; [reflexivity|].
  cbn [assocSet]. destruct (String.eqb_spec k k') as [->|_].
  - exfalso. apply H. left. reflexivity.
  - cbn [app]. rewrite IH; [reflexivity|]. intros Hin. apply H. right. exact Hin.
Qed.

Lemma assocSet_keyed_fresh (k : string) (v : V) (keys : list string) :
  ~ In k keys ->
  assocSet k v (map (fun k' => (k', f k')) keys) =
  (map (fun k' => (k', f k')) keys ++ [(k, v)])%list.
Proof.
  intros H. apply assocSet_fresh. rewrite map_map, map_id. exact H.
Qed.

Lemma assocSet_keyed (k : string) (v : V) (keys : list string) :
  NoDup keys -> In k keys ->
  assocSet k v (map (fun k' => (k', f k')) keys) =
  map (fun k' => (k', if String.eqb k' k then v else f k')) keys.
Proof.
  induction 1 as [|k' keys Hnot Hnd IH]; intros Hin; [destruct Hin|].
  cbn [map assocSet]. destruct (String.eqb_spec k k') as [->|Hne].
  - rewrite String.eqb_refl. f_equal.
    apply map_ext_in. intros x Hx.
    destruct (String.eqb_spec x k') as [->|_]; [contradiction | reflexivity].
  - destruct Hin as [->|Hin]; [contradiction|].
    destruct (String.eqb_spec k' k) as [->|_]; [contradiction|].
    f_equal. apply IH, Hin.
Qed.

Lemma getOwn_assocSet (k : string) (v : V) (m : list (string * V)) :
  JsObject.getOwn k (assocSet k v m) = Some v.
Proof.
  induction m as [|[k' v'] m IH]; cbn [assocSet JsObject.getOwn].
  - rewrite String.eqb_refl. reflexivity.
  - destruct (String.eqb_spec k k') as [->|Hne]; cbn [JsObject.getOwn].
    + rewrite String.eqb_refl. reflexivity.
    + destruct (String.eqb_spec k k'); [contradiction | exact IH].
Qed.

Lemma assocSet_twice (k : string) (v w : V) (m : list (string * V)) :
  assocSet k w (assocSet k v m) = assocSet k w m.
Proof.
  induction m as [|[k' v'] m IH]; cbn [assocSet].
  - rewrite String.eqb_refl. reflexivity.
  - destruct (String.eqb_spec k k') as [->|Hne]; cbn [assocSet].
    + rewrite String.eqb_refl. reflexivity.
    + destruct (String.eqb_spec k k'); [contradiction|]. rewrite IH. reflexivity.
Qed.

End Keyed.

(** ** Grouping by area *)

Lemma groupOf_snoc (l : list Accident) (a : Accident) (k : string) :
  groupOf (l ++ [a]) k =
  (groupOf l k ++ if String.eqb (area a) k then [a] else [])%list.
Proof.
  unfold groupOf. rewrite filter_app. cbn [filter].
  destruct (String.eqb (area a) k); reflexivity.
Qed.

Lemma groupOf_absent (l : list Accident) (k : string) :
  ~ In k (map area l) -> groupOf l k = [].
Proof.
  intros H. apply filter_none. intros r Hr.
  apply String.eqb_neq. intros <-. apply H, in_map, Hr.
Qed.

Lemma groupStep_spec (l : list Accident) (a : Accident) :
  JsObject.inherited (area a) = false ->
  groupStep (Normal (groupBySpec l)) a = Normal (groupBySpec (l ++ [a])).
Proof.
  intros Hord. unfold groupStep, groupBySpec, JsObject.get, JsObject.set.
  rewrite map_app. cbn [map]. rewrite firstSeen_snoc. unfold addKey.
  set (keys := firstSeen (map area l)).
  rewrite getOwn_keyed.
  destruct (existsb (String.eqb (area a)) keys) eqn:E.
  - rewrite getOwn_keyed, E. f_equal.
    apply existsb_eqb_In in E.
    rewrite assocSet_keyed by (try apply NoDup_firstSeen; exact E).
    apply map_ext. intros k. rewrite groupOf_snoc.
    destruct (String.eqb_spec k (area a)) as [->|Hne].
    + rewrite String.eqb_refl. reflexivity.
    + destruct (String.eqb_spec (area a) k) as [<-|_]; [contradiction|].
      rewrite app_nil_r. reflexivity.
  - rewrite Hord, getOwn_assocSet, assocSet_twice. f_equal.
    apply existsb_eqb_notIn in E.
    rewrite assocSet_keyed_fresh by exact E.
    rewrite map_app. cbn [map]. f_equal.
    + apply map_ext_in. intros k Hk. rewrite groupOf_snoc.
      destruct (String.eqb_spec (area a) k) as [<-|_]; [contradiction|].
      rewrite app_nil_r. reflexivity.
    + rewrite groupOf_snoc, String.eqb_refl, groupOf_absent; [reflexivity|].
      intros Hin. apply E, In_firstSeen, Hin.
Qed.

Lemma ordinaryAreas_app (l1 l2 : list Accident) :
  ordinaryAreas (l1 ++ l2) <-> ordinaryAreas l1 /\ ordinaryAreas l2.
Proof.
  unfold ordinaryAreas. split.
  - intros H. split; intros r Hr; apply H, in_app_iff; [left | right]; exact Hr.
  - intros [H1 H2] r Hr. apply in_app_iff in Hr. destruct Hr; auto.
Qed.

Lemma areaGroups_spec (records : list Accident) :
  ordinaryAreas records -> areaGroups records = Normal (groupBySpec records).
Proof.
  induction records as [|a l IH] using rev_ind; intros Hord; [reflexivity|].
  apply ordinaryAreas_app in Hord. destruct Hord as [Hl Ha].
  unfold areaGroups in *. rewrite fold_left_app. cbn [fold_left].
  rewrite (IH Hl). apply groupStep_spec, Ha. left. reflexivity.
Qed.

Lemma filter_all {A : Type} (p : A -> bool) (l : list A) :
  (forall x, In x l -> p x = true) -> filter p l = l.
Proof.
  intros H. apply forallb_filter_id, forallb_forall, H.
Qed.

Lemma filter_or_perm {A : Type} (p q : A -> bool) (l : list A) :
  (forall x, p x = true -> q x = true -> False) ->
  Permutation (filter p l ++ filter q l) (filter (fun x => p x || q x) l).
Proof.
  intros Hd. induction l as [|x l IH]; [constructor|].
  cbn [filter]. destruct (p x) eqn:Hp, (q x) eqn:Hq; cbn [orb app].
  - destruct (Hd x Hp Hq).
  - constructor. exact IH.
  - rewrite <- Permutation_middle. constructor. exact IH.
  - exact IH.
Qed.

Lemma filter_split_perm {A : Type} (p : A -> bool) (l : list A) :
  Permutation (filter p l ++ filter (fun x => negb (p x)) l) l.
Proof.
  rewrite filter_or_perm by (intros x H1 H2; rewrite H1 in H2; discriminate).
  rewrite filter_all; [reflexivity|].
  intros x _. destruct (p x); reflexivity.
Qed.

(** ** [Object.entries] *)

Section Entries.
Context {V : Type}.
Implicit Types o : JsObject.obj V.

Lemma entries_eq o :
  JsObject.entries o =
  (sortBy JsObject.indexBefore (filter isIndexKey o)
   ++ filter (fun e => negb (isIndexKey e)) o)%list.
Proof. reflexivity. Qed.

Lemma entries_perm o : Permutation (JsObject.entries o) o.
Proof.
  rewrite entries_eq, <- sortBy_perm. apply filter_split_perm.
Qed.

Lemma entries_no_index o :
  (forall e, In e o -> isIndexKey e = false) -> JsObject.entries o = o.
Proof.
  intros H. rewrite entries_eq, filter_none by exact H.
  rewrite filter_all; [reflexivity|].
  intros e He. rewrite (H e He). reflexivity.
Qed.

Lemma entries_singleton (e : string * V) : JsObject.entries [e] = [e].
Proof.
  rewrite entries_eq. cbn [filter]. destruct (isIndexKey e); reflexivity.
Qed.

Lemma entries_index_sorted o :
  StronglySorted
    (fun a b => JsObject.decimalValue (fst a) 0 <= JsObject.decimalValue (fst b) 0)
    (sortBy (@JsObject.indexBefore V) (filter isIndexKey o)).
Proof.
  assert (H : StronglySorted (fun a b => @JsObject.indexBefore V a b = true)
                (sortBy JsObject.indexBefore (filter isIndexKey o))).
  { apply sortBy_sorted; unfold JsObject.indexBefore.
    - intros a b Hab. apply Z.leb_le. apply Z.leb_gt in Hab. lia.
    - intros a b c Hab Hbc. apply Z.leb_le. apply Z.leb_le in Hab, Hbc. lia. }
  induction H as [|x l Hs IH Hx]; constructor; [exact IH|].
  rewrite Forall_forall in *. intros y Hy. apply Z.leb_le, Hx, Hy.
Qed.

End Entries.

(** ** The grouping is a partition *)

Lemma groups_partition (records : list Accident) (keys : list string) :
  NoDup keys ->
  Permutation (flat_map (groupOf records) keys)
    (filter (fun r => existsb (String.eqb (area r)) keys) records).
Proof.
  induction 1 as [|k keys Hnot Hnd IH]; cbn [flat_map existsb].
  - rewrite filter_none by reflexivity. constructor.
  - rewrite IH. unfold groupOf. apply filter_or_perm.
    intros r Hk Hin. apply String.eqb_eq in Hk. apply existsb_eqb_In in Hin.
    subst k. contradiction.
Qed.

Lemma groupBySpec_partition (records : list Accident) :
  Permutation (List.concat (map snd (groupBySpec records))) records.
Proof.
  unfold groupBySpec. rewrite map_map. cbn [snd].
  rewrite <- flat_map_concat_map, groups_partition by apply NoDup_firstSeen.
  rewrite filter_all; [reflexivity|].
  intros r Hr. apply existsb_eqb_In, In_firstSeen, in_map, Hr.
Qed.

Lemma groupBySpec_keys (records : list Accident) :
  map fst (groupBySpec records) = firstSeen (map area records).
Proof. unfold groupBySpec. rewrite map_map. apply map_id. Qed.

Lemma groupBySpec_In (records : list Accident) (k : string) (g : list Accident) :
  In (k, g) (groupBySpec records) ->
  g = groupOf records k /\ In k (map area records).
Proof.
  unfold groupBySpec. rewrite in_map_iff. intros (k' & E & Hk).
  inversion E; subst. split; [reflexivity | apply In_firstSeen, Hk].
Qed.

Lemma groupOf_nonempty (records : list Accident) (k : string) :
  In k (map area records) -> groupOf records k <> [].
Proof.
  rewrite in_map_iff. intros (r & <- & Hr) E.
  assert (Hin : In r (groupOf records (area r))).
  { apply filter_In. split; [exact Hr | apply String.eqb_refl]. }
  rewrite E in Hin. destruct Hin.
Qed.

Lemma groupByArea_spec (records : list Accident) :
  ordinaryAreas records ->
  groupByArea records = Normal (JsObject.entries (groupBySpec records)).
Proof.
  intros H. unfold groupByArea. rewrite (areaGroups_spec records H). reflexivity.
Qed.

(** C7, as the code has it.  For every record list none of whose areas is
    the name of a member of [Object.prototype], grouping by area is a
    partition: the groups are those of [groupBySpec] up to their order,
    every record is in exactly the group keyed by its area, records keep
    their input order inside a group, the group sizes add up to the input
    length, and the keys are enumerated with the array-index names first,
    in ascending numeric order, followed by the other names in first-seen
    order; when no area is an array index the keys are in first-seen
    order.  The empty input yields the empty mapping. *)
Theorem C7_grouping_partition :
  (forall records,
      ordinaryAreas records ->
      exists groups,
        groupByArea records = Normal groups
        /\ Permutation groups (groupBySpec records)
        /\ NoDup (map fst groups)
        /\ (forall k g, In (k, g) groups -> g = groupOf records k /\ g <> [])
        /\ (forall k g r, In (k, g) groups -> In r g -> area r = k)
        /\ (forall r, In r records -> In (area r, groupOf records (area r)) groups)
        /\ Permutation (List.concat (map snd groups)) records
        /\ list_sum (map (fun e => List.length (snd e)) groups) = List.length records
        /\ groups =
           (sortBy JsObject.indexBefore (filter isIndexKey (groupBySpec records))
            ++ filter (fun e => negb (isIndexKey e)) (groupBySpec records))%list
        /\ StronglySorted
             (fun a b : string * list Accident =>
                JsObject.decimalValue (fst a) 0 <= JsObject.decimalValue (fst b) 0)
             (sortBy JsObject.indexBefore (filter isIndexKey (groupBySpec records)))
        /\ ((forall r, In r records -> JsObject.isArrayIndex (area r) = false) ->
            groups = groupBySpec records))
  /\ groupByArea [] = Normal [].
Proof.
  split; [|reflexivity].
  intros records Hord. exists (JsObject.entries (groupBySpec records)).
  pose proof (entries_perm (groupBySpec records)) as Hperm.
  assert (Hcat : Permutation
                   (List.concat (map snd (JsObject.entries (groupBySpec records))))
                   records).
  { etransitivity; [|apply groupBySpec_partition].
    rewrite <- !flat_map_concat_map. rewrite Hperm. reflexivity. }
  split; [apply groupByArea_spec, Hord|].
  split; [exact Hperm|].
  split.
  { apply (Permutation_NoDup (l := map fst (groupBySpec records))).
    - symmetry. apply Permutation_map, Hperm.
    - rewrite groupBySpec_keys. apply NoDup_firstSeen. }
  split.
  { intros k g Hin. apply (Permutation_in _ Hperm) in Hin.
    apply groupBySpec_In in Hin. destruct Hin as [-> Hk].
    split; [reflexivity | apply groupOf_nonempty, Hk]. }
  split.
  { intros k g r Hin Hr. apply (Permutation_in _ Hperm) in Hin.
    apply groupBySpec_In in Hin. destruct Hin as [-> _].
    apply filter_In in Hr. apply String.eqb_eq, Hr. }
  split.
  { intros r Hr. apply (Permutation_in _ (Permutation_sym Hperm)).
    unfold groupBySpec. apply in_map_iff. exists (area r).
    split; [reflexivity | apply In_firstSeen, in_map, Hr]. }
  split; [exact Hcat|].
  split.
  { rewrite <- (Permutation_length Hcat), length_concat, map_map. reflexivity. }
  split; [apply entries_eq|].
  split; [apply entries_index_sorted|].
  intros Hno. apply entries_no_index. intros [k g] Hin.
  apply groupBySpec_In in Hin. destruct Hin as [_ Hk].
  apply in_map_iff in Hk. destruct Hk as (r & <- & Hr). apply Hno, Hr.
Qed.

Lemma C7_grouping_partition_witness :
  let records := [ mkAccident "Saket" "08:00" (Some 1) None None;
                   mkAccident "15" "09:00" None None None;
                   mkAccident "Saket" "10:00" None None None;
                   mkAccident "7" "11:00" None None None ] in
  ordinaryAreas records
  /\ exists groups,
       groupByArea records = Normal groups
       /\ list_sum (map (fun e => List.length (snd e)) groups) = List.length records
       /\ Permutation (List.concat (map snd groups)) records.
Proof.
  intros records.
  assert (Hord : ordinaryAreas records).
  { intros r [<- | [<- | [<- | [<- | []]]]]; reflexivity. }
  split; [exact Hord|].
  destruct (proj1 C7_grouping_partition records Hord)
    as (groups & E & _ & _ & _ & _ & _ & Hcat & Hsum & _).
  exists groups. repeat split; assumption.
Defined.

(** C7, counterexample.  With the areas 2 and 1, in this order, the groups
    come out keyed 1 then 2, which is not the first-seen order. *)
Lemma C7_key_order_counterexample :
  groupByArea numberedAreas =
    Normal [ ("1", [mkAccident "1" "09:00" None None None]);
             ("2", [mkAccident "2" "08:00" None None None]) ]
  /\ firstSeen (map area numberedAreas) = ["2"; "1"]
  /\ groupByArea numberedAreas <> Normal (groupBySpec numberedAreas).
Proof.
  split; [reflexivity|]. split; [reflexivity|].
  vm_compute. discriminate.
Qed.

(** An area named like a member of [Object.prototype] makes the grouping
    throw. *)
Lemma groupByArea_inherited_area_throws :
  groupByArea [mkAccident "constructor" "08:00" None None None] = TypeError.
Proof. reflexivity. Qed.

(** ** Cause ranking *)

Lemma causeOf_orString (r : Accident) :
  orString (causePrimary r) "Unknown" = causeOf r.
Proof.
  unfold causeOf, orString. destruct (causePrimary r) as [[|c s]|]; reflexivity.
Qed.

Lemma occurrences_snoc (k c : string) (causes : list string) :
  occurrences k (causes ++ [c]) =
  occurrences k causes + if String.eqb k c then 1 else 0.
Proof.
  unfold occurrences. rewrite count_occ_app. cbn [count_occ].
  destruct (string_dec c k) as [->|Hne].
  - rewrite String.eqb_refl. lia.
  - destruct (String.eqb_spec k c) as [->|_]; [contradiction | lia].
Qed.

Lemma occurrences_absent (k : string) (causes : list string) :
  ~ In k causes -> occurrences k causes = 0.
Proof.
  intros H. unfold occurrences.
  rewrite (proj1 (count_occ_not_In string_dec causes k) H). reflexivity.
Qed.

Lemma causeStep_spec (causes : list string) (a : Accident) :
  JsObject.inherited (causeOf a) = false ->
  causeStep (Some (tally causes)) a = Some (tally (causes ++ [causeOf a])).
Proof.
  intros Hord. unfold causeStep, tally, JsObject.get, JsObject.set.
  rewrite causeOf_orString, firstSeen_snoc. unfold addKey.
  set (c := causeOf a) in *. set (keys := firstSeen causes).
  rewrite getOwn_keyed.
  destruct (existsb (String.eqb c) keys) eqn:E.
  - f_equal. cbn [orZero]. apply existsb_eqb_In in E.
    rewrite assocSet_keyed by (try apply NoDup_firstSeen; exact E).
    apply map_ext. intros k. rewrite occurrences_snoc.
    destruct (String.eqb_spec k c) as [->|_]; f_equal; lia.
  - rewrite Hord. f_equal. cbn [orZero]. apply existsb_eqb_notIn in E.
    rewrite assocSet_keyed_fresh by exact E.
    rewrite map_app. cbn [map]. f_equal.
    + apply map_ext_in. intros k Hk. rewrite occurrences_snoc.
      destruct (String.eqb_spec k c) as [->|_]; [contradiction|].
      f_equal. lia.
    + rewrite occurrences_snoc, String.eqb_refl, occurrences_absent; [reflexivity|].
      intros Hin. apply E, In_firstSeen, Hin.
Qed.

Lemma causeCounts_spec (records : list Accident) :
  ordinaryCauses records ->
  causeCounts records = Some (tally (map causeOf records)).
Proof.
  induction records as [|a l IH] using rev_ind; intros Hord; [reflexivity|].
  assert (Hl : ordinaryCauses l)
    by (intros r Hr; apply Hord, in_app_iff; left; exact Hr).
  assert (Ha : JsObject.inherited (causeOf a) = false)
    by (apply Hord, in_app_iff; right; left; reflexivity).
  unfold causeCounts in *. rewrite fold_left_app. cbn [fold_left].
  rewrite (IH Hl), map_app. apply causeStep_spec, Ha.
Qed.

Lemma countBefore_sorted (l : list (string * Z)) :
  StronglySorted (fun a b => snd b <= snd a) (sortBy countBefore l).
Proof.
  assert (H : StronglySorted (fun a b => countBefore a b = true) (sortBy countBefore l)).
  { apply sortBy_sorted; unfold countBefore.
    - intros a b Hab. apply Z.leb_le. apply Z.leb_gt in Hab. lia.
    - intros a b c Hab Hbc. apply Z.leb_le. apply Z.leb_le in Hab, Hbc. lia. }
  induction H as [|x l' Hs IH Hx]; constructor; [exact IH|].
  rewrite Forall_forall in *. intros y Hy.
  specialize (Hx y Hy). unfold countBefore in Hx. apply Z.leb_le in Hx. lia.
Qed.

Lemma countBefore_stable (n : Z) (l : list (string * Z)) :
  filter (hasCount n) (sortBy countBefore l) = filter (hasCount n) l.
Proof.
  apply sortBy_stable. unfold hasCount, countBefore. intros x y Hx Hy.
  apply Z.eqb_eq in Hx, Hy. apply Z.leb_le. lia.
Qed.

(** C8, as the code has it.  For every record list none of whose causes
    is the name of a member of [Object.prototype], [getTopCauses] returns
    the first five entries of a ranking of the tally (causes compared as
    written, Unknown for an empty or absent cause) that is in descending
    count order, causes of equal count standing in the order in which
    [Object.entries] enumerates the tally: array-index names first, in
    ascending numeric order, then the other causes in first-encountered
    order.  When no cause is an array index, equal counts are in
    first-encountered order.  The causes A, B, A, C, B, A give A 3, B 2,
    C 1; an absent, an empty and an Unknown cause are tallied together,
    apart from unknown in lower case. *)
Theorem C8_top_causes_ranking :
  (forall records,
      ordinaryCauses records ->
      exists ranked,
        getTopCauses records = Some (firstn 5 ranked)
        /\ Permutation ranked (tally (map causeOf records))
        /\ StronglySorted (fun a b => snd b <= snd a) ranked
        /\ (forall n,
               filter (hasCount n) ranked =
               filter (hasCount n) (JsObject.entries (tally (map causeOf records))))
        /\ ((forall r, In r records -> JsObject.isArrayIndex (causeOf r) = false) ->
            forall n,
              filter (hasCount n) ranked =
              filter (hasCount n) (tally (map causeOf records))))
  /\ getTopCauses (map withCause ["A"; "B"; "A"; "C"; "B"; "A"]) =
     Some [("A", 3); ("B", 2); ("C", 1)]
  /\ getTopCauses
       [ mkAccident "Saket" "08:00" None None None;
         withCause "unknown"; withCause ""; withCause "Unknown" ] =
     Some [("Unknown", 3); ("unknown", 1)].
Proof.
  split; [|split; reflexivity].
  intros records Hord.
  exists (sortBy countBefore (JsObject.entries (tally (map causeOf records)))).
  split.
  { unfold getTopCauses. rewrite (causeCounts_spec records Hord). reflexivity. }
  split.
  { rewrite <- sortBy_perm. apply entries_perm. }
  split; [apply countBefore_sorted|].
  split; [intros n; apply countBefore_stable|].
  intros Hno n. rewrite countBefore_stable, entries_no_index; [reflexivity|].
  intros [k c] Hin. unfold tally in Hin. apply in_map_iff in Hin.
  destruct Hin as (k' & E & Hk). inversion E; subst.
  apply In_firstSeen, in_map_iff in Hk. destruct Hk as (r & <- & Hr).
  apply Hno, Hr.
Qed.

Lemma C8_top_causes_ranking_witness :
  let records := map withCause ["Overspeeding"; "Fog"; "Overspeeding"; "Drunk driving"] in
  ordinaryCauses records
  /\ exists ranked,
       getTopCauses records = Some (firstn 5 ranked)
       /\ StronglySorted (fun a b => snd b <= snd a) ranked.
Proof.
  intros records.
  assert (Hord : ordinaryCauses records).
  { intros r [<- | [<- | [<- | [<- | []]]]]; reflexivity. }
  split; [exact Hord|].
  destruct (proj1 C8_top_causes_ranking records Hord)
    as (ranked & E & _ & Hs & _).
  exists ranked. split; assumption.
Defined.

(** C8, counterexample.  With the causes 2 and 1, in this order and once
    each, the ranking is 1 then 2: the tie is not broken by
    first-encountered order. *)
Lemma C8_tie_order_counterexample :
  map causeOf numberedCauses = ["2"; "1"]
  /\ tally (map causeOf numberedCauses) = [("2", 1); ("1", 1)]
  /\ getTopCauses numberedCauses = Some [("1", 1); ("2", 1)].
Proof. repeat split; reflexivity. Qed.

(** A cause named like a member of [Object.prototype] is not tallied as a
    number. *)
Lemma getTopCauses_inherited_cause :
  getTopCauses [withCause "toString"] = None.
Proof. reflexivity. Qed.

(** ** Strings *)

Lemma prefix_spec (p s : string) :
  prefix p s = true <-> exists post, s = p ++ post.
Proof.
  revert s. induction p as [|c p IH]; intros s.
  - split; [intros _; exists s; reflexivity | destruct s; reflexivity].
  - destruct s as [|d s]; cbn [prefix].
    + split; [discriminate | intros (post & E); discriminate E].
    + destruct (ascii_dec c d) as [->|Hne].
      * rewrite IH. split; intros (post & E); exists post.
        -- cbn. rewrite E. reflexivity.
        -- cbn in E. inversion E. reflexivity.
      * split; [discriminate|]. intros (post & E). cbn in E.
        inversion E. congruence.
Qed.

Lemma includes_spec (s sub : string) :
  includes s sub = true <-> contains s sub.
Proof.
  unfold contains. induction s as [|c s IH]; cbn [includes].
  - rewrite prefix_spec. split.
    + intros (post & E). exists "", post. exact E.
    + intros (pre & post & E). destruct pre; [|discriminate E].
      exists post. exact E.
  - rewrite orb_true_iff, prefix_spec, IH. split.
    + intros [(post & E) | (pre & post & E)].
      * exists "", post. exact E.
      * exists (String c pre), post. cbn. rewrite E. reflexivity.
    + intros (pre & post & E). destruct pre as [|d pre].
      * left. exists post. exact E.
      * right. cbn in E. inversion E. exists pre, post. reflexivity.
Qed.

Lemma toLowerCase_app (a b : string) :
  toLowerCase (a ++ b) = toLowerCase a ++ toLowerCase b.
Proof.
  induction a as [|c a IH]; [reflexivity|]. cbn. rewrite IH. reflexivity.
Qed.

Lemma toLowerCase_split (s a b : string) :
  toLowerCase s = a ++ b ->
  exists a' b', s = a' ++ b' /\ toLowerCase a' = a /\ toLowerCase b' = b.
Proof.
  revert s. induction a as [|c a IH]; intros s E.
  - exists "", s. repeat split. exact E.
  - destruct s as [|d s]; [discriminate E|]. cbn in E. inversion E as [[Hc Hs]].
    destruct (IH s Hs) as (a' & b' & -> & Ha & Hb).
    exists (String d a'), b'. cbn [toLowerCase]. rewrite Ha.
    repeat split. exact Hb.
Qed.

Lemma includes_toLowerCase (s word : string) :
  includes (toLowerCase s) word = true <-> containsNoCase s word.
Proof.
  rewrite includes_spec. unfold contains, containsNoCase. split.
  - intros (pre & post & E).
    destruct (toLowerCase_split _ _ _ E) as (pre' & rest & -> & _ & Hrest).
    destruct (toLowerCase_split _ _ _ Hrest) as (mid & post' & -> & Hmid & _).
    exists pre', mid, post'. split; [reflexivity | exact Hmid].
  - intros (pre & mid & post & -> & <-).
    exists (toLowerCase pre), (toLowerCase post).
    rewrite !toLowerCase_app. reflexivity.
Qed.

Lemma split_head (s : string) :
  exists rest, split ":"%char s = beforeColon s :: rest.
Proof.
  induction s as [|c s (rest & IH)]; cbn [split beforeColon].
  - exists []. reflexivity.
  - destruct (Ascii.eqb c ":"%char); [eexists; reflexivity|].
    rewrite IH. eexists; reflexivity.
Qed.

(** ** Temporal parser *)

Lemma extractHour_no_colon (t : string) :
  ~ contains t ":" -> extractHour t = Some 0.
Proof.
  intros H. unfold extractHour.
  destruct (includes t ":") eqn:E; [|reflexivity].
  apply includes_spec in E. contradiction.
Qed.

Lemma extractHour_colon (t : string) :
  contains t ":" ->
  let parsed := parseInt (beforeColon t) in
  extractHour t =
  if includes (toLowerCase t) "pm" && negb (isTwelve parsed)
  then option_map (fun h => h + 12) parsed
  else if includes (toLowerCase t) "am" && isTwelve parsed then Some 0
  else parsed.
Proof.
  intros H parsed. unfold extractHour.
  apply includes_spec in H. rewrite H.
  destruct (split_head t) as (rest & ->). reflexivity.
Qed.

Lemma isTwelve_spec (hour : option Z) : isTwelve hour = true <-> hour = Some 12.
Proof.
  destruct hour as [h|]; cbn [isTwelve].
  - rewrite Z.eqb_eq. split; congruence.
  - split; discriminate.
Qed.

(** ** Hourly histogram *)

Lemma incrementAt_length (i : nat) (counts : list Z) :
  List.length (incrementAt i counts) = List.length counts.
Proof.
  revert i. induction counts as [|c cs IH]; intros [|i]; cbn; try reflexivity.
  rewrite IH. reflexivity.
Qed.

Lemma incrementAt_nth (i j : nat) (counts : list Z) :
  (j < List.length counts)%nat ->
  nth i (incrementAt j counts) 0 =
  nth i counts 0 + if (i =? j)%nat then 1 else 0.
Proof.
  revert i j. induction counts as [|c cs IH]; intros i j Hj; [cbn in Hj; lia|].
  destruct j as [|j], i as [|i]; cbn [incrementAt nth Nat.eqb]; try lia.
  apply IH. cbn in Hj. lia.
Qed.

Lemma hourStep_length (counts : list Z) (r : Accident) :
  List.length (hourStep counts r) = List.length counts.
Proof.
  unfold hourStep. destruct (extractHour (time r)) as [h|]; [|reflexivity].
  destruct ((0 <=? h) && (h <? 24)); [apply incrementAt_length | reflexivity].
Qed.

Lemma hourStep_nth (counts : list Z) (r : Accident) (i : nat) :
  List.length counts = 24%nat -> (i < 24)%nat ->
  nth i (hourStep counts r) 0 =
  nth i counts 0 + if hourIs (Z.of_nat i) r then 1 else 0.
Proof.
  intros Hlen Hi. unfold hourStep, hourIs.
  destruct (extractHour (time r)) as [h|]; [|lia].
  destruct (Z.leb_spec 0 h); cbn [andb].
  - destruct (Z.ltb_spec h 24).
    + rewrite incrementAt_nth by lia.
      destruct (Nat.eqb_spec i (Z.to_nat h)), (Z.eqb_spec h (Z.of_nat i)); lia.
    + destruct (Z.eqb_spec h (Z.of_nat i)); lia.
  - destruct (Z.eqb_spec h (Z.of_nat i)); lia.
Qed.

Lemma hourStep_out_of_range (counts : list Z) (r : Accident) :
  hourOutOfRange r -> hourStep counts r = counts.
Proof.
  intros H. unfold hourStep.
  destruct (extractHour (time r)) as [h|] eqn:E; [|reflexivity].
  destruct (H h E).
  - destruct (Z.leb_spec 0 h); [lia | reflexivity].
  - destruct (Z.ltb_spec h 24); [lia | rewrite andb_false_r; reflexivity].
Qed.

Lemma fold_hourStep (l : list Accident) (counts : list Z) :
  List.length counts = 24%nat ->
  List.length (fold_left hourStep l counts) = 24%nat
  /\ forall i, (i < 24)%nat ->
       nth i (fold_left hourStep l counts) 0 =
       nth i counts 0 + countIf (hourIs (Z.of_nat i)) l.
Proof.
  revert counts. induction l as [|r l IH]; intros counts Hlen.
  - split; [exact Hlen|]. intros i _. unfold countIf. cbn. lia.
  - cbn [fold_left].
    destruct (IH (hourStep counts r)) as [H1 H2];
      [rewrite hourStep_length; exact Hlen|].
    split; [exact H1|]. intros i Hi.
    rewrite (H2 i Hi), hourStep_nth, countIf_cons by assumption. lia.
Qed.

Lemma getHourlyDistribution_bucket (l : list Accident) (h : Z) :
  0 <= h < 24 ->
  nth (Z.to_nat h) (getHourlyDistribution l) (0, 0) = (h, countIf (hourIs h) l).
Proof.
  intros Hh. unfold getHourlyDistribution.
  destruct (fold_hourStep l (repeat 0 24) eq_refl) as [Hlen Hnth].
  rewrite Hlen, combine_nth by (rewrite length_map, length_seq; lia).
  rewrite Hnth by lia.
  change 0 with (Z.of_nat 0) at 1. rewrite map_nth, seq_nth by lia.
  rewrite Z2Nat.id by lia. f_equal; [lia|].
  assert (E : nth (Z.to_nat h) (repeat 0 24) 0 = 0).
  { destruct (nth_in_or_default (Z.to_nat h) (repeat 0 24) 0) as [Hin|E];
      [apply repeat_spec in Hin|]; assumption. }
  rewrite E. lia.
Qed.

Lemma combine_fst {A B : Type} (a : list A) (b : list B) :
  List.length a = List.length b -> map fst (combine a b) = a.
Proof.
  revert b. induction a as [|x a IH]; intros [|y b] H; try discriminate H;
    [reflexivity|].
  cbn. rewrite IH; [reflexivity|]. cbn in H. lia.
Qed.

Lemma getHourlyDistribution_hours (l : list Accident) :
  map fst (getHourlyDistribution l) = map Z.of_nat (seq 0 24).
Proof.
  unfold getHourlyDistribution.
  destruct (fold_hourStep l (repeat 0 24) eq_refl) as [Hlen _].
  rewrite Hlen. apply combine_fst. rewrite length_map, length_seq, Hlen.
  reflexivity.
Qed.

Lemma getHourlyDistribution_skip (l1 l2 : list Accident) (r : Accident) :
  hourOutOfRange r ->
  getHourlyDistribution (l1 ++ r :: l2) = getHourlyDistribution (l1 ++ l2).
Proof.
  intros H. unfold getHourlyDistribution.
  rewrite !fold_left_app. cbn [fold_left].
  rewrite (hourStep_out_of_range _ r H). reflexivity.
Qed.

(** C6. The hour extracted from a time string with no colon is 0.
    Otherwise it is the integer parsed from the part before the first
    colon, plus 12 when the string contains pm in any letter case and the
    parsed hour is not 12, or 0 when the string contains am in any letter
    case and the parsed hour is 12, and the parsed hour itself in every
    other case.  The four sample strings give 14, 0, 12 and 9.  A record
    whose hour is not a number or lies outside 0..23 changes no bucket of
    the histogram, whose bucket [h] counts exactly the records whose hour
    is [h]. *)
Theorem C6_hour_extraction :
  (forall t, ~ contains t ":" -> extractHour t = Some 0)
  /\ (forall t,
         contains t ":" ->
         let parsed := parseInt (beforeColon t) in
         (containsNoCase t "pm" -> parsed <> Some 12 ->
          extractHour t = option_map (fun h => h + 12) parsed)
         /\ (containsNoCase t "am" -> parsed = Some 12 ->
             extractHour t = Some 0)
         /\ (~ containsNoCase t "pm" \/ parsed = Some 12 ->
             ~ containsNoCase t "am" \/ parsed <> Some 12 ->
             extractHour t = parsed))
  /\ extractHour "2:30 PM" = Some 14
  /\ extractHour "12:00 AM" = Some 0
  /\ extractHour "12:00 PM" = Some 12
  /\ extractHour "09:00" = Some 9
  /\ (forall l1 l2 r,
         hourOutOfRange r ->
         getHourlyDistribution (l1 ++ r :: l2) = getHourlyDistribution (l1 ++ l2))
  /\ (extractHour "25:00" = Some 25
      /\ getHourlyDistribution [atTime "25:00"] = getHourlyDistribution [])
  /\ (forall l,
         map fst (getHourlyDistribution l) = map Z.of_nat (seq 0 24)
         /\ forall h, 0 <= h < 24 ->
              nth (Z.to_nat h) (getHourlyDistribution l) (0, 0)
              = (h, countIf (hourIs h) l)).
Proof.
  split; [exact extractHour_no_colon|].
  split.
  { intros t Hc parsed. rewrite (extractHour_colon t Hc). fold parsed.
    split; [|split].
    - intros Hpm H12. apply includes_toLowerCase in Hpm. rewrite Hpm.
      destruct (isTwelve parsed) eqn:E; [|reflexivity].
      apply isTwelve_spec in E. contradiction.
    - intros Ham H12. apply includes_toLowerCase in Ham. rewrite Ham.
      apply isTwelve_spec in H12. rewrite H12, andb_false_r. reflexivity.
    - intros Hpm Ham.
      assert (E1 : includes (toLowerCase t) "pm" && negb (isTwelve parsed) = false).
      { apply andb_false_iff. destruct Hpm as [Hpm | H12].
        - left. apply not_true_iff_false. rewrite includes_toLowerCase. exact Hpm.
        - right. apply isTwelve_spec in H12. rewrite H12. reflexivity. }
      assert (E2 : includes (toLowerCase t) "am" && isTwelve parsed = false).
      { apply andb_false_iff. destruct Ham as [Ham | H12].
        - left. apply not_true_iff_false. rewrite includes_toLowerCase. exact Ham.
        - right. apply not_true_iff_false. rewrite isTwelve_spec. exact H12. }
      rewrite E1, E2. reflexivity. }
  do 4 (split; [reflexivity|]).
  split; [exact getHourlyDistribution_skip|].
  split; [split; reflexivity|].
  intros l. split; [apply getHourlyDistribution_hours|].
  intros h Hh. apply getHourlyDistribution_bucket, Hh.
Qed.

Lemma C6_hour_extraction_witness :
  (~ contains "noon" ":" /\ extractHour "noon" = Some 0)
  /\ (contains "7:45 pm" ":" /\ containsNoCase "7:45 pm" "pm"
      /\ parseInt (beforeColon "7:45 pm") <> Some 12
      /\ extractHour "7:45 pm" = Some 19)
  /\ (hourOutOfRange (atTime "13:05 PM")
      /\ getHourlyDistribution [atTime "08:00"; atTime "13:05 PM"]
         = getHourlyDistribution [atTime "08:00"]).
Proof.
  assert (H1 : ~ contains "noon" ":").
  { intros H. apply includes_spec in H. discriminate H. }
  assert (H2 : contains "7:45 pm" ":") by (exists "7", "45 pm"; reflexivity).
  assert (H3 : containsNoCase "7:45 pm" "pm")
    by (exists "7:45 ", "pm", ""; split; reflexivity).
  assert (H4 : parseInt (beforeColon "7:45 pm") <> Some 12)
    by (vm_compute; discriminate).
  assert (H5 : hourOutOfRange (atTime "13:05 PM")).
  { intros h E. vm_compute in E. inversion E. lia. }
  split; [split; [exact H1 | apply (proj1 C6_hour_extraction), H1]|].
  split.
  - split; [exact H2|]. split; [exact H3|]. split; [exact H4|].
    apply (proj1 (proj1 (proj2 C6_hour_extraction) "7:45 pm" H2) H3 H4).
  - split; [exact H5|].
    apply (proj1 (proj2 (proj2 (proj2 (proj2 (proj2 (proj2 C6_hour_extraction))))))
             [atTime "08:00"] [] (atTime "13:05 PM") H5).
Defined.

(** ** Recommendation lookup *)

Lemma matches_spec (cause : string) (c : Category) :
  matches cause c = true <-> exists k, In k (keywords c) /\ contains cause k.
Proof.
  unfold matches. rewrite existsb_exists.
  split; intros (k & Hk & H); exists k; (split; [exact Hk|]);
    apply includes_spec; exact H.
Qed.

Lemma firstMatch_first (cause : string) (pre post : list Category) (c : Category) :
  (forall c', In c' pre -> matches cause c' = false) ->
  matches cause c = true ->
  firstMatch cause (pre ++ c :: post) = (forAuthorities c, forCivilians c).
Proof.
  intros Hpre Hc. induction pre as [|c' pre IH]; cbn [app firstMatch].
  - rewrite Hc. reflexivity.
  - rewrite (Hpre c' (or_introl eq_refl)). apply IH.
    intros x Hx. apply Hpre. right. exact Hx.
Qed.

Lemma firstMatch_none (cause : string) (cs : list Category) :
  (forall c, In c cs -> matches cause c = false) ->
  firstMatch cause cs = (governmentDefault, civilianDefault).
Proof.
  induction cs as [|c cs IH]; intros H; [reflexivity|].
  cbn [firstMatch]. rewrite (H c (or_introl eq_refl)).
  apply IH. intros x Hx. apply H. right. exact Hx.
Qed.

Lemma suggestions_recommend (dominantCause : string) :
  (getGovernmentSuggestions dominantCause, getCivilianSuggestions dominantCause)
  = recommend dominantCause.
Proof.
  unfold recommend, getGovernmentSuggestions, getCivilianSuggestions, categories.
  cbv zeta. generalize (toLowerCase dominantCause). intros cause.
  cbn [firstMatch matches keywords existsb forAuthorities forCivilians].
  repeat match goal with
         | |- context [includes cause ?k] =>
             destruct (includes cause k); cbn [orb]; try reflexivity
         end.
Qed.

Lemma firstMatch_nonempty (cause : string) :
  fst (firstMatch cause categories) <> [] /\ snd (firstMatch cause categories) <> [].
Proof.
  unfold categories. cbn [firstMatch].
  repeat match goal with
         | |- context [matches cause ?c] => destruct (matches cause c)
         end; split; discriminate.
Qed.

(** C9. Both lookups lowercase the dominant cause and return the advisory
    list of the first category, in the order weather/rain/fog,
    speed/overspeeding, inattention/distract/red light/signal,
    alcohol/drunk, pedestrian/jaywalking, overtaking/reckless, one of
    whose keywords is a substring of it; with no such category they return
    the default list, as for Unrelated Mystery Cause; the returned lists
    are never empty. *)
Theorem C9_recommendation_lookup :
  (forall dominantCause,
      getGovernmentSuggestions dominantCause = fst (recommend dominantCause)
      /\ getCivilianSuggestions dominantCause = snd (recommend dominantCause))
  /\ map keywords categories =
     [ ["weather"; "rain"; "fog"];
       ["speed"; "overspeeding"];
       ["inattention"; "distract"; "red light"; "signal"];
       ["alcohol"; "drunk"];
       ["pedestrian"; "jaywalking"];
       ["overtaking"; "reckless"] ]
  /\ (forall cause c,
         matches cause c = true <-> exists k, In k (keywords c) /\ contains cause k)
  /\ (forall dominantCause pre c post,
         categories = (pre ++ c :: post)%list ->
         (forall c', In c' pre -> matches (toLowerCase dominantCause) c' = false) ->
         matches (toLowerCase dominantCause) c = true ->
         getGovernmentSuggestions dominantCause = forAuthorities c
         /\ getCivilianSuggestions dominantCause = forCivilians c)
  /\ (forall dominantCause,
         (forall c, In c categories -> matches (toLowerCase dominantCause) c = false) ->
         getGovernmentSuggestions dominantCause = governmentDefault
         /\ getCivilianSuggestions dominantCause = civilianDefault)
  /\ (forall dominantCause,
         contains (toLowerCase dominantCause) "distraction" ->
         (forall c, In c (firstn 2 categories) ->
                    matches (toLowerCase dominantCause) c = false) ->
         getGovernmentSuggestions dominantCause = governmentAttention
         /\ getCivilianSuggestions dominantCause = civilianAttention)
  /\ getGovernmentSuggestions "Unrelated Mystery Cause" = governmentDefault
  /\ getCivilianSuggestions "Unrelated Mystery Cause" = civilianDefault
  /\ (forall dominantCause,
         getGovernmentSuggestions dominantCause <> []
         /\ getCivilianSuggestions dominantCause <> []).
Proof.
  assert (Hrec : forall d,
             getGovernmentSuggestions d = fst (recommend d)
             /\ getCivilianSuggestions d = snd (recommend d)).
  { intros d. rewrite <- suggestions_recommend. split; reflexivity. }
  split; [exact Hrec|].
  split; [reflexivity|].
  split; [exact matches_spec|].
  split.
  { intros d pre c post E Hpre Hc. destruct (Hrec d) as [-> ->].
    unfold recommend. rewrite E, (firstMatch_first _ pre post c Hpre Hc).
    split; reflexivity. }
  split.
  { intros d H. destruct (Hrec d) as [-> ->].
    unfold recommend. rewrite (firstMatch_none _ _ H). split; reflexivity. }
  split.
  { intros d (pre & post & E) H. destruct (Hrec d) as [-> ->].
    unfold recommend.
    change categories with
      (firstn 2 categories
       ++ mkCategory ["inattention"; "distract"; "red light"; "signal"]
            governmentAttention civilianAttention
          :: skipn 3 categories)%list.
    rewrite firstMatch_first; [split; reflexivity | exact H |].
    apply matches_spec. exists "distract". split; [right; left; reflexivity|].
    exists pre, ("ion" ++ post). rewrite E. reflexivity. }
  split; [reflexivity|]. split; [reflexivity|].
  intros d. destruct (Hrec d) as [-> ->]. apply firstMatch_nonempty.
Qed.

Lemma C9_recommendation_lookup_witness :
  let d := "Driver Distraction near Signal" in
  contains (toLowerCase d) "distraction"
  /\ (forall c, In c (firstn 2 categories) -> matches (toLowerCase d) c = false)
  /\ getGovernmentSuggestions d = governmentAttention
  /\ getCivilianSuggestions d = civilianAttention.
Proof.
  intros d.
  assert (H1 : contains (toLowerCase d) "distraction")
    by (exists "driver ", " near signal"; reflexivity).
  assert (H2 : forall c, In c (firstn 2 categories) -> matches (toLowerCase d) c = false).
  { intros c [<- | [<- | []]]; reflexivity. }
  split; [exact H1|]. split; [exact H2|].
  apply (proj1 (proj2 (proj2 (proj2 (proj2 (proj2 C9_recommendation_lookup))))) d H1 H2).
Defined.

(** The claim lists the third category with the keywords inattention,
    distraction and signal; the code tests inattention, distract, red
    light and signal.  For Red light jumping the claim's categories give
    the default lists and the code the lists of the third category; for
    Distracted drunk driver the claim's categories give the alcohol lists
    (distraction does not occur in distracted) and the code again the
    lists of the third category. *)
Lemma C9_keyword_counterexample :
  map keywords claimedCategories <> map keywords categories
  /\ firstMatch (toLowerCase "Red light jumping") claimedCategories
     = (governmentDefault, civilianDefault)
  /\ getGovernmentSuggestions "Red light jumping" = governmentAttention
  /\ getCivilianSuggestions "Red light jumping" = civilianAttention
  /\ firstMatch (toLowerCase "Distracted drunk driver") claimedCategories
     = (governmentAlcohol, civilianAlcohol)
  /\ getGovernmentSuggestions "Distracted drunk driver" = governmentAttention
  /\ getCivilianSuggestions "Distracted drunk driver" = civilianAttention
  /\ governmentAttention <> governmentDefault
  /\ civilianAttention <> civilianDefault
  /\ governmentAttention <> governmentAlcohol
  /\ civilianAttention <> civilianAlcohol.
Proof.
  split; [discriminate|].
  split; [reflexivity|]. split; [reflexivity|]. split; [reflexivity|].
  split; [reflexivity|]. split; [reflexivity|]. split; [reflexivity|].
  repeat split; discriminate.
Qed.

(** ** Classifier: population-relative thresholds *)

Lemma classify_at_least_population (group : list Accident) (population : list Q) :
  group <> [] -> population <> [] ->
  (forall s, In s population -> (s <= inject_Z (calculateSeverityScore group))%Q) ->
  calculateSafetyLevelFromAccidents group (Some population) = high_risk.
Proof.
  intros Hg Hp Hmax.
  destruct (calculatePercentile_le_bound population 75%Q
              (inject_Z (calculateSeverityScore group)) Hp) as (q & E & Hq);
    [discriminate | discriminate | exact Hmax |].
  unfold calculateSafetyLevelFromAccidents.
  destruct group as [|r group]; [contradiction|].
  destruct population as [|s population]; [contradiction|].
  cbn [List.length Nat.eqb]. rewrite E. cbn [jsGe].
  apply Qle_bool_iff in Hq. rewrite Hq. reflexivity.
Qed.

Lemma firstSeen_constant (a : string) (keys : list string) :
  keys <> [] -> (forall k, In k keys -> k = a) -> firstSeen keys = [a].
Proof.
  induction keys as [|k keys IH] using rev_ind; intros Hne Hall; [contradiction|].
  rewrite firstSeen_snoc.
  assert (k = a) as -> by (apply Hall, in_app_iff; right; left; reflexivity).
  destruct keys as [|k' keys']; [reflexivity|].
  rewrite IH; [|discriminate|].
  - unfold addKey. cbn [existsb]. rewrite String.eqb_refl. reflexivity.
  - intros x Hx. apply Hall, in_app_iff. left. exact Hx.
Qed.

Lemma groupBySpec_single_area (a : string) (dataset : list Accident) :
  dataset <> [] -> (forall r, In r dataset -> area r = a) ->
  groupBySpec dataset = [(a, dataset)].
Proof.
  intros Hne Hall. unfold groupBySpec.
  rewrite (firstSeen_constant a).
  - cbn [map]. unfold groupOf. rewrite filter_all; [reflexivity|].
    intros r Hr. rewrite (Hall r Hr). apply String.eqb_refl.
  - destruct dataset; [contradiction | discriminate].
  - intros k Hk. apply in_map_iff in Hk. destruct Hk as (r & <- & Hr).
    apply Hall, Hr.
Qed.

Lemma calculateAreaScores_single_area (a : string) (dataset : list Accident) :
  dataset <> [] -> (forall r, In r dataset -> area r = a) ->
  JsObject.inherited a = false ->
  calculateAreaScores dataset =
  Normal {| areaScores := [(a, calculateSeverityScore dataset)];
            allScores := [inject_Z (calculateSeverityScore dataset)] |}.
Proof.
  intros Hne Hall Hord. unfold calculateAreaScores.
  rewrite groupByArea_spec
    by (intros r Hr; rewrite (Hall r Hr); exact Hord).
  rewrite (groupBySpec_single_area a dataset Hne Hall), entries_singleton.
  reflexivity.
Qed.

(** C10. When comparison scores are supplied, a non-empty group whose
    score is at least every comparison score is high-risk, the percentile
    75 of the scores never exceeding a bound on them.  In particular a
    group is high-risk when all comparison scores equal its score, as for
    the only area of a dataset, however small the score. *)
Theorem C10_population_maximum_is_high_risk :
  (forall group population,
      group <> [] -> population <> [] ->
      (forall s, In s population -> (s <= inject_Z (calculateSeverityScore group))%Q) ->
      calculateSafetyLevelFromAccidents group (Some population) = high_risk)
  /\ (forall population bound,
         population <> [] ->
         (forall s, In s population -> (s <= bound)%Q) ->
         exists q, calculatePercentile population 75%Q = Num q /\ (q <= bound)%Q)
  /\ (forall group population,
         group <> [] -> population <> [] ->
         (forall s, In s population -> (s == inject_Z (calculateSeverityScore group))%Q) ->
         calculateSafetyLevelFromAccidents group (Some population) = high_risk)
  /\ (forall dataset a,
         dataset <> [] -> (forall r, In r dataset -> area r = a) ->
         JsObject.inherited a = false ->
         exists scores,
           calculateAreaScores dataset = Normal scores
           /\ allScores scores = [inject_Z (calculateSeverityScore dataset)]
           /\ calculateSafetyLevelFromAccidents dataset (Some (allScores scores))
              = high_risk)
  /\ (let lone := [mkAccident "Saket" "08:00" (Some 0) (Some "Minor") None] in
      calculateSeverityScore lone = 0
      /\ calculateSafetyLevelFromAccidents lone (Some [0%Q]) = high_risk).
Proof.
  split; [exact classify_at_least_population|].
  split.
  { intros population bound Hp Hb.
    apply calculatePercentile_le_bound; [exact Hp | discriminate | discriminate | exact Hb]. }
  split.
  { intros group population Hg Hp Heq.
    apply classify_at_least_population; [exact Hg | exact Hp |].
    intros s Hs. rewrite (Heq s Hs). apply Qle_refl. }
  split; [|split; reflexivity].
  intros dataset a Hne Hall Hord.
  eexists. split; [apply (calculateAreaScores_single_area a); assumption|].
  cbn [allScores]. split; [reflexivity|].
  apply classify_at_least_population; [exact Hne | discriminate |].
  intros s [<- | []]. apply Qle_refl.
Qed.

Lemma C10_population_maximum_is_high_risk_witness :
  let group := [ mkAccident "Dwarka" "21:15" (Some 1) (Some "Severe") None ] in
  let population := [15%Q; 2%Q; 7%Q; 0%Q] in
  group <> [] /\ population <> []
  /\ (forall s, In s population -> (s <= inject_Z (calculateSeverityScore group))%Q)
  /\ calculateSafetyLevelFromAccidents group (Some population) = high_risk.
Proof.
  intros group population.
  assert (Hg : group <> []) by discriminate.
  assert (Hp : population <> []) by discriminate.
  assert (Hmax : forall s, In s population ->
                           (s <= inject_Z (calculateSeverityScore group))%Q).
  { intros s [<- | [<- | [<- | [<- | []]]]]; vm_compute; discriminate. }
  split; [exact Hg|]. split; [exact Hp|]. split; [exact Hmax|].
  apply (proj1 C10_population_maximum_is_high_risk group population Hg Hp Hmax).
Defined.

(** ** Dashboard *)

Lemma fold_assocSet_fresh {V W : Type} (h : string -> V -> W)
    (l : list (string * V)) (m : list (string * W)) :
  NoDup (map fst m ++ map fst l) ->
  fold_left (fun acc '(k, v) => assocSet k (h k v) acc) l m =
  (m ++ map (fun '(k, v) => (k, h k v)) l)%list.
Proof.
  revert m. induction l as [|[k v] l IH]; intros m Hnd.
  - cbn. rewrite app_nil_r. reflexivity.
  - cbn [fold_left map].
    assert (Hk : ~ In k (map fst m)).
    { intros Hin. apply NoDup_remove_2 in Hnd. apply Hnd, in_app_iff.
      left. exact Hin. }
    rewrite (assocSet_fresh k _ m Hk), IH.
    + rewrite <- app_assoc. reflexivity.
    + rewrite map_app, <- app_assoc. exact Hnd.
Qed.

Lemma areaAnalytics_spec (records : list Accident) :
  ordinaryAreas records ->
  areaAnalytics records =
  Normal (map (fun '(k, g) =>
                 (k, (Z.of_nat (List.length g),
                      calculateSafetyLevelFromAccidents g None)))
              (JsObject.entries (groupBySpec records))).
Proof.
  intros Hord. unfold areaAnalytics. rewrite (groupByArea_spec records Hord).
  f_equal.
  rewrite (fold_assocSet_fresh
             (fun _ g => (Z.of_nat (List.length g),
                          calculateSafetyLevelFromAccidents g None))).
  - reflexivity.
  - cbn [map app].
    apply (Permutation_NoDup (l := map fst (groupBySpec records))).
    + symmetry. apply Permutation_map, entries_perm.
    + rewrite groupBySpec_keys. apply NoDup_firstSeen.
Qed.

(** Every level the dashboard shows is the absolute-threshold
    classification of the area's own records. *)
Lemma dashboardLevels_thresholds (records : list Accident) :
  ordinaryAreas records ->
  dashboardLevels records =
  Normal (map (fun e => (fst e, calculateSafetyLevelFromAccidents (snd e) None))
              (JsObject.entries (groupBySpec records))).
Proof.
  intros Hord. unfold dashboardLevels. rewrite (areaAnalytics_spec records Hord).
  f_equal. rewrite map_map. apply map_ext. intros [k g]. reflexivity.
Qed.

(** C2, at the dataset [threeAreas].  The dashboard classifies the three
    areas, which score 0, 2 and 5, as safe, safe and safe: it calls the
    classifier without comparison scores.  Classified against the scores
    of all areas they are safe, moderate and high-risk. *)
Theorem C2_dashboard_omits_population :
  areaAnalytics threeAreas =
    Normal [ ("Saket", (1, safe)); ("Rohini", (1, safe)); ("Dwarka", (1, safe)) ]
  /\ dashboardLevels threeAreas =
     Normal [ ("Saket", safe); ("Rohini", safe); ("Dwarka", safe) ]
  /\ policyA threeAreas =
     Normal [ ("Saket", safe); ("Rohini", moderate); ("Dwarka", high_risk) ]
  /\ dashboardLevels threeAreas <> policyA threeAreas.
Proof.
  split; [reflexivity|]. split; [reflexivity|].
  split; [vm_compute; reflexivity|].
  vm_compute. discriminate.
Qed.

(** * Further properties of the code *)

(** ** Scores of combined and reordered groups *)

Lemma calculateSeverityScore_cons (r : Accident) (l : list Accident) :
  calculateSeverityScore (r :: l) =
  calculateSeverityScore [r] + calculateSeverityScore l.
Proof.
  pose proof (calculateSeverityScore_insert [] l r) as H1.
  pose proof (calculateSeverityScore_insert [] [] r) as H2.
  cbn [app] in H1, H2. change (calculateSeverityScore []) with 0 in H2. lia.
Qed.

Lemma score_app (l1 l2 : list Accident) :
  calculateSeverityScore (l1 ++ l2) =
  calculateSeverityScore l1 + calculateSeverityScore l2.
Proof.
  induction l1 as [|r l1 IH]; [reflexivity|].
  rewrite <- app_comm_cons, calculateSeverityScore_cons, IH.
  rewrite (calculateSeverityScore_cons r l1). lia.
Qed.

(** The score of two groups put together is the sum of their scores. *)
Theorem calculateSeverityScore_app (l1 l2 : list Accident) :
  calculateSeverityScore (l1 ++ l2) =
  calculateSeverityScore l1 + calculateSeverityScore l2.
Proof. exact (score_app l1 l2). Qed.

Lemma score_permutation (l l' : list Accident) :
  Permutation l l' -> calculateSeverityScore l = calculateSeverityScore l'.
Proof.
  induction 1 as [|r l l' _ IH|r r' l|l l' l'' _ IH1 _ IH2].
  - reflexivity.
  - rewrite (calculateSeverityScore_cons r l), (calculateSeverityScore_cons r l'). lia.
  - rewrite (calculateSeverityScore_cons r' (r :: l)),
      (calculateSeverityScore_cons r (r' :: l)),
      (calculateSeverityScore_cons r l), (calculateSeverityScore_cons r' l). lia.
  - lia.
Qed.

(** The score does not depend on the order of the records. *)
Theorem calculateSeverityScore_permutation (l l' : list Accident) :
  Permutation l l' -> calculateSeverityScore l = calculateSeverityScore l'.
Proof. exact (score_permutation l l'). Qed.

Lemma calculateSeverityScore_permutation_witness :
  let a := mkAccident "Saket" "08:00" (Some 2) (Some "Fatal") None in
  let b := mkAccident "Rohini" "09:00" None (Some "moderate") None in
  Permutation [a; b; a] [b; a; a]
  /\ calculateSeverityScore [a; b; a] = calculateSeverityScore [b; a; a].
Proof.
  intros a b.
  assert (H : Permutation [a; b; a] [b; a; a]) by apply perm_swap.
  split; [exact H | exact (calculateSeverityScore_permutation _ _ H)].
Defined.

Lemma score_single_nonneg (r : Accident) :
  (forall f, fatalities r = Some f -> 0 <= f) -> 0 <= calculateSeverityScore [r].
Proof.
  intros H. pose proof (calculateSeverityScore_insert [] [] r) as E.
  cbn [app] in E. change (calculateSeverityScore []) with 0 in E.
  assert (0 <= orZero (fatalities r)).
  { destruct (fatalities r) as [f|]; cbn [orZero]; [apply H; reflexivity | lia]. }
  destruct (severeOrFatal r), (severityIs "moderate" r); lia.
Qed.

Lemma score_nonneg (l : list Accident) :
  nonNegativeFatalities l -> 0 <= calculateSeverityScore l.
Proof.
  induction l as [|r l IH]; intros H; [reflexivity|].
  rewrite calculateSeverityScore_cons.
  assert (0 <= calculateSeverityScore [r]).
  { apply score_single_nonneg. intros f Hf. apply (H r f); [left; reflexivity | exact Hf]. }
  assert (0 <= calculateSeverityScore l).
  { apply IH. intros r' f Hr'. apply (H r' f). right. exact Hr'. }
  lia.
Qed.

(** With no negative fatality count the score is not negative, and adding
    records to a group never lowers its score. *)
Theorem calculateSeverityScore_grows (l extra : list Accident) :
  nonNegativeFatalities l -> nonNegativeFatalities extra ->
  0 <= calculateSeverityScore l
  /\ calculateSeverityScore l <= calculateSeverityScore (l ++ extra).
Proof.
  intros Hl He. rewrite score_app.
  pose proof (score_nonneg l Hl). pose proof (score_nonneg extra He). lia.
Qed.

Lemma calculateSeverityScore_grows_witness :
  let l := [ mkAccident "Saket" "08:00" (Some 1) (Some "severe") None ] in
  let extra := [ mkAccident "Saket" "09:00" None (Some "minor") None;
                 mkAccident "Saket" "10:00" (Some 0) (Some "Moderate") None ] in
  nonNegativeFatalities l /\ nonNegativeFatalities extra
  /\ 0 <= calculateSeverityScore l
  /\ calculateSeverityScore l <= calculateSeverityScore (l ++ extra).
Proof.
  intros l extra.
  assert (Hl : nonNegativeFatalities l).
  { intros r f [<- | []] E; inversion E; lia. }
  assert (He : nonNegativeFatalities extra).
  { intros r f [<- | [<- | []]] E; inversion E; lia. }
  split; [exact Hl|]. split; [exact He|].
  exact (calculateSeverityScore_grows l extra Hl He).
Defined.

(** ** The classifier is monotonic *)

Lemma jsGe_mono (s s' : Z) (v : jsnum) :
  s <= s' -> jsGe (inject_Z s) v = true -> jsGe (inject_Z s') v = true.
Proof.
  intros Hs. destruct v as [q| |]; cbn [jsGe]; try discriminate.
  rewrite !Qle_bool_iff. intros H. apply Qle_trans with (inject_Z s); [exact H|].
  rewrite <- Zle_Qle. exact Hs.
Qed.

Lemma classify_rank_mono (groupA groupB : list Accident)
    (population : option (list Q)) :
  groupA <> [] ->
  calculateSeverityScore groupB <= calculateSeverityScore groupA ->
  levelRank (calculateSafetyLevelFromAccidents groupB population)
  <= levelRank (calculateSafetyLevelFromAccidents groupA population).
Proof.
  intros HA Hs. unfold calculateSafetyLevelFromAccidents.
  destruct groupA as [|a groupA]; [contradiction|].
  set (sA := calculateSeverityScore (a :: groupA)) in *.
  cbn [List.length Nat.eqb].
  destruct groupB as [|b groupB].
  { cbn [List.length Nat.eqb levelRank].
    destruct population as [[|s pop]|];
      repeat match goal with
             | |- context [if ?c then _ else _] => destruct c
             end; cbn [levelRank]; lia. }
  set (sB := calculateSeverityScore (b :: groupB)) in *.
  cbn [List.length Nat.eqb].
  assert (Hthr : levelRank (if 50 <=? sB then high_risk
                            else if 20 <=? sB then moderate else safe)
                 <= levelRank (if 50 <=? sA then high_risk
                               else if 20 <=? sA then moderate else safe)).
  { destruct (Z.leb_spec 50 sB), (Z.leb_spec 50 sA),
      (Z.leb_spec 20 sB), (Z.leb_spec 20 sA); cbn [levelRank]; lia. }
  destruct population as [[|s pop]|]; try exact Hthr.
  set (p75 := calculatePercentile (s :: pop) 75%Q).
  set (p25 := calculatePercentile (s :: pop) 25%Q).
  pose proof (jsGe_mono sB sA p75 Hs) as H75.
  pose proof (jsGe_mono sB sA p25 Hs) as H25.
  destruct (jsGe (inject_Z sB) p75).
  - rewrite (H75 eq_refl). lia.
  - destruct (jsGe (inject_Z sB) p25).
    + rewrite (H25 eq_refl). destruct (jsGe (inject_Z sA) p75); cbn [levelRank]; lia.
    + destruct (jsGe (inject_Z sA) p75), (jsGe (inject_Z sA) p25); cbn [levelRank]; lia.
Qed.

(** For the same comparison scores, present or not, a non-empty group
    scoring at least as much as another group is never classified lower
    than it. *)
Theorem classifier_monotonic (groupA groupB : list Accident)
    (population : option (list Q)) :
  groupA <> [] ->
  calculateSeverityScore groupB <= calculateSeverityScore groupA ->
  levelRank (calculateSafetyLevelFromAccidents groupB population)
  <= levelRank (calculateSafetyLevelFromAccidents groupA population).
Proof. exact (classify_rank_mono groupA groupB population). Qed.

Lemma classifier_monotonic_witness :
  let groupA := [ mkAccident "Saket" "08:00" (Some 3) (Some "fatal") None ] in
  let groupB := [ mkAccident "Rohini" "09:00" None (Some "moderate") None ] in
  groupA <> []
  /\ calculateSeverityScore groupB <= calculateSeverityScore groupA
  /\ levelRank (calculateSafetyLevelFromAccidents groupB (Some [2%Q; 35%Q; 9%Q]))
     <= levelRank (calculateSafetyLevelFromAccidents groupA (Some [2%Q; 35%Q; 9%Q])).
Proof.
  intros groupA groupB.
  assert (HA : groupA <> []) by discriminate.
  assert (Hs : calculateSeverityScore groupB <= calculateSeverityScore groupA)
    by (vm_compute; discriminate).
  split; [exact HA|]. split; [exact Hs|].
  exact (classifier_monotonic groupA groupB (Some [2%Q; 35%Q; 9%Q]) HA Hs).
Defined.

(** Adding records without negative fatality counts to a group never
    lowers its level, whatever the comparison scores. *)
Theorem classifier_grows (l extra : list Accident) (population : option (list Q)) :
  nonNegativeFatalities extra ->
  levelRank (calculateSafetyLevelFromAccidents l population)
  <= levelRank (calculateSafetyLevelFromAccidents (l ++ extra) population).
Proof.
  intros He. destruct l as [|r l].
  - rewrite classify_empty. cbn [levelRank].
    destruct (calculateSafetyLevelFromAccidents ([] ++ extra) population);
      cbn [levelRank]; lia.
  - apply classify_rank_mono; [discriminate|].
    rewrite score_app.
    pose proof (score_nonneg extra He). lia.
Qed.

Lemma classifier_grows_witness :
  let l := [ mkAccident "Saket" "08:00" (Some 1) (Some "severe") None ] in
  let extra := [ mkAccident "Saket" "09:00" (Some 4) (Some "fatal") None ] in
  nonNegativeFatalities extra
  /\ levelRank (calculateSafetyLevelFromAccidents l None)
     <= levelRank (calculateSafetyLevelFromAccidents (l ++ extra) None).
Proof.
  intros l extra.
  assert (He : nonNegativeFatalities extra).
  { intros r f [<- | []] E; inversion E; lia. }
  split; [exact He | exact (classifier_grows l extra None He)].
Defined.

(** ** Percentiles: bounds, extremes and percentiles out of range *)

Lemma percentile_at_integral_index (scores : list Q) (p : Q) (k : Z) :
  scores <> [] ->
  (percentileIndex (List.length scores) p == inject_Z k)%Q ->
  calculatePercentile scores p = at_ (sortBy Qle_bool scores) k.
Proof.
  intros Hne Hk. rewrite (calculatePercentile_nonempty scores p Hne). cbv zeta.
  rewrite sortBy_length.
  assert (Hf : Qfloor (percentileIndex (List.length scores) p) = k)
    by (rewrite Hk; apply Qfloor_Z).
  assert (Hc : Qceiling (percentileIndex (List.length scores) p) = k)
    by (rewrite Hk; apply Qceiling_Z).
  rewrite Hf, Hc, Z.eqb_refl. reflexivity.
Qed.

Lemma sorted_first_min (l : list Q) :
  StronglySorted Qle l -> forall s, In s l -> (element l 0 <= s)%Q.
Proof.
  intros Hs s Hin. destruct Hs as [|x l Hs Hx]; [destruct Hin|].
  unfold element. cbn. destruct Hin as [<- | Hin]; [apply Qle_refl|].
  rewrite Forall_forall in Hx. apply Hx, Hin.
Qed.

Lemma sorted_last_max_nat (l : list Q) :
  StronglySorted Qle l ->
  forall s, In s l -> (s <= nth (List.length l - 1) l 0)%Q.
Proof.
  induction 1 as [|x l Hs IH Hx]; intros s Hin; [destruct Hin|].
  destruct l as [|y l].
  - destruct Hin as [<- | []]. apply Qle_refl.
  - change (nth (List.length (x :: y :: l) - 1) (x :: y :: l) 0%Q)
      with (nth (List.length l) (y :: l) 0%Q).
    assert (IH' : forall s, In s (y :: l) -> (s <= nth (List.length l) (y :: l) 0)%Q).
    { intros s' Hs'. specialize (IH s' Hs'). cbn [List.length] in IH.
      rewrite Nat.sub_1_r in IH. exact IH. }
    destruct Hin as [<- | Hin]; [|apply IH', Hin].
    apply Qle_trans with y.
    + rewrite Forall_forall in Hx. apply Hx. left. reflexivity.
    + apply IH'. left. reflexivity.
Qed.

Lemma sorted_last_max (l : list Q) :
  StronglySorted Qle l ->
  forall s, In s l -> (s <= element l (Z.of_nat (List.length l) - 1))%Q.
Proof.
  intros Hs s Hin. unfold element.
  replace (Z.to_nat (Z.of_nat (List.length l) - 1)) with (List.length l - 1)%nat
    by lia.
  apply sorted_last_max_nat; assumption.
Qed.

Lemma calculatePercentile_ge_bound (scores : list Q) (p bound : Q) :
  scores <> [] -> (0 <= p)%Q -> (p <= 100)%Q ->
  (forall s, In s scores -> (bound <= s)%Q) ->
  exists q, calculatePercentile scores p = Num q /\ (bound <= q)%Q.
Proof.
  intros Hne Hp0 Hp1 Hb.
  destruct (calculatePercentile_in_range scores p Hne Hp0 Hp1)
    as (q & a & b & w & E & Ia & Ib & Hw0 & Hw1 & Hq & _).
  exists q. split; [exact E|].
  pose proof (Hb a Ia) as Ha. pose proof (Hb b Ib) as Hb'.
  rewrite Hq.
  assert (H1 : (bound * (1 - w) <= a * (1 - w))%Q)
    by (apply Qmult_le_compat_r; [exact Ha | lra]).
  assert (H2 : (bound * w <= b * w)%Q)
    by (apply Qmult_le_compat_r; assumption).
  lra.
Qed.

Lemma percentile_bounds_aux (scores : list Q) :
  scores <> [] ->
  (forall p lo hi,
      (0 <= p)%Q -> (p <= 100)%Q ->
      (forall s, In s scores -> (lo <= s)%Q /\ (s <= hi)%Q) ->
      exists q, calculatePercentile scores p = Num q /\ (lo <= q)%Q /\ (q <= hi)%Q)
  /\ (exists q, calculatePercentile scores 0%Q = Num q /\ In q scores
                /\ forall s, In s scores -> (q <= s)%Q)
  /\ (exists q, calculatePercentile scores 100%Q = Num q /\ In q scores
                /\ forall s, In s scores -> (s <= q)%Q).
Proof.
  intros Hne.
  assert (Hn : (0 < List.length scores)%nat)
    by (destruct scores; [contradiction | cbn; lia]).
  pose proof (sortBy_Qle_sorted scores) as Hs.
  pose proof (sortBy_length Qle_bool scores) as Hlen.
  split; [|split].
  - intros p lo hi Hp0 Hp1 Hb.
    destruct (calculatePercentile_le_bound scores p hi Hne Hp0 Hp1)
      as (q & E & Hq); [intros s Hin; apply Hb, Hin|].
    destruct (calculatePercentile_ge_bound scores p lo Hne Hp0 Hp1)
      as (q' & E' & Hq'); [intros s Hin; apply Hb, Hin|].
    rewrite E in E'. inversion E'; subst q'.
    exists q. repeat split; assumption.
  - rewrite (percentile_at_integral_index scores 0%Q 0 Hne)
      by (unfold percentileIndex; field).
    destruct (at_in_range (sortBy Qle_bool scores) 0) as [E Hin]; [lia|].
    exists (element (sortBy Qle_bool scores) 0). split; [exact E|].
    split; [apply (proj1 (sortBy_In Qle_bool _ scores)), Hin|].
    intros s Hsin. apply sorted_first_min; [exact Hs|].
    apply (proj2 (sortBy_In Qle_bool s scores)), Hsin.
  - rewrite (percentile_at_integral_index scores 100%Q
               (Z.of_nat (List.length scores) - 1) Hne).
    + destruct (at_in_range (sortBy Qle_bool scores)
                  (Z.of_nat (List.length scores) - 1)) as [E Hin]; [lia|].
      eexists. split; [exact E|]. split; [apply (proj1 (sortBy_In Qle_bool _ scores)), Hin|].
      intros s Hsin. rewrite <- Hlen. apply sorted_last_max; [exact Hs|].
      apply (proj2 (sortBy_In Qle_bool s scores)), Hsin.
    + unfold percentileIndex, Z.sub. rewrite inject_Z_plus, inject_Z_opp.
      change (inject_Z 1) with 1%Q. field.
Qed.

(** The percentile 0 of a non-empty array is its smallest score and the
    percentile 100 its largest; the percentiles 25 and 75, the two the
    classifier reads, lie between any lower and upper bound of the
    scores. *)
Theorem calculatePercentile_bounds (scores : list Q) :
  scores <> [] ->
  (forall p lo hi,
      p = 25%Q \/ p = 75%Q ->
      (forall s, In s scores -> (lo <= s)%Q /\ (s <= hi)%Q) ->
      exists q, calculatePercentile scores p = Num q /\ (lo <= q)%Q /\ (q <= hi)%Q)
  /\ (exists q, calculatePercentile scores 0%Q = Num q /\ In q scores
                /\ forall s, In s scores -> (q <= s)%Q)
  /\ (exists q, calculatePercentile scores 100%Q = Num q /\ In q scores
                /\ forall s, In s scores -> (s <= q)%Q).
Proof.
  intros Hne. destruct (percentile_bounds_aux scores Hne) as (H1 & H2 & H3).
  split; [|split; assumption].
  intros p lo hi [-> | ->] Hb; apply H1; try exact Hb; discriminate.
Qed.

Lemma calculatePercentile_bounds_witness :
  let scores := [17%Q; 2%Q; 40%Q; 5%Q] in
  scores <> []
  /\ (forall s, In s scores -> (2 <= s)%Q /\ (s <= 40)%Q)
  /\ (exists q, calculatePercentile scores 75%Q = Num q /\ (2 <= q)%Q /\ (q <= 40)%Q)
  /\ (exists q, calculatePercentile scores 0%Q = Num q /\ In q scores
                /\ forall s, In s scores -> (q <= s)%Q).
Proof.
  intros scores.
  assert (Hne : scores <> []) by discriminate.
  assert (Hb : forall s, In s scores -> (2 <= s)%Q /\ (s <= 40)%Q).
  { intros s [<- | [<- | [<- | [<- | []]]]]; split; discriminate. }
  destruct (calculatePercentile_bounds scores Hne) as (H1 & H2 & _).
  split; [exact Hne|]. split; [exact Hb|].
  split; [exact (H1 75%Q 2%Q 40%Q (or_intror eq_refl) Hb) | exact H2].
Defined.

Lemma calculatePercentile_above (scores : list Q) (p below : Q) :
  scores <> [] -> (0 <= p)%Q -> (p <= 100)%Q ->
  (forall s, In s scores -> (below < s)%Q) ->
  exists q, calculatePercentile scores p = Num q /\ (below < q)%Q.
Proof.
  intros Hne Hp0 Hp1 Hb.
  destruct (percentile_bounds_aux scores Hne) as (_ & (m & _ & Hm & Hmin) & _).
  destruct (calculatePercentile_ge_bound scores p m Hne Hp0 Hp1 Hmin)
    as (q & E & Hq).
  exists q. split; [exact E|].
  apply Qlt_le_trans with m; [apply Hb, Hm | exact Hq].
Qed.

(** When comparison scores are supplied, a group scoring below every one
    of them is classified safe. *)
Theorem classify_below_population (group : list Accident) (population : list Q) :
  population <> [] ->
  (forall s, In s population -> (inject_Z (calculateSeverityScore group) < s)%Q) ->
  calculateSafetyLevelFromAccidents group (Some population) = safe.
Proof.
  intros Hp Hlow. unfold calculateSafetyLevelFromAccidents.
  destruct group as [|r group]; [reflexivity|].
  destruct population as [|s population]; [contradiction|].
  cbn [List.length Nat.eqb].
  set (score := calculateSeverityScore (r :: group)) in *.
  destruct (calculatePercentile_above (s :: population) 75%Q (inject_Z score))
    as (q75 & E75 & H75); [discriminate | discriminate | discriminate | exact Hlow |].
  destruct (calculatePercentile_above (s :: population) 25%Q (inject_Z score))
    as (q25 & E25 & H25); [discriminate | discriminate | discriminate | exact Hlow |].
  rewrite E75, E25. cbn [jsGe].
  assert (F75 : Qle_bool q75 (inject_Z score) = false).
  { apply not_true_iff_false. rewrite Qle_bool_iff. apply Qlt_not_le, H75. }
  assert (F25 : Qle_bool q25 (inject_Z score) = false).
  { apply not_true_iff_false. rewrite Qle_bool_iff. apply Qlt_not_le, H25. }
  rewrite F75, F25. reflexivity.
Qed.

Lemma classify_below_population_witness :
  let group := [ mkAccident "Saket" "08:00" (Some 1) (Some "fatal") None ] in
  let population := [40%Q; 16%Q; 95%Q] in
  population <> []
  /\ (forall s, In s population -> (inject_Z (calculateSeverityScore group) < s)%Q)
  /\ calculateSafetyLevelFromAccidents group (Some population) = safe.
Proof.
  intros group population.
  assert (Hp : population <> []) by discriminate.
  assert (Hlow : forall s, In s population ->
                           (inject_Z (calculateSeverityScore group) < s)%Q).
  { intros s [<- | [<- | [<- | []]]]; vm_compute; reflexivity. }
  split; [exact Hp|]. split; [exact Hlow|].
  exact (classify_below_population group population Hp Hlow).
Defined.

Lemma jsAdd_NaN_r (a : jsnum) : jsAdd a NaN = NaN.
Proof. destruct a; reflexivity. Qed.

(** [calculatePercentile] does not check its percentile: on an array of
    two or more scores a percentile below 0 or above 100 reads past the
    array and the result is [undefined] or [NaN], never a number; on an
    array of one score every percentile is that score. *)
Theorem calculatePercentile_out_of_range (scores : list Q) (p : Q) :
  (2 <= List.length scores)%nat ->
  (p < 0)%Q \/ (100 < p)%Q ->
  calculatePercentile scores p = Undefined \/ calculatePercentile scores p = NaN.
Proof.
  intros Hn Hp.
  assert (Hne : scores <> []) by (destruct scores; [cbn in Hn; lia | discriminate]).
  rewrite (calculatePercentile_nonempty scores p Hne). cbv zeta.
  set (sorted := sortBy Qle_bool scores).
  assert (Hlen : List.length sorted = List.length scores) by apply sortBy_length.
  rewrite Hlen. set (index := percentileIndex (List.length scores) p).
  assert (Hm : (1 <= inject_Z (Z.of_nat (List.length scores)) - 1)%Q).
  { assert (H : (inject_Z 2 <= inject_Z (Z.of_nat (List.length scores)))%Q)
      by (rewrite <- Zle_Qle; lia).
    change (inject_Z 2) with 2%Q in H. lra. }
  destruct Hp as [Hneg | Hbig].
  - assert (Hi : (index < 0)%Q).
    { unfold index, percentileIndex.
      set (m := (inject_Z (Z.of_nat (List.length scores)) - 1)%Q) in *.
      assert (Hc : (p / 100 < 0)%Q) by (apply Qlt_shift_div_r; [reflexivity | lra]).
      assert (H : (p / 100 * m <= p / 100 * 1)%Q).
      { rewrite !(Qmult_comm (p / 100)).
        setoid_replace (m * (p / 100))%Q with (- ((- (p / 100)) * m))%Q by ring.
        setoid_replace (1 * (p / 100))%Q with (- ((- (p / 100)) * 1))%Q by ring.
        apply Qopp_le_compat. rewrite !(Qmult_comm (- (p / 100))).
        apply Qmult_le_compat_r; lra. }
      lra. }
    assert (Hf : Qfloor index < 0).
    { rewrite Zlt_Qlt. apply Qle_lt_trans with index; [apply Qfloor_le | exact Hi]. }
    rewrite (at_out_of_range sorted (Qfloor index)) by (left; exact Hf).
    destruct (Qfloor index =? Qceiling index); [left | right]; reflexivity.
  - assert (Hi : (inject_Z (Z.of_nat (List.length scores) - 1) < index)%Q).
    { unfold index, percentileIndex, Z.sub. rewrite inject_Z_plus, inject_Z_opp.
      change (inject_Z 1) with 1%Q.
      set (m := (inject_Z (Z.of_nat (List.length scores)) - 1)%Q) in *.
      assert (Hc : (1 < p / 100)%Q) by (apply Qlt_shift_div_l; [reflexivity | lra]).
      assert (H : (1 * m < p / 100 * m)%Q)
        by (apply Qmult_lt_compat_r; [lra | exact Hc]).
      unfold m in *. lra. }
    assert (Hc : Z.of_nat (List.length sorted) <= Qceiling index).
    { rewrite Hlen.
      assert (H : Z.of_nat (List.length scores) - 1 < Qceiling index).
      { rewrite Zlt_Qlt. apply Qlt_le_trans with index; [exact Hi | apply Qle_ceiling]. }
      lia. }
    rewrite (at_out_of_range sorted (Qceiling index)) by (right; exact Hc).
    destruct (Z.eqb_spec (Qfloor index) (Qceiling index)) as [E|_].
    + left. rewrite E. apply at_out_of_range. right. exact Hc.
    + right. cbn [jsMul]. apply jsAdd_NaN_r.
Qed.

Lemma calculatePercentile_out_of_range_witness :
  (2 <= List.length [10%Q; 20%Q; 30%Q])%nat
  /\ ((150 < 0)%Q \/ (100 < 150)%Q)
  /\ (calculatePercentile [10%Q; 20%Q; 30%Q] 150%Q = Undefined
      \/ calculatePercentile [10%Q; 20%Q; 30%Q] 150%Q = NaN).
Proof.
  assert (Hn : (2 <= List.length [10%Q; 20%Q; 30%Q])%nat) by (cbn; lia).
  assert (Hp : (150 < 0)%Q \/ (100 < 150)%Q) by (right; reflexivity).
  split; [exact Hn|]. split; [exact Hp|].
  exact (calculatePercentile_out_of_range [10%Q; 20%Q; 30%Q] 150%Q Hn Hp).
Defined.

(** On an array of one score every percentile, in range or not, is that
    score. *)
Theorem calculatePercentile_single (s p : Q) :
  calculatePercentile [s] p = Num s.
Proof.
  rewrite (percentile_at_integral_index [s] p 0); [reflexivity | discriminate |].
  unfold percentileIndex. cbn [List.length].
  change (inject_Z (Z.of_nat 1)) with 1%Q. change (inject_Z 0) with 0%Q. ring.
Qed.

(** ** The hourly histogram as a whole *)

Lemma sumZ_incrementAt (i : nat) (counts : list Z) :
  (i < List.length counts)%nat -> sumZ (incrementAt i counts) = sumZ counts + 1.
Proof.
  revert i. induction counts as [|c cs IH]; intros i Hi; [cbn in Hi; lia|].
  destruct i as [|i]; cbn [incrementAt sumZ fold_right].
  - fold (sumZ cs). lia.
  - fold (sumZ (incrementAt i cs)) (sumZ cs). rewrite IH by (cbn in Hi; lia). lia.
Qed.

Lemma sumZ_hourStep (counts : list Z) (r : Accident) :
  List.length counts = 24%nat ->
  sumZ (hourStep counts r) = sumZ counts + if validHour r then 1 else 0.
Proof.
  intros Hlen. unfold hourStep, validHour.
  destruct (extractHour (time r)) as [h|]; [|lia].
  destruct (Z.leb_spec 0 h), (Z.ltb_spec h 24); cbn [andb]; try lia.
  apply sumZ_incrementAt. lia.
Qed.

Lemma sumZ_fold_hourStep (l : list Accident) (counts : list Z) :
  List.length counts = 24%nat ->
  sumZ (fold_left hourStep l counts) = sumZ counts + countIf validHour l.
Proof.
  revert counts. induction l as [|r l IH]; intros counts Hlen.
  - unfold countIf. cbn [fold_left filter List.length]. lia.
  - cbn [fold_left]. rewrite IH by (rewrite hourStep_length; exact Hlen).
    rewrite sumZ_hourStep, countIf_cons by exact Hlen. lia.
Qed.

Lemma combine_snd {A B : Type} (a : list A) (b : list B) :
  List.length a = List.length b -> map snd (combine a b) = b.
Proof.
  revert b. induction a as [|x a IH]; intros [|y b] H; try discriminate H;
    [reflexivity|].
  cbn. rewrite IH; [reflexivity|]. cbn in H. lia.
Qed.

Lemma getHourlyDistribution_length (l : list Accident) :
  List.length (getHourlyDistribution l) = 24%nat.
Proof.
  rewrite <- (length_map fst), getHourlyDistribution_hours, length_map, length_seq.
  reflexivity.
Qed.

(** The histogram always has the 24 hours 0 to 23, in this order; its
    counts add up to the number of records whose hour is one of them, so
    to no more than the number of records. *)
Theorem getHourlyDistribution_total (l : list Accident) :
  map fst (getHourlyDistribution l) = map Z.of_nat (seq 0 24)
  /\ sumZ (map snd (getHourlyDistribution l)) = countIf validHour l
  /\ sumZ (map snd (getHourlyDistribution l)) <= Z.of_nat (List.length l).
Proof.
  split; [apply getHourlyDistribution_hours|].
  assert (E : sumZ (map snd (getHourlyDistribution l)) = countIf validHour l).
  { unfold getHourlyDistribution.
    destruct (fold_hourStep l (repeat 0 24) eq_refl) as [Hlen _].
    rewrite combine_snd by (rewrite length_map, length_seq; reflexivity).
    rewrite sumZ_fold_hourStep by reflexivity. reflexivity. }
  split; [exact E|]. rewrite E. unfold countIf.
  pose proof (filter_length_le validHour l). lia.
Qed.

Lemma countIf_permutation (p : Accident -> bool) (l l' : list Accident) :
  Permutation l l' -> countIf p l = countIf p l'.
Proof.
  induction 1 as [|r l l' _ IH|r r' l|l l' l'' _ IH1 _ IH2].
  - reflexivity.
  - rewrite !countIf_cons. lia.
  - rewrite !countIf_cons. lia.
  - lia.
Qed.

(** The histogram does not depend on the order of the records. *)
Theorem getHourlyDistribution_permutation (l l' : list Accident) :
  Permutation l l' -> getHourlyDistribution l = getHourlyDistribution l'.
Proof.
  intros H. apply (nth_ext _ _ (0, 0) (0, 0)).
  - rewrite !getHourlyDistribution_length. reflexivity.
  - intros n Hn. rewrite getHourlyDistribution_length in Hn.
    pose proof (getHourlyDistribution_bucket l (Z.of_nat n)) as E.
    pose proof (getHourlyDistribution_bucket l' (Z.of_nat n)) as E'.
    rewrite Nat2Z.id in E, E'. rewrite E, E' by lia.
    rewrite (countIf_permutation _ l l' H). reflexivity.
Qed.

Lemma getHourlyDistribution_permutation_witness :
  Permutation [atTime "2:30 PM"; atTime "09:00"; atTime "25:00"]
              [atTime "09:00"; atTime "25:00"; atTime "2:30 PM"]
  /\ getHourlyDistribution [atTime "2:30 PM"; atTime "09:00"; atTime "25:00"]
     = getHourlyDistribution [atTime "09:00"; atTime "25:00"; atTime "2:30 PM"].
Proof.
  assert (H : Permutation [atTime "2:30 PM"; atTime "09:00"; atTime "25:00"]
                          [atTime "09:00"; atTime "25:00"; atTime "2:30 PM"]).
  { apply (Permutation_cons_append [atTime "09:00"; atTime "25:00"]). }
  split; [exact H | exact (getHourlyDistribution_permutation _ _ H)].
Defined.

(** The hour-filtered prediction looks at exactly the records the
    histogram counts in the bucket of that hour: when the bucket is empty
    the prediction is safe, and otherwise it is the classification of the
    records counted there. *)
Theorem predictSafetyForHour_bucket (hour : Z) (historicalData : list Accident)
    (population : option (list Q)) :
  0 <= hour < 24 ->
  predictSafetyForHour hour historicalData population =
    calculateSafetyLevelFromAccidents (filter (hourIs hour) historicalData) population
  /\ nth (Z.to_nat hour) (getHourlyDistribution historicalData) (0, 0)
     = (hour, Z.of_nat (List.length (filter (hourIs hour) historicalData)))
  /\ (nth (Z.to_nat hour) (getHourlyDistribution historicalData) (0, 0) = (hour, 0) ->
      predictSafetyForHour hour historicalData population = safe).
Proof.
  intros Hh.
  pose proof (getHourlyDistribution_bucket historicalData hour Hh) as E.
  split; [reflexivity|]. split; [exact E|].
  rewrite E. unfold countIf. intros H. inversion H as [H0].
  unfold predictSafetyForHour. fold (hourIs hour).
  destruct (filter (hourIs hour) historicalData); [reflexivity | discriminate H0].
Qed.

Lemma predictSafetyForHour_bucket_witness :
  let data := [atTime "2:30 PM"; atTime "09:00"] in
  0 <= 10 < 24
  /\ nth (Z.to_nat 10) (getHourlyDistribution data) (0, 0) = (10, 0)
  /\ predictSafetyForHour 10 data None = safe.
Proof.
  intros data.
  assert (Hh : 0 <= 10 < 24) by lia.
  assert (H0 : nth (Z.to_nat 10) (getHourlyDistribution data) (0, 0) = (10, 0))
    by reflexivity.
  split; [exact Hh|]. split; [exact H0|].
  exact (proj2 (proj2 (predictSafetyForHour_bucket 10 data None Hh)) H0).
Defined.

(** ** What the cause ranking returns *)

Lemma tally_In (c : string) (n : Z) (causes : list string) :
  In (c, n) (tally causes) <-> In c causes /\ n = occurrences c causes.
Proof.
  unfold tally. rewrite in_map_iff. split.
  - intros (k & E & Hk). inversion E; subst.
    split; [apply In_firstSeen, Hk | reflexivity].
  - intros [Hc ->]. exists c. split; [reflexivity | apply In_firstSeen, Hc].
Qed.

Lemma occurrences_pos (c : string) (causes : list string) :
  In c causes -> 1 <= occurrences c causes.
Proof.
  intros H. unfold occurrences.
  apply (count_occ_In string_dec) in H. lia.
Qed.

Lemma occurrences_nonneg (c : string) (causes : list string) :
  0 <= occurrences c causes.
Proof. unfold occurrences. lia. Qed.

Lemma firstn_incl {A : Type} (n : nat) (l : list A) (x : A) :
  In x (firstn n l) -> In x l.
Proof.
  intros H. rewrite <- (firstn_skipn n l). apply in_app_iff. left. exact H.
Qed.

Lemma firstn_NoDup {A : Type} (n : nat) (l : list A) :
  NoDup l -> NoDup (firstn n l).
Proof.
  intros H. rewrite <- (firstn_skipn n l) in H.
  apply NoDup_app_remove_r in H. exact H.
Qed.

Lemma getTopCauses_ranked (records : list Accident) :
  ordinaryCauses records ->
  let ranked := sortBy countBefore (JsObject.entries (tally (map causeOf records))) in
  getTopCauses records = Some (firstn 5 ranked)
  /\ Permutation ranked (tally (map causeOf records))
  /\ StronglySorted (fun a b => snd b <= snd a) ranked.
Proof.
  intros Hord ranked. split; [|split].
  - unfold getTopCauses. rewrite (causeCounts_spec records Hord). reflexivity.
  - unfold ranked. rewrite <- sortBy_perm. apply entries_perm.
  - apply countBefore_sorted.
Qed.

(** When no cause is named like a member of [Object.prototype], the
    ranking has at most five entries, no cause twice, and every entry
    pairs a cause that occurs in the records with the number of records
    having it, which is at least 1 and at most the count of the first
    entry. *)
Theorem getTopCauses_entries (records : list Accident) :
  ordinaryCauses records ->
  exists top,
    getTopCauses records = Some top
    /\ (List.length top <= 5)%nat
    /\ NoDup (map fst top)
    /\ (forall c n, In (c, n) top ->
                    In c (map causeOf records)
                    /\ n = countIf (fun r => String.eqb (causeOf r) c) records
                    /\ 1 <= n
                    /\ forall first, hd_error top = Some first -> n <= snd first).
Proof.
  intros Hord.
  destruct (getTopCauses_ranked records Hord) as (E & Hperm & Hsorted).
  set (ranked := sortBy countBefore (JsObject.entries (tally (map causeOf records)))) in *.
  exists (firstn 5 ranked). split; [exact E|].
  split; [apply firstn_le_length|].
  split.
  { rewrite <- firstn_map. apply firstn_NoDup.
    apply (Permutation_NoDup (l := map fst (tally (map causeOf records)))).
    - symmetry. apply Permutation_map, Hperm.
    - unfold tally. rewrite map_map, map_id. apply NoDup_firstSeen. }
  intros c n Hin.
  assert (Hr : In (c, n) ranked) by (apply (firstn_incl 5), Hin).
  pose proof (Permutation_in _ Hperm Hr) as Ht.
  apply tally_In in Ht. destruct Ht as [Hc ->].
  split; [exact Hc|]. split.
  { unfold occurrences, countIf. f_equal.
    clear. induction records as [|r l IH]; [reflexivity|].
    cbn [map count_occ filter].
    destruct (string_dec (causeOf r) c) as [->|Hne].
    - rewrite String.eqb_refl. cbn [List.length]. rewrite IH. reflexivity.
    - destruct (String.eqb_spec (causeOf r) c); [contradiction | exact IH]. }
  split; [apply occurrences_pos, Hc|].
  intros first Hfirst. destruct ranked as [|d rest]; [destruct Hr|].
  cbn in Hfirst. inversion Hfirst; subst first.
  inversion Hsorted as [|? ? _ Hd]; subst.
  destruct Hr as [Heq | Hr]; [rewrite Heq; cbn [snd]; lia|].
  rewrite Forall_forall in Hd. exact (Hd _ Hr).
Qed.

Lemma getTopCauses_entries_witness :
  let records := map withCause ["Fog"; "Overspeeding"; "Fog"; "Signal jumping"] in
  ordinaryCauses records
  /\ exists top,
       getTopCauses records = Some top
       /\ (List.length top <= 5)%nat /\ NoDup (map fst top).
Proof.
  intros records.
  assert (Hord : ordinaryCauses records).
  { intros r [<- | [<- | [<- | [<- | []]]]]; reflexivity. }
  split; [exact Hord|].
  destruct (getTopCauses_entries records Hord) as (top & E & Hlen & Hnd & _).
  exists top. repeat split; assumption.
Defined.

(** For a non-empty record list with no cause named like a member of
    [Object.prototype], the dominant cause is a cause of some record and
    no cause has more records than it. *)
Theorem getDominantCause_most_frequent (records : list Accident) :
  ordinaryCauses records -> records <> [] ->
  exists d,
    getDominantCause records = Some d
    /\ In d (map causeOf records)
    /\ forall c, occurrences c (map causeOf records)
                 <= occurrences d (map causeOf records).
Proof.
  intros Hord Hne.
  destruct (getTopCauses_ranked records Hord) as (E & Hperm & Hsorted).
  set (causes := map causeOf records) in *.
  set (ranked := sortBy countBefore (JsObject.entries (tally causes))) in *.
  assert (Hc0 : exists c0, In c0 causes).
  { destruct records as [|r l]; [contradiction|]. exists (causeOf r). left. reflexivity. }
  destruct Hc0 as (c0 & Hc0).
  assert (Hin0 : In (c0, occurrences c0 causes) ranked).
  { apply (Permutation_in _ (Permutation_sym Hperm)), tally_In. split; [exact Hc0 | reflexivity]. }
  destruct ranked as [|[d n] rest] eqn:Er; [destruct Hin0|].
  assert (Hd : In (d, n) (tally causes)).
  { apply (Permutation_in _ Hperm). left. reflexivity. }
  apply tally_In in Hd. destruct Hd as [Hdc Hn].
  exists d. split.
  { unfold getDominantCause. rewrite E. reflexivity. }
  split; [exact Hdc|].
  intros c. rewrite <- Hn.
  destruct (in_dec string_dec c causes) as [Hc | Hc].
  - assert (Hin : In (c, occurrences c causes) ((d, n) :: rest)).
    { apply (Permutation_in _ (Permutation_sym Hperm)), tally_In.
      split; [exact Hc | reflexivity]. }
    inversion Hsorted as [|? ? _ Hall]; subst.
    destruct Hin as [Heq | Hin]; [inversion Heq; lia|].
    rewrite Forall_forall in Hall. exact (Hall _ Hin).
  - rewrite (occurrences_absent c causes Hc). rewrite Hn. apply occurrences_nonneg.
Qed.

Lemma getDominantCause_most_frequent_witness :
  let records := map withCause ["Fog"; "Overspeeding"; "Fog"] in
  ordinaryCauses records /\ records <> []
  /\ exists d, getDominantCause records = Some d /\ In d (map causeOf records).
Proof.
  intros records.
  assert (Hord : ordinaryCauses records).
  { intros r [<- | [<- | [<- | []]]]; reflexivity. }
  assert (Hne : records <> []) by discriminate.
  split; [exact Hord|]. split; [exact Hne|].
  destruct (getDominantCause_most_frequent records Hord Hne) as (d & E & Hd & _).
  exists d. split; assumption.
Defined.

(** ** Area scores *)

Lemma assocGet_In {V : Type} (k : string) (v : V) (m : list (string * V)) :
  NoDup (map fst m) -> In (k, v) m -> assocGet k m = Some v.
Proof.
  induction m as [|[k' v'] m IH]; intros Hnd Hin; [destruct Hin|].
  cbn [assocGet]. cbn [map fst] in Hnd. inversion Hnd as [|? ? Hnot Hnd']; subst.
  destruct Hin as [E | Hin].
  - inversion E; subst. rewrite String.eqb_refl. reflexivity.
  - destruct (String.eqb_spec k k') as [->|_]; [|apply IH; assumption].
    exfalso. apply Hnot. apply (in_map fst) in Hin. exact Hin.
Qed.

Lemma assocGet_None {V : Type} (k : string) (m : list (string * V)) :
  ~ In k (map fst m) -> assocGet k m = None.
Proof.
  induction m as [|[k' v'] m IH]; intros Hnot; [reflexivity|].
  cbn [assocGet]. destruct (String.eqb_spec k k') as [->|_].
  - exfalso. apply Hnot. left. reflexivity.
  - apply IH. intros Hin. apply Hnot. right. exact Hin.
Qed.

Lemma groups_keys_NoDup (records : list Accident) :
  NoDup (map fst (JsObject.entries (groupBySpec records))).
Proof.
  apply (Permutation_NoDup (l := map fst (groupBySpec records))).
  - symmetry. apply Permutation_map, entries_perm.
  - rewrite groupBySpec_keys. apply NoDup_firstSeen.
Qed.

Lemma groups_In (records : list Accident) (r : Accident) :
  In r records ->
  In (area r, groupOf records (area r)) (JsObject.entries (groupBySpec records)).
Proof.
  intros Hr. apply (Permutation_in _ (Permutation_sym (entries_perm _))).
  unfold groupBySpec. apply in_map_iff. exists (area r).
  split; [reflexivity | apply In_firstSeen, in_map, Hr].
Qed.

Lemma groups_concat (records : list Accident) :
  Permutation (List.concat (map snd (JsObject.entries (groupBySpec records))))
              records.
Proof.
  etransitivity; [|apply groupBySpec_partition].
  rewrite <- !flat_map_concat_map. rewrite entries_perm. reflexivity.
Qed.

Lemma fold_areaScores (groups : list (string * list Accident)) (st : AreaScores) :
  NoDup (map fst (areaScores st) ++ map fst groups) ->
  fold_left
    (fun st '(area, areaAccidents) =>
       let score := calculateSeverityScore areaAccidents in
       {| areaScores := assocSet area score (areaScores st);
          allScores := (allScores st ++ [inject_Z score])%list |})
    groups st =
  {| areaScores :=
       (areaScores st
        ++ map (fun e => (fst e, calculateSeverityScore (snd e))) groups)%list;
     allScores :=
       (allScores st
        ++ map (fun e => inject_Z (calculateSeverityScore (snd e))) groups)%list |}.
Proof.
  revert st. induction groups as [|[k g] groups IH]; intros st Hnd.
  - cbn. rewrite !app_nil_r. destruct st; reflexivity.
  - cbn [fold_left map fst snd].
    assert (Hk : ~ In k (map fst (areaScores st))).
    { intros Hin. apply NoDup_remove_2 in Hnd. apply Hnd, in_app_iff.
      left. exact Hin. }
    rewrite IH.
    + cbn [areaScores allScores]. rewrite (assocSet_fresh k _ _ Hk).
      rewrite <- !app_assoc. reflexivity.
    + cbn [areaScores]. rewrite (assocSet_fresh k _ _ Hk), map_app, <- app_assoc.
      exact Hnd.
Qed.

Lemma calculateAreaScores_spec (records : list Accident) :
  ordinaryAreas records ->
  calculateAreaScores records =
  Normal
    {| areaScores :=
         map (fun e => (fst e, calculateSeverityScore (snd e)))
             (JsObject.entries (groupBySpec records));
       allScores :=
         map (fun e => inject_Z (calculateSeverityScore (snd e)))
             (JsObject.entries (groupBySpec records)) |}.
Proof.
  intros Hord. unfold calculateAreaScores.
  rewrite (groupByArea_spec records Hord), fold_areaScores.
  - reflexivity.
  - cbn [areaScores map app]. apply groups_keys_NoDup.
Qed.

Lemma score_concat (groups : list (list Accident)) :
  calculateSeverityScore (List.concat groups)
  = sumZ (map calculateSeverityScore groups).
Proof.
  induction groups as [|g groups IH]; [reflexivity|].
  cbn [List.concat map sumZ fold_right]. fold (sumZ (map calculateSeverityScore groups)).
  rewrite score_app, IH. reflexivity.
Qed.

(** When no area is named like a member of [Object.prototype],
    [calculateAreaScores] returns one score per area: looking an area up
    in [areaScores] gives the score of the records of that area,
    [allScores] lists the same scores in the same order, and the scores
    add up to the score of the whole record list. *)
Theorem calculateAreaScores_scores (records : list Accident) :
  ordinaryAreas records ->
  exists scores,
    calculateAreaScores records = Normal scores
    /\ NoDup (map fst (areaScores scores))
    /\ (forall r, In r records ->
                  assocGet (area r) (areaScores scores)
                  = Some (calculateSeverityScore (groupOf records (area r))))
    /\ (forall k, ~ In k (map area records) -> assocGet k (areaScores scores) = None)
    /\ allScores scores = map (fun e => inject_Z (snd e)) (areaScores scores)
    /\ sumZ (map snd (areaScores scores)) = calculateSeverityScore records.
Proof.
  intros Hord. eexists. split; [apply calculateAreaScores_spec, Hord|].
  cbn [areaScores allScores].
  set (groups := JsObject.entries (groupBySpec records)).
  assert (Hkeys : map fst (map (fun e : string * list Accident =>
                                  (fst e, calculateSeverityScore (snd e))) groups)
                  = map fst groups).
  { rewrite map_map. reflexivity. }
  split; [rewrite Hkeys; apply groups_keys_NoDup|].
  split.
  { intros r Hr. apply assocGet_In; [rewrite Hkeys; apply groups_keys_NoDup|].
    apply in_map_iff. exists (area r, groupOf records (area r)).
    split; [reflexivity | apply groups_In, Hr]. }
  split.
  { intros k Hk. apply assocGet_None. rewrite Hkeys. intros Hin.
    apply Hk. apply (Permutation_in _ (Permutation_map fst (entries_perm _))) in Hin.
    rewrite groupBySpec_keys in Hin. exact (proj1 (In_firstSeen _ _) Hin). }
  split; [rewrite map_map; reflexivity|].
  rewrite map_map. cbn [snd].
  rewrite <- (score_permutation _ _ (groups_concat records)).
  rewrite score_concat, map_map. reflexivity.
Qed.

Lemma calculateAreaScores_scores_witness :
  ordinaryAreas threeAreas
  /\ exists scores,
       calculateAreaScores threeAreas = Normal scores
       /\ sumZ (map snd (areaScores scores)) = calculateSeverityScore threeAreas.
Proof.
  assert (Hord : ordinaryAreas threeAreas).
  { intros r [<- | [<- | [<- | []]]]; reflexivity. }
  split; [exact Hord|].
  destruct (calculateAreaScores_scores threeAreas Hord)
    as (scores & E & _ & _ & _ & _ & Hsum).
  exists scores. split; assumption.
Defined.

(** ** The dashboard's use of the area analytics *)

Lemma analytics_get (records : list Accident) (r : Accident) :
  In r records ->
  assocGet (area r)
    (map (fun '(k, g) =>
            (k, (Z.of_nat (List.length g), calculateSafetyLevelFromAccidents g None)))
         (JsObject.entries (groupBySpec records)))
  = Some (Z.of_nat (List.length (groupOf records (area r))),
          calculateSafetyLevelFromAccidents (groupOf records (area r)) None).
Proof.
  intros Hr. apply assocGet_In.
  - rewrite map_map.
    rewrite (map_ext _ fst) by (intros [k g]; reflexivity).
    apply groups_keys_NoDup.
  - apply in_map_iff. exists (area r, groupOf records (area r)).
    split; [reflexivity | apply groups_In, Hr].
Qed.

Lemma length_concat_Z (groups : list (list Accident)) :
  Z.of_nat (List.length (List.concat groups))
  = sumZ (map (fun g => Z.of_nat (List.length g)) groups).
Proof.
  induction groups as [|g groups IH]; [reflexivity|].
  cbn [List.concat map sumZ fold_right].
  fold (sumZ (map (fun g => Z.of_nat (List.length g)) groups)).
  rewrite length_app. lia.
Qed.

(** When no area is named like a member of [Object.prototype], the entry
    [areaAnalytics] holds for the area of a selected accident counts
    exactly the related accidents the dashboard shows with it, which
    include the selected accident itself, and its level, which the detail
    panel shows, is the classification of these accidents without
    comparison scores; the counts of all entries add up to the number of
    accidents. *)
Theorem dashboard_selected_area (accidents : list Accident) (selected : Accident) :
  ordinaryAreas accidents -> In selected accidents ->
  exists analytics,
    areaAnalytics accidents = Normal analytics
    /\ In selected (relatedAccidents accidents (Some selected))
    /\ assocGet (area selected) analytics
       = Some (Z.of_nat (List.length (relatedAccidents accidents (Some selected))),
               calculateSafetyLevelFromAccidents
                 (relatedAccidents accidents (Some selected)) None)
    /\ selectedSafetyLevel analytics (Some selected)
       = calculateSafetyLevelFromAccidents
           (relatedAccidents accidents (Some selected)) None
    /\ sumZ (map (fun e => fst (snd e)) analytics) = Z.of_nat (List.length accidents).
Proof.
  intros Hord Hin. eexists. split; [apply areaAnalytics_spec, Hord|].
  pose proof (analytics_get accidents selected Hin) as Hget.
  split.
  { cbn [relatedAccidents]. apply filter_In. split; [exact Hin | apply String.eqb_refl]. }
  split; [exact Hget|].
  split.
  { unfold selectedSafetyLevel. rewrite Hget. reflexivity. }
  rewrite map_map.
  rewrite (map_ext _ (fun e => Z.of_nat (List.length (snd e))))
    by (intros [k g]; reflexivity).
  rewrite <- (map_map snd (fun g => Z.of_nat (List.length g))).
  rewrite <- length_concat_Z.
  rewrite (Permutation_length (groups_concat accidents)). reflexivity.
Qed.

Lemma dashboard_selected_area_witness :
  let selected := mkAccident "Rohini" "09:30" (Some 0) (Some "Moderate") (Some "Fog") in
  ordinaryAreas threeAreas /\ In selected threeAreas
  /\ exists analytics,
       areaAnalytics threeAreas = Normal analytics
       /\ selectedSafetyLevel analytics (Some selected)
          = calculateSafetyLevelFromAccidents
              (relatedAccidents threeAreas (Some selected)) None.
Proof.
  intros selected.
  assert (Hord : ordinaryAreas threeAreas).
  { intros r [<- | [<- | [<- | []]]]; reflexivity. }
  assert (Hin : In selected threeAreas) by (right; left; reflexivity).
  split; [exact Hord|]. split; [exact Hin|].
  destruct (dashboard_selected_area threeAreas selected Hord Hin)
    as (analytics & E & _ & _ & Hlevel & _).
  exists analytics. split; assumption.
Defined.

(** When no area is named like a member of [Object.prototype], the map
    draws one marker per accident, in order, each with the level of its
    area as the dashboard classified it and the colour of this level;
    accidents of the same area get the same colour, and the fallback to
    safe for an area without analytics is never taken. *)
Theorem accidentMarkers_levels (accidents : list Accident) :
  ordinaryAreas accidents ->
  exists analytics,
    areaAnalytics accidents = Normal analytics
    /\ map (fun m => fst (fst m)) (accidentMarkers accidents analytics) = accidents
    /\ (forall a level colour,
           In (a, level, colour) (accidentMarkers accidents analytics) ->
           assocGet (area a) analytics <> None
           /\ level = calculateSafetyLevelFromAccidents (groupOf accidents (area a)) None
           /\ colour = getSafetyColor level)
    /\ (forall a level colour b level' colour',
           In (a, level, colour) (accidentMarkers accidents analytics) ->
           In (b, level', colour') (accidentMarkers accidents analytics) ->
           area a = area b -> colour = colour').
Proof.
  intros Hord. eexists. split; [apply areaAnalytics_spec, Hord|].
  set (analytics := map _ (JsObject.entries (groupBySpec accidents))).
  assert (Hmark : forall a level colour,
             In (a, level, colour) (accidentMarkers accidents analytics) ->
             assocGet (area a) analytics <> None
             /\ level = calculateSafetyLevelFromAccidents (groupOf accidents (area a)) None
             /\ colour = getSafetyColor level).
  { intros a level colour Hin. unfold accidentMarkers in Hin.
    apply in_map_iff in Hin. destruct Hin as (x & E & Hx).
    inversion E; subst. unfold analytics.
    rewrite (analytics_get accidents a Hx). cbn [levelOr snd].
    repeat split. discriminate. }
  split.
  { unfold accidentMarkers. rewrite map_map. cbn [fst]. apply map_id. }
  split; [exact Hmark|].
  intros a level colour b level' colour' Ha Hb Hab.
  destruct (Hmark _ _ _ Ha) as (_ & -> & ->).
  destruct (Hmark _ _ _ Hb) as (_ & -> & ->).
  rewrite Hab. reflexivity.
Qed.

Lemma accidentMarkers_levels_witness :
  ordinaryAreas threeAreas
  /\ exists analytics,
       areaAnalytics threeAreas = Normal analytics
       /\ map (fun m => fst (fst m)) (accidentMarkers threeAreas analytics) = threeAreas.
Proof.
  assert (Hord : ordinaryAreas threeAreas).
  { intros r [<- | [<- | [<- | []]]]; reflexivity. }
  split; [exact Hord|].
  destruct (accidentMarkers_levels threeAreas Hord) as (analytics & E & Hm & _).
  exists analytics. split; assumption.
Defined.

(** ** Area search *)

Lemma StronglySorted_weaken {A : Type} (R R' : A -> A -> Prop) (l : list A) :
  (forall a b, R a b -> R' a b) -> StronglySorted R l -> StronglySorted R' l.
Proof.
  intros HR. induction 1 as [|x l Hs IH Hx]; constructor; [exact IH|].
  rewrite Forall_forall in *. intros y Hy. apply HR, Hx, Hy.
Qed.

Lemma areaEntry_of (accidents : list Accident) (r : Accident) :
  In r accidents ->
  let analytics :=
    map (fun '(k, g) =>
           (k, (Z.of_nat (List.length g), calculateSafetyLevelFromAccidents g None)))
        (JsObject.entries (groupBySpec accidents)) in
  let areaData := assocGet (area r) analytics in
  countOr areaData = Z.of_nat (List.length (groupOf accidents (area r)))
  /\ levelOr areaData = calculateSafetyLevelFromAccidents (groupOf accidents (area r)) None.
Proof.
  intros Hr analytics areaData. subst areaData analytics.
  rewrite (analytics_get accidents r Hr). split; reflexivity.
Qed.

(** When no area is named like a member of [Object.prototype], the search
    lists every area of the accidents exactly once, each with the number
    of its accidents, which is at least 1, and with the level the
    dashboard gave it, in descending order of this number; selecting a
    listed area hands over exactly its accidents. *)
Theorem areaSearch_areas (accidents : list Accident) :
  ordinaryAreas accidents ->
  exists analytics,
    areaAnalytics accidents = Normal analytics
    /\ Permutation (map AreaSearch.name (AreaSearch.areas accidents analytics))
                   (firstSeen (map area accidents))
    /\ NoDup (map AreaSearch.name (AreaSearch.areas accidents analytics))
    /\ (forall e, In e (AreaSearch.areas accidents analytics) ->
          AreaSearch.count e
          = Z.of_nat (List.length (groupOf accidents (AreaSearch.name e)))
          /\ 1 <= AreaSearch.count e
          /\ AreaSearch.safetyLevel e
             = calculateSafetyLevelFromAccidents
                 (groupOf accidents (AreaSearch.name e)) None
          /\ AreaSearch.handleSelectArea accidents (AreaSearch.name e)
             = Some (groupOf accidents (AreaSearch.name e)))
    /\ StronglySorted (fun a b => AreaSearch.count b <= AreaSearch.count a)
         (AreaSearch.areas accidents analytics).
Proof.
  intros Hord. eexists. split; [apply areaAnalytics_spec, Hord|].
  set (analytics := map _ (JsObject.entries (groupBySpec accidents))).
  unfold AreaSearch.areas.
  set (entries := map _ (firstSeen (map area accidents))).
  assert (Hnames : map AreaSearch.name entries = firstSeen (map area accidents)).
  { unfold entries. rewrite map_map. cbn [AreaSearch.name]. apply map_id. }
  assert (Hperm : Permutation (map AreaSearch.name (sortBy AreaSearch.countBefore entries))
                              (firstSeen (map area accidents))).
  { rewrite <- Hnames. apply Permutation_map. symmetry. apply sortBy_perm. }
  split; [exact Hperm|].
  split.
  { apply (Permutation_NoDup (Permutation_sym Hperm)), NoDup_firstSeen. }
  split.
  { intros e He. apply sortBy_In in He. unfold entries in He.
    apply in_map_iff in He. destruct He as (k & <- & Hk).
    apply In_firstSeen, in_map_iff in Hk. destruct Hk as (r & <- & Hr).
    cbn [AreaSearch.name AreaSearch.count AreaSearch.safetyLevel].
    destruct (areaEntry_of accidents r Hr) as [Hc Hl]. cbv zeta in Hc, Hl.
    fold analytics in Hc, Hl. rewrite Hc, Hl.
    assert (Hpos : (0 < List.length (groupOf accidents (area r)))%nat).
    { pose proof (groupOf_nonempty accidents (area r) (in_map area _ _ Hr)) as Hne.
      destruct (groupOf accidents (area r)); [contradiction | cbn; lia]. }
    repeat split; try lia.
    unfold AreaSearch.handleSelectArea. fold (groupOf accidents (area r)).
    apply Nat.ltb_lt in Hpos. rewrite Hpos. reflexivity. }
  assert (H : StronglySorted (fun a b => AreaSearch.countBefore a b = true)
                (sortBy AreaSearch.countBefore entries)).
  { apply sortBy_sorted; unfold AreaSearch.countBefore.
    - intros a b Hab. apply Z.leb_le. apply Z.leb_gt in Hab. lia.
    - intros a b c Hab Hbc. apply Z.leb_le. apply Z.leb_le in Hab, Hbc. lia. }
  revert H. apply StronglySorted_weaken. intros a b Hab.
  unfold AreaSearch.countBefore in Hab. apply Z.leb_le in Hab. lia.
Qed.

Lemma areaSearch_areas_witness :
  ordinaryAreas threeAreas
  /\ exists analytics,
       areaAnalytics threeAreas = Normal analytics
       /\ NoDup (map AreaSearch.name (AreaSearch.areas threeAreas analytics)).
Proof.
  assert (Hord : ordinaryAreas threeAreas).
  { intros r [<- | [<- | [<- | []]]]; reflexivity. }
  split; [exact Hord|].
  destruct (areaSearch_areas threeAreas Hord) as (analytics & E & _ & Hnd & _).
  exists analytics. split; assumption.
Defined.

Lemma firstn_prefix {A : Type} (n : nat) (l : list A) :
  exists rest,
    l = (firstn n l ++ rest)%list
    /\ (List.length (firstn n l) = n \/ rest = []).
Proof.
  exists (skipn n l). split; [symmetry; apply firstn_skipn|].
  destruct (Nat.le_gt_cases n (List.length l)) as [Hle | Hgt].
  - left. apply firstn_length_le, Hle.
  - right. apply skipn_all2. lia.
Qed.

Lemma lowerCodeUnit_ascii (c : ascii) :
  (nat_of_ascii c <? 128)%nat = true -> lowerCodeUnit c = lowerChar c.
Proof.
  destruct c as [[] [] [] [] [] [] [] []]; intros H;
    try discriminate H; reflexivity.
Qed.

(** On a string of ASCII characters the two lowercasings agree. *)
Lemma toLowerCaseFull_ascii (s : string) :
  forallb (fun c => (nat_of_ascii c <? 128)%nat) (list_ascii_of_string s) = true ->
  toLowerCaseFull s = toLowerCase s.
Proof.
  induction s as [|c s IH]; [reflexivity|].
  cbn [list_ascii_of_string forallb toLowerCaseFull toLowerCase].
  intros H. apply andb_true_iff in H. destruct H as [Hc Hs].
  rewrite (lowerCodeUnit_ascii c Hc), (IH Hs). reflexivity.
Qed.

(** The search shows the listed areas from the front of the list, in list
    order, and stops at eight: for a query of white space only the areas
    themselves, otherwise the areas whose lowercased name contains the
    lowercased query, the query being matched with its own leading and
    trailing white space.  What is shown is a front piece of these areas,
    and when fewer than eight are shown none is left out. *)
Theorem areaSearch_filteredAreas (areas : list AreaSearch.AreaEntry) (searchQuery : string) :
  let shown := AreaSearch.filteredAreas areas searchQuery in
  let matches e :=
    includes (toLowerCaseFull (AreaSearch.name e)) (toLowerCaseFull searchQuery) in
  (forall e, matches e = true
             <-> contains (toLowerCaseFull (AreaSearch.name e))
                          (toLowerCaseFull searchQuery))
  /\ (List.length shown <= 8)%nat
  /\ (trimStart searchQuery = "" ->
      exists rest,
        areas = (shown ++ rest)%list
        /\ (List.length shown = 8%nat \/ rest = []))
  /\ (trimStart searchQuery <> "" ->
      exists rest,
        filter matches areas = (shown ++ rest)%list
        /\ (List.length shown = 8%nat \/ rest = [])).
Proof.
  intros shown matches. subst shown. unfold AreaSearch.filteredAreas.
  fold matches.
  split; [intros e; apply includes_spec|].
  destruct (String.eqb_spec (trimStart searchQuery) "") as [Hblank | Hquery].
  - split; [apply firstn_le_length|].
    split; [intros _; apply firstn_prefix | intros H; contradiction].
  - split; [apply firstn_le_length|].
    split; [intros H; contradiction | intros _; apply firstn_prefix].
Qed.

Lemma areaSearch_filteredAreas_witness :
  let road := AreaSearch.mkAreaEntry (String (ascii_of_nat 201) "mile Road") 9 moderate in
  let areas := [ AreaSearch.mkAreaEntry "Saket" 12 moderate; road;
                 AreaSearch.mkAreaEntry "Okhla" 1 safe ] in
  let query := String (ascii_of_nat 233) "mile" in
  trimStart query <> ""
  /\ AreaSearch.filteredAreas areas query = [road]
  /\ (exists rest,
        filter (fun e => includes (toLowerCaseFull (AreaSearch.name e))
                                  (toLowerCaseFull query)) areas
        = (AreaSearch.filteredAreas areas query ++ rest)%list
        /\ (List.length (AreaSearch.filteredAreas areas query) = 8%nat \/ rest = []))
  /\ trimStart "  " = ""
  /\ exists rest,
       areas = (AreaSearch.filteredAreas areas "  " ++ rest)%list
       /\ (List.length (AreaSearch.filteredAreas areas "  ") = 8%nat \/ rest = []).
Proof.
  intros road areas query.
  assert (H1 : trimStart query <> "") by discriminate.
  assert (H2 : trimStart "  " = "") by reflexivity.
  destruct (areaSearch_filteredAreas areas query) as (_ & _ & _ & Hq).
  destruct (areaSearch_filteredAreas areas "  ") as (_ & _ & Hb & _).
  split; [exact H1|]. split; [reflexivity|].
  split; [exact (Hq H1)|]. split; [exact H2 | exact (Hb H2)].
Defined.

(** ** Peak hours of the detail panel *)

Lemma sorted_app_split {A : Type} (R : A -> A -> Prop) (l1 l2 : list A) :
  StronglySorted R (l1 ++ l2) ->
  StronglySorted R l1 /\ forall x y, In x l1 -> In y l2 -> R x y.
Proof.
  induction l1 as [|a l1 IH]; cbn [app]; intros H.
  - split; [constructor | intros x y []].
  - inversion H as [|? ? Hs Ha]; subst. destruct (IH Hs) as [IH1 IH2].
    rewrite Forall_forall in Ha. split.
    + constructor; [exact IH1|]. rewrite Forall_forall. intros x Hx.
      apply Ha, in_app_iff. left. exact Hx.
    + intros x y [<- | Hx] Hy; [|apply IH2; assumption].
      apply Ha, in_app_iff. right. exact Hy.
Qed.

Lemma sorted_filter {A : Type} (R : A -> A -> Prop) (p : A -> bool) (l : list A) :
  StronglySorted R l -> StronglySorted R (filter p l).
Proof.
  induction 1 as [|x l Hs IH Hx]; cbn [filter]; [constructor|].
  destruct (p x); [|exact IH]. constructor; [exact IH|].
  rewrite Forall_forall in *. intros y Hy. apply filter_In in Hy. apply Hx, Hy.
Qed.

Lemma getHourlyDistribution_In (l : list Accident) (h c : Z) :
  In (h, c) (getHourlyDistribution l) ->
  0 <= h < 24 /\ c = countIf (hourIs h) l.
Proof.
  intros Hin. destruct (In_nth _ _ (0, 0) Hin) as (n & Hn & E).
  rewrite getHourlyDistribution_length in Hn.
  pose proof (getHourlyDistribution_bucket l (Z.of_nat n)) as B.
  rewrite Nat2Z.id, E in B. specialize (B ltac:(lia)).
  inversion B; subst. split; [lia | reflexivity].
Qed.

Lemma hourlyData_sorted (related : list Accident) :
  StronglySorted (fun a b => snd b <= snd a) (LocationDetailPanel.hourlyData related).
Proof.
  unfold LocationDetailPanel.hourlyData.
  apply (StronglySorted_weaken (fun a b => LocationDetailPanel.countBefore a b = true)).
  - intros a b Hab. unfold LocationDetailPanel.countBefore in Hab.
    apply Z.leb_le in Hab. lia.
  - apply sortBy_sorted; unfold LocationDetailPanel.countBefore.
    + intros a b Hab. apply Z.leb_le. apply Z.leb_gt in Hab. lia.
    + intros a b c Hab Hbc. apply Z.leb_le. apply Z.leb_le in Hab, Hbc. lia.
Qed.

(** The detail panel sorts the histogram it got in place: the hourly data
    its chart receives are the 24 buckets in descending order of count,
    hours of equal count in ascending order.  The peak hours are at most
    three, each an hour with its count of related accidents, which is
    positive, in descending order of count, and no hour left out has a
    larger count than a peak hour. *)
Theorem peakHours_top (related : list Accident) :
  let hourly := LocationDetailPanel.hourlyData related in
  let peaks := LocationDetailPanel.peakHours related in
  Permutation hourly (getHourlyDistribution related)
  /\ StronglySorted (fun a b => snd b <= snd a) hourly
  /\ (forall n, filter (fun e => snd e =? n) hourly
                = filter (fun e => snd e =? n) (getHourlyDistribution related))
  /\ (List.length peaks <= 3)%nat
  /\ (forall h c, In (h, c) peaks ->
                  0 <= h < 24 /\ c = countIf (hourIs h) related /\ 0 < c)
  /\ StronglySorted (fun a b => snd b <= snd a) peaks
  /\ (forall p e, In p peaks -> In e (getHourlyDistribution related) ->
                  ~ In e peaks -> snd e <= snd p).
Proof.
  intros hourly peaks.
  assert (Hperm : Permutation hourly (getHourlyDistribution related)).
  { unfold hourly, LocationDetailPanel.hourlyData. symmetry. apply sortBy_perm. }
  pose proof (hourlyData_sorted related) as Hsorted. fold hourly in Hsorted.
  assert (Hsplit : hourly = (firstn 3 hourly ++ skipn 3 hourly)%list)
    by (symmetry; apply firstn_skipn).
  rewrite Hsplit in Hsorted. apply sorted_app_split in Hsorted.
  destruct Hsorted as [Hfirst Hcross].
  assert (Hpeak : forall e, In e peaks -> In e (firstn 3 hourly) /\ 0 < snd e).
  { intros e He. unfold peaks, LocationDetailPanel.peakHours in He.
    fold hourly in He. apply filter_In in He. destruct He as [He Hc].
    split; [exact He | apply Z.ltb_lt, Hc]. }
  split; [exact Hperm|].
  split; [apply hourlyData_sorted|].
  split.
  { intros n. unfold hourly, LocationDetailPanel.hourlyData.
    apply sortBy_stable. unfold LocationDetailPanel.countBefore.
    intros x y Hx Hy. apply Z.eqb_eq in Hx, Hy. apply Z.leb_le. lia. }
  split.
  { unfold peaks, LocationDetailPanel.peakHours.
    etransitivity; [apply filter_length_le | apply firstn_le_length]. }
  split.
  { intros h c Hin. destruct (Hpeak _ Hin) as [H3 Hpos].
    apply firstn_incl in H3. apply (Permutation_in _ Hperm) in H3.
    destruct (getHourlyDistribution_In _ _ _ H3) as [Hh Hc].
    repeat split; try lia; try exact Hc. exact Hpos. }
  split.
  { unfold peaks, LocationDetailPanel.peakHours. fold hourly.
    apply sorted_filter, Hfirst. }
  intros p e Hp He Hnot. destruct (Hpeak _ Hp) as [Hp3 Hppos].
  apply (Permutation_in _ (Permutation_sym Hperm)) in He.
  rewrite Hsplit in He. apply in_app_iff in He. destruct He as [He | He].
  - destruct (Z.ltb_spec 0 (snd e)) as [Hpos | Hle]; [|lia].
    exfalso. apply Hnot. unfold peaks, LocationDetailPanel.peakHours. fold hourly.
    apply filter_In. split; [exact He | apply Z.ltb_lt, Hpos].
  - exact (Hcross p e Hp3 He).
Qed.

Lemma peakHours_top_witness :
  let related := [atTime "2:30 PM"; atTime "09:00"; atTime "2:05 pm"] in
  In (14, 2) (LocationDetailPanel.peakHours related)
  /\ 0 <= 14 < 24 /\ 2 = countIf (hourIs 14) related /\ 0 < 2.
Proof.
  intros related.
  assert (Hin : In (14, 2) (LocationDetailPanel.peakHours related))
    by (left; reflexivity).
  split; [exact Hin|].
  exact (proj1 (proj2 (proj2 (proj2 (proj2 (peakHours_top related))))) 14 2 Hin).
Defined.

(** ** Presentation of a level *)

(** The label, the colour and the colour class tell the three levels
    apart, and the safety score falls as the risk rises: a non-empty group
    scoring at least as much as another never gets the higher safety
    score. *)
Theorem level_presentation :
  (forall a b, formatSafetyLevel a = formatSafetyLevel b -> a = b)
  /\ (forall a b, getSafetyColor a = getSafetyColor b -> a = b)
  /\ (forall a b, getSafetyColorClass a = getSafetyColorClass b -> a = b)
  /\ (forall a b, levelRank a < levelRank b -> getSafetyScore b < getSafetyScore a)
  /\ (forall groupA groupB population,
         groupA <> [] ->
         calculateSeverityScore groupB <= calculateSeverityScore groupA ->
         getSafetyScore (calculateSafetyLevelFromAccidents groupA population)
         <= getSafetyScore (calculateSafetyLevelFromAccidents groupB population)).
Proof.
  split; [intros [] []; cbn; intros H; try reflexivity; discriminate H|].
  split; [intros [] []; cbn; intros H; try reflexivity; discriminate H|].
  split; [intros [] []; cbn; intros H; try reflexivity; discriminate H|].
  split; [intros [] []; cbn; lia|].
  intros groupA groupB population HA Hs.
  pose proof (classify_rank_mono groupA groupB population HA Hs) as H.
  destruct (calculateSafetyLevelFromAccidents groupA population),
    (calculateSafetyLevelFromAccidents groupB population);
    cbn [levelRank getSafetyScore] in *; lia.
Qed.

Lemma level_presentation_witness :
  let groupA := [ mkAccident "Saket" "08:00" (Some 6) (Some "fatal") None ] in
  let groupB := [ mkAccident "Rohini" "09:00" None (Some "minor") None ] in
  groupA <> []
  /\ calculateSeverityScore groupB <= calculateSeverityScore groupA
  /\ getSafetyScore (calculateSafetyLevelFromAccidents groupA None)
     <= getSafetyScore (calculateSafetyLevelFromAccidents groupB None).
Proof.
  intros groupA groupB.
  assert (HA : groupA <> []) by discriminate.
  assert (Hs : calculateSeverityScore groupB <= calculateSeverityScore groupA)
    by (vm_compute; discriminate).
  split; [exact HA|]. split; [exact Hs|].
  exact (proj2 (proj2 (proj2 (proj2 level_presentation))) groupA groupB None HA Hs).
Defined.

(** ** The first version of the classifier *)

Lemma legacy_level_mono (n n' : Z) (severity extra : list (option string)) :
  n <= n' ->
  levelRank (Legacy.calculateSafetyLevel n severity)
  <= levelRank (Legacy.calculateSafetyLevel n' (severity ++ extra)).
Proof.
  intros Hn. unfold Legacy.calculateSafetyLevel. cbv zeta.
  rewrite !filter_app, !length_app.
  set (f := List.length (filter (Legacy.lowerIs "fatal") severity)).
  set (f' := List.length (filter (Legacy.lowerIs "fatal") extra)).
  set (s := List.length (filter (Legacy.lowerIs "severe") severity)).
  set (s' := List.length (filter (Legacy.lowerIs "severe") extra)).
  destruct (Z.ltb_spec 2 (Z.of_nat f)), (Z.ltb_spec 5 (Z.of_nat s)),
    (Z.ltb_spec 50 n), (Z.ltb_spec 0 (Z.of_nat f)), (Z.ltb_spec 2 (Z.of_nat s)),
    (Z.ltb_spec 20 n);
    destruct (Z.ltb_spec 2 (Z.of_nat (f + f'))), (Z.ltb_spec 5 (Z.of_nat (s + s'))),
      (Z.ltb_spec 50 n'), (Z.ltb_spec 0 (Z.of_nat (f + f'))),
      (Z.ltb_spec 2 (Z.of_nat (s + s'))), (Z.ltb_spec 20 n');
    cbn [orb levelRank]; lia.
Qed.

(** In the first version of the module the prediction for an hour depends
    on the number and the severity labels of the records of that hour
    only: it is safe when there is none, and adding records to the
    history never lowers it. *)
Theorem legacy_predictSafetyForHour_grows (hour : Z) (l extra : list Accident) :
  Legacy.predictSafetyForHour hour [] = safe
  /\ levelRank (Legacy.predictSafetyForHour hour l)
     <= levelRank (Legacy.predictSafetyForHour hour (l ++ extra)).
Proof.
  split; [reflexivity|].
  unfold Legacy.predictSafetyForHour. cbv zeta.
  rewrite filter_app, map_app, length_app.
  apply legacy_level_mono. lia.
Qed.

(** ** The fatality and injury weighted version *)

Lemma weighted_fold (l : list Weighted.Accident) (score : Z) :
  fold_left Weighted.scoreStep l score
  = score + Weighted.calculateSeverityScore l.
Proof.
  unfold Weighted.calculateSeverityScore.
  revert score. induction l as [|r l IH]; intros score; [cbn; lia|].
  cbn [fold_left]. rewrite IH, (IH (Weighted.scoreStep 0 r)).
  unfold Weighted.scoreStep. cbv zeta.
  destruct ((orZero (Weighted.fatalities r) =? 0) && (orZero (Weighted.injuries r) =? 0));
    lia.
Qed.

Lemma weighted_cons (r : Weighted.Accident) (l : list Weighted.Accident) :
  Weighted.calculateSeverityScore (r :: l)
  = 100 * orZero (Weighted.fatalities r) + 20 * orZero (Weighted.injuries r)
    + (if (orZero (Weighted.fatalities r) =? 0) && (orZero (Weighted.injuries r) =? 0)
       then 1 else 0)
    + Weighted.calculateSeverityScore l.
Proof.
  unfold Weighted.calculateSeverityScore at 1. cbn [fold_left].
  rewrite weighted_fold. unfold Weighted.scoreStep. cbv zeta.
  destruct ((orZero (Weighted.fatalities r) =? 0) && (orZero (Weighted.injuries r) =? 0));
    lia.
Qed.

Lemma weighted_lower_bound (l : list Weighted.Accident) :
  nonNegativeCounts l ->
  100 * weightedTotal Weighted.fatalities l + 20 * weightedTotal Weighted.injuries l
  <= Weighted.calculateSeverityScore l
  /\ Z.of_nat (List.length l) <= Weighted.calculateSeverityScore l.
Proof.
  unfold weightedTotal.
  induction l as [|r l IH]; intros H; [cbn; lia|].
  rewrite weighted_cons. cbn [map sumZ fold_right List.length].
  fold (sumZ (map (fun r => orZero (Weighted.fatalities r)) l)).
  fold (sumZ (map (fun r => orZero (Weighted.injuries r)) l)).
  destruct IH as [IH1 IH2]; [intros r' Hr'; apply H; right; exact Hr'|].
  destruct (H r (or_introl eq_refl)) as [Hf Hi].
  destruct (Z.eqb_spec (orZero (Weighted.fatalities r)) 0),
    (Z.eqb_spec (orZero (Weighted.injuries r)) 0); cbn [andb]; lia.
Qed.

Lemma weighted_minor_only (l : list Weighted.Accident) :
  (forall r, In r l ->
             orZero (Weighted.fatalities r) = 0 /\ orZero (Weighted.injuries r) = 0) ->
  Weighted.calculateSeverityScore l = Z.of_nat (List.length l).
Proof.
  induction l as [|r l IH]; intros H; [reflexivity|].
  rewrite weighted_cons, IH by (intros r' Hr'; apply H; right; exact Hr').
  destruct (H r (or_introl eq_refl)) as [-> ->]. cbn [Z.eqb andb List.length]. lia.
Qed.

(** In the fatality and injury weighted version, with no negative count,
    a group with two or more fatalities is high-risk and a group with one
    fatality is not safe; every record adds at least one point, so a group
    of records without fatalities and injuries scores its size and stops
    being safe at 50 records. *)
Theorem weighted_levels (l : list Weighted.Accident) :
  nonNegativeCounts l ->
  (2 <= weightedTotal Weighted.fatalities l ->
   Weighted.calculateSafetyLevelFromAccidents l = high_risk)
  /\ (1 <= weightedTotal Weighted.fatalities l ->
      Weighted.calculateSafetyLevelFromAccidents l <> safe)
  /\ Z.of_nat (List.length l) <= Weighted.calculateSeverityScore l
  /\ ((forall r, In r l ->
                 orZero (Weighted.fatalities r) = 0 /\ orZero (Weighted.injuries r) = 0) ->
      Weighted.calculateSeverityScore l = Z.of_nat (List.length l)
      /\ (Weighted.calculateSafetyLevelFromAccidents l = safe
          <-> (List.length l < 50)%nat)).
Proof.
  intros H. destruct (weighted_lower_bound l H) as [Hlow Hlen].
  assert (Hinj : 0 <= weightedTotal Weighted.injuries l).
  { unfold weightedTotal. clear Hlow Hlen.
    induction l as [|r l IH]; [cbn; lia|].
    cbn [map sumZ fold_right]. fold (sumZ (map (fun r => orZero (Weighted.injuries r)) l)).
    destruct (H r (or_introl eq_refl)) as [_ Hi].
    assert (0 <= sumZ (map (fun r => orZero (Weighted.injuries r)) l))
      by (apply IH; intros r' Hr'; apply H; right; exact Hr').
    lia. }
  unfold Weighted.calculateSafetyLevelFromAccidents. cbv zeta.
  split; [|split; [|split; [exact Hlen|]]].
  - intros H2. destruct (Z.leb_spec 150 (Weighted.calculateSeverityScore l));
      [reflexivity | lia].
  - intros H1. destruct (Z.leb_spec 150 (Weighted.calculateSeverityScore l));
      [discriminate|].
    destruct (Z.leb_spec 50 (Weighted.calculateSeverityScore l)); [discriminate | lia].
  - intros Hminor. rewrite (weighted_minor_only l Hminor). split; [reflexivity|].
    destruct (Z.leb_spec 150 (Z.of_nat (List.length l)));
      [split; [discriminate | lia]|].
    destruct (Z.leb_spec 50 (Z.of_nat (List.length l)));
      split; intros; try discriminate; try reflexivity; lia.
Qed.

Lemma weighted_levels_witness :
  let l := [ Weighted.mkAccident (Some 2) None; Weighted.mkAccident None (Some 1) ] in
  nonNegativeCounts l
  /\ 2 <= weightedTotal Weighted.fatalities l
  /\ Weighted.calculateSafetyLevelFromAccidents l = high_risk.
Proof.
  intros l.
  assert (H : nonNegativeCounts l).
  { intros r [<- | [<- | []]]; cbn; lia. }
  assert (H2 : 2 <= weightedTotal Weighted.fatalities l) by (vm_compute; discriminate).
  split; [exact H|]. split; [exact H2|].
  exact (proj1 (weighted_levels l H) H2).
Defined.

(** ** Bulk insertion in batches *)

Section BulkCreateFacts.
Context {Row Stored : Type}.
Variable insertReturning : list Row -> list Stored.

Lemma bulkLoop_chunks (fuel : nat) (l : list Row) (i : nat) (results : list Stored) :
  (List.length (skipn i l) + 100 <= 100 * fuel)%nat ->
  bulkLoop insertReturning fuel l i results
  = Some (results ++ flat_map insertReturning (chunks fuel (skipn i l)))%list.
Proof.
  revert i results. induction fuel as [|fuel IH]; intros i results Hfuel; [lia|].
  cbn [bulkLoop chunks].
  destruct (Nat.ltb_spec i (List.length l)) as [Hi | Hi].
  - assert (Hs : skipn (i + 100) l = skipn 100 (skipn i l))
      by (rewrite skipn_skipn; f_equal; lia).
    assert (Hlen : List.length (skipn i l) = (List.length l - i)%nat)
      by apply length_skipn.
    destruct (skipn i l) as [|x rest] eqn:E; [cbn in Hlen; lia|].
    rewrite IH.
    + unfold slice. rewrite Hs, E. cbn [flat_map].
      replace (i + 100 - i)%nat with 100%nat by lia.
      rewrite <- app_assoc. reflexivity.
    + rewrite Hs, length_skipn. lia.
  - rewrite skipn_all2 by exact Hi. cbn. rewrite app_nil_r. reflexivity.
Qed.

End BulkCreateFacts.

Lemma chunks_concat {A : Type} (fuel : nat) (l : list A) :
  (List.length l <= 100 * fuel)%nat ->
  List.concat (chunks fuel l) = l
  /\ Forall (fun b => (1 <= List.length b <= 100)%nat) (chunks fuel l)
  /\ Forall (fun b => List.length b = 100%nat) (removelast (chunks fuel l)).
Proof.
  revert l. induction fuel as [|fuel IH]; intros l Hfuel.
  - destruct l; [repeat split; constructor | cbn in Hfuel; lia].
  - cbn [chunks]. destruct l as [|x l]; [repeat split; constructor|].
    destruct (IH (skipn 100 (x :: l))) as (IH1 & IH2 & IH3).
    { rewrite length_skipn. lia. }
    split; [|split].
    + cbn [List.concat]. rewrite IH1. apply firstn_skipn.
    + constructor; [|exact IH2]. rewrite length_firstn. cbn [List.length]. lia.
    + cbn [removelast].
      destruct (chunks fuel (skipn 100 (x :: l))) as [|b bs] eqn:E; [constructor|].
      constructor; [|exact IH3].
      rewrite length_firstn.
      assert (Hrest : skipn 100 (x :: l) <> []).
      { intros Hnil. rewrite Hnil in E. destruct fuel; discriminate E. }
      assert ((100 < List.length (x :: l))%nat).
      { destruct (Nat.le_gt_cases (List.length (x :: l)) 100) as [Hle | Hgt];
          [|exact Hgt].
        exfalso. apply Hrest, skipn_all2, Hle. }
      lia.
Qed.

(** Given fuel for one round more than there are batches,
    [bulkCreateAccidents] returns: it hands the rows to the database in
    consecutive batches that together are the whole list in order, every
    batch of 100 rows except the last, which has 1 to 100, none for an
    empty list, and returns the rows the database returned for the
    batches, in order; if the database returns every row it is given, the
    result is the whole list. *)
Theorem bulkCreateAccidents_batches {Row : Type} (fuel : nat) (l : list Row) :
  (List.length l + 100 <= 100 * fuel)%nat ->
  exists batches,
    List.concat batches = l
    /\ Forall (fun b => (1 <= List.length b <= 100)%nat) batches
    /\ Forall (fun b => List.length b = 100%nat) (removelast batches)
    /\ (l = [] -> batches = [])
    /\ (forall (Stored : Type) (insertReturning : list Row -> list Stored),
           bulkCreateAccidents insertReturning fuel l
           = Some (flat_map insertReturning batches))
    /\ bulkCreateAccidents (fun batch => batch) fuel l = Some l.
Proof.
  intros Hfuel. exists (chunks fuel l).
  destruct (chunks_concat fuel l) as (Hcat & Hall & Hfull); [lia|].
  assert (Hrun : forall (Stored : Type) (insertReturning : list Row -> list Stored),
             bulkCreateAccidents insertReturning fuel l
             = Some (flat_map insertReturning (chunks fuel l))).
  { intros Stored ins. unfold bulkCreateAccidents.
    destruct l as [|x l]; [destruct fuel; reflexivity|].
    cbn [List.length Nat.eqb].
    rewrite bulkLoop_chunks by (cbn [skipn]; exact Hfuel). reflexivity. }
  split; [exact Hcat|]. split; [exact Hall|]. split; [exact Hfull|].
  split; [intros ->; destruct fuel; reflexivity|].
  split; [exact Hrun|].
  rewrite Hrun, flat_map_concat_map, map_id. f_equal. exact Hcat.
Qed.

Lemma bulkCreateAccidents_batches_witness :
  let l := repeat (mkAccident "Saket" "08:00" None None None) 250 in
  (List.length l + 100 <= 100 * 4)%nat
  /\ bulkCreateAccidents (fun batch => batch) 4 l = Some l.
Proof.
  intros l.
  assert (Hfuel : (List.length l + 100 <= 100 * 4)%nat)
    by (unfold l; rewrite repeat_length; lia).
  split; [exact Hfuel|].
  destruct (bulkCreateAccidents_batches 4 l Hfuel) as (batches & _ & _ & _ & _ & _ & E).
  exact E.
Defined.

(** ** Integer fields of the import *)

Lemma digit_facts (c : ascii) :
  JsObject.isDigit c = true ->
  digitValue c = Some (Z.of_nat (nat_of_ascii c - 48))
  /\ Z.of_nat (nat_of_ascii c - 48) < 10
  /\ isWhiteSpace c = false
  /\ Ascii.eqb c "-"%char = false /\ Ascii.eqb c "+"%char = false
  /\ Ascii.eqb c "x"%char = false /\ Ascii.eqb c "X"%char = false.
Proof.
  destruct c as [[] [] [] [] [] [] [] []]; intros H;
    try discriminate H; vm_compute; repeat split; reflexivity.
Qed.

Lemma parseDigits_decimal (s : string) (acc : option Z) :
  JsObject.allDigits s = true ->
  s <> "" \/ acc <> None ->
  parseDigits 10 s acc
  = Some (JsObject.decimalValue s (match acc with Some a => a | None => 0 end)).
Proof.
  revert acc. induction s as [|c s IH]; intros acc Hd Hne.
  - destruct acc as [a|]; [reflexivity|]. destruct Hne as [Hne | Hne]; contradiction.
  - cbn [JsObject.allDigits] in Hd. apply andb_true_iff in Hd. destruct Hd as [Hc Hs].
    destruct (digit_facts c Hc) as (Hv & Hlt & _).
    cbn [parseDigits JsObject.decimalValue]. rewrite Hv.
    apply Z.ltb_lt in Hlt. rewrite Hlt.
    rewrite IH; [reflexivity | exact Hs | right; discriminate].
Qed.

Lemma decimalValue_nonneg (s : string) (acc : Z) :
  0 <= acc -> 0 <= JsObject.decimalValue s acc.
Proof.
  revert acc. induction s as [|c s IH]; intros acc H; [exact H|].
  cbn [JsObject.decimalValue]. apply IH. lia.
Qed.

Lemma parseInt_digits (s : string) :
  s <> "" -> JsObject.allDigits s = true ->
  JsString.parseInt s = Some (JsObject.decimalValue s 0).
Proof.
  intros Hne Hd. destruct s as [|c s]; [contradiction|].
  pose proof Hd as Hd'. cbn [JsObject.allDigits] in Hd'.
  apply andb_true_iff in Hd'. destruct Hd' as [Hc Hs].
  destruct (digit_facts c Hc) as (_ & _ & Hws & Hminus & Hplus & _).
  unfold JsString.parseInt. cbn [trimStart]. rewrite Hws.
  assert (Hsign :
            match String c s with
            | String "-"%char r => (-1, r)
            | String "+"%char r => (1, r)
            | _ => (1, String c s)
            end = (1, String c s)).
  { destruct c as [[] [] [] [] [] [] [] []]; try reflexivity;
      discriminate Hminus || discriminate Hplus. }
  rewrite Hsign.
  assert (Hradix :
            match String c s with
            | String "0"%char (String x r) =>
                if Ascii.eqb x "x"%char || Ascii.eqb x "X"%char
                then (16, r) else (10, String c s)
            | _ => (10, String c s)
            end = (10, String c s)).
  { destruct s as [|x r]; [destruct c as [[] [] [] [] [] [] [] []]; reflexivity|].
    cbn [JsObject.allDigits] in Hs. apply andb_true_iff in Hs. destruct Hs as [Hx _].
    destruct (digit_facts x Hx) as (_ & _ & _ & _ & _ & Hx1 & Hx2).
    rewrite Hx1, Hx2. destruct c as [[] [] [] [] [] [] [] []]; reflexivity. }
  rewrite Hradix, (parseDigits_decimal _ None Hd) by (left; discriminate).
  cbn [option_map]. f_equal. lia.
Qed.

(** The import turns a missing or empty integer field into [null], and a
    field of decimal digits into the number the digits denote, which is
    not negative; a field the parser reads no number from also becomes
    [null], so no [NaN] is stored, and the scorer counts a [null]
    fatality field as 0. *)
Theorem import_parseInt :
  ImportAccidents.parseInt None = None
  /\ ImportAccidents.parseInt (Some "") = None
  /\ (forall s, s <> "" -> JsObject.allDigits s = true ->
                ImportAccidents.parseInt (Some s) = Some (JsObject.decimalValue s 0)
                /\ 0 <= JsObject.decimalValue s 0)
  /\ (forall v, JsString.parseInt v = None -> ImportAccidents.parseInt (Some v) = None)
  /\ (forall v a t s c,
         ImportAccidents.parseInt v = None ->
         calculateSeverityScore [mkAccident a t (ImportAccidents.parseInt v) s c]
         = calculateSeverityScore [mkAccident a t (Some 0) s c]).
Proof.
  split; [reflexivity|]. split; [reflexivity|].
  split.
  { intros s Hne Hd. unfold ImportAccidents.parseInt.
    destruct (String.eqb_spec s ""); [contradiction|].
    split; [apply parseInt_digits; assumption | apply decimalValue_nonneg; lia]. }
  split.
  { intros v Hv. unfold ImportAccidents.parseInt.
    destruct (String.eqb v ""); [reflexivity | exact Hv]. }
  intros v a t s c Hv. rewrite Hv. reflexivity.
Qed.

Lemma import_parseInt_witness :
  "042" <> ""
  /\ JsObject.allDigits "042" = true
  /\ ImportAccidents.parseInt (Some "042") = Some 42
  /\ JsString.parseInt "n/a" = None
  /\ ImportAccidents.parseInt (Some "n/a") = None.
Proof.
  assert (H1 : "042" <> "") by discriminate.
  assert (H2 : JsObject.allDigits "042" = true) by reflexivity.
  assert (H3 : JsString.parseInt "n/a" = None) by reflexivity.
  split; [exact H1|]. split; [exact H2|].
  split; [exact (proj1 (proj1 (proj2 (proj2 import_parseInt)) "042" H1 H2))|].
  split; [exact H3|].
  exact (proj1 (proj2 (proj2 (proj2 import_parseInt))) "n/a" H3).
Defined.
